(** * A shallow embedding of [solver.py] (DPLL SAT solver) and its properties.

    Clauses are Python [set]s of integer literals, modelled as [gset Z];
    the assignment is a Python [dict] from variables to booleans, modelled
    as [gmap Z bool].  The two [while True] loops and the recursion of
    [_dpll] are bounded by a [fuel] argument; [None] means that the fuel
    ran out (the Python code would still be running).  Integers are
    unbounded, as in Python; the interpreter's recursion limit and its
    memory are not modelled. *)

From stdpp Require Import base gmap sets list numbers option strings.

Open Scope Z_scope.

(** ** Data model *)

Abbreviation clause := (gset Z).
Abbreviation assignment := (gmap Z bool).

(** Python's [range(start, stop)]. *)
Definition range (start stop : Z) : list Z := seqZ start (stop - start).

(** [dict.get(key, 0)] on the occurrence counters. *)
Definition get0 (d : gmap Z Z) (key : Z) : Z := default 0 (d !! key).

(** [var if val else -var]. *)
Definition lit_of (var : Z) (val : bool) : Z := if val then var else - var.

(** ** The functions of [solver.py] *)

Definition _clauses_to_sets (clauses : list (list Z)) : list clause :=
  (λ c, list_to_set c) <$> clauses.

Definition _is_satisfied_clause (c : clause) (a : assignment) : bool :=
  existsb (λ lit,
    let var := Z.abs lit in
    match a !! var with
    | Some val => ((0 <? lit) && val) || ((lit <? 0) && negb val)
    | None => false
    end) (elements c).

Definition is_empty_clause (c : clause) : bool := (size c =? 0)%nat.

Definition _contains_empty_clause (clauses : list clause) : bool :=
  existsb is_empty_clause clauses.

(** The scan [for c in clauses: if len(c) == 1: unit_lits.append(next(iter(c)))]. *)
Definition find_unit_lits (clauses : list clause) : list Z :=
  omap (λ c, if (size c =? 1)%nat then head (elements c) else None) clauses.

(** The clause loop run after a unit literal [lit] has been assigned;
    [None] is the early [return clauses, assignment, True] taken when a
    clause becomes empty. *)
Fixpoint unit_simplify (lit : Z) (clauses : list clause) : option (list clause) :=
  match clauses with
  | [] => Some []
  | c :: rest =>
    if decide (lit ∈ c) then unit_simplify lit rest
    else if decide (- lit ∈ c) then
      let new_c := c ∖ {[ - lit ]} in
      if is_empty_clause new_c then None
      else new_clauses ← unit_simplify lit rest; Some (new_c :: new_clauses)
    else new_clauses ← unit_simplify lit rest; Some (c :: new_clauses)
  end.

(** The loop [for lit in unit_lits] of one round of propagation; the
    boolean is [true] when the loop left through one of its two
    [return ..., True] statements. *)
Fixpoint unit_round (unit_lits : list Z) (clauses : list clause) (a : assignment)
  : list clause * assignment * bool :=
  match unit_lits with
  | [] => (clauses, a, false)
  | lit :: rest =>
    let var := Z.abs lit in
    let val := 0 <? lit in
    match a !! var with
    | Some old =>
      if negb (Bool.eqb old val) then (clauses, a, true)
      else unit_round rest clauses a
    | None =>
      let a' := <[var := val]> a in
      match unit_simplify lit clauses with
      | None => (clauses, a', true)
      | Some new_clauses => unit_round rest new_clauses a'
      end
    end
  end.

Fixpoint _unit_propagate (fuel : nat) (clauses : list clause) (a : assignment)
  : option (list clause * assignment * bool) :=
  match fuel with
  | O => None
  | S fuel' =>
    match find_unit_lits clauses with
    | [] => Some (clauses, a, false)
    | unit_lits =>
      let '(clauses', a', conflict) := unit_round unit_lits clauses a in
      if conflict then Some (clauses', a', true)
      else _unit_propagate fuel' clauses' a'
    end
  end.

(** The occurrence count shared by [_pure_literal_elim] ([pos_occ],
    [neg_occ]) and [_choose_branch_var] ([pos_count], [neg_count]).  A
    set is visited in the order of [elements]; the counts do not depend
    on the order (see [count_occurrences_spec]). *)
Definition count_lit (a : assignment) (occ : gmap Z Z * gmap Z Z) (lit : Z)
  : gmap Z Z * gmap Z Z :=
  let var := Z.abs lit in
  match a !! var with
  | Some _ => occ
  | None =>
    if 0 <? lit then (<[var := get0 occ.1 var + 1]> occ.1, occ.2)
    else (occ.1, <[var := get0 occ.2 var + 1]> occ.2)
  end.

Definition count_clause (a : assignment) (occ : gmap Z Z * gmap Z Z) (c : clause)
  : gmap Z Z * gmap Z Z :=
  foldl (count_lit a) occ (elements c).

Definition count_occurrences (clauses : list clause) (a : assignment)
  : gmap Z Z * gmap Z Z :=
  foldl (count_clause a) (∅, ∅) clauses.

(** The classification of one key in the loop that fills [pure_vars]. *)
Definition pure_var (pos_occ neg_occ : gmap Z Z) (a : assignment) (var : Z)
  : option (Z * bool) :=
  match a !! var with
  | Some _ => None
  | None =>
    let p := get0 pos_occ var in
    let n := get0 neg_occ var in
    if (0 <? p) && (n =? 0) then Some (var, true)
    else if (0 <? n) && (p =? 0) then Some (var, false)
    else None
  end.

(** The pure variables, in the order in which the set of keys is
    visited; the rest of the pass does not depend on this order (see
    [pure_round_perm]). *)
Definition find_pure_vars (clauses : list clause) (a : assignment) : list (Z * bool) :=
  let '(pos_occ, neg_occ) := count_occurrences clauses a in
  omap (pure_var pos_occ neg_occ a) (elements (dom pos_occ ∪ dom neg_occ)).

(** The loop [for var, val in pure_vars]: assign and drop the clauses
    that contain the literal. *)
Fixpoint pure_round (pure_vars : list (Z * bool)) (clauses : list clause) (a : assignment)
  : list clause * assignment :=
  match pure_vars with
  | [] => (clauses, a)
  | (var, val) :: rest =>
    let a' := <[var := val]> a in
    let lit := lit_of var val in
    pure_round rest (filter (λ c, lit ∉ c) clauses) a'
  end.

Fixpoint _pure_literal_elim (fuel : nat) (clauses : list clause) (a : assignment)
  : option (list clause * assignment) :=
  match fuel with
  | O => None
  | S fuel' =>
    match find_pure_vars clauses a with
    | [] => Some (clauses, a)
    | pure_vars =>
      let '(clauses', a') := pure_round pure_vars clauses a in
      _pure_literal_elim fuel' clauses' a'
    end
  end.

(** One step of the scan [for var in range(1, num_vars + 1)], on the
    state [(best_var, best_score, best_pref)]. *)
Definition branch_step (pos_count neg_count : gmap Z Z) (a : assignment)
  (best : option Z * Z * bool) (var : Z) : option Z * Z * bool :=
  let '(best_var, best_score, best_pref) := best in
  match a !! var with
  | Some _ => best
  | None =>
    let p := get0 pos_count var in
    let n := get0 neg_count var in
    let score := p + n in
    if best_score <? score then (Some var, score, n <=? p) else best
  end.

Definition _choose_branch_var (clauses : list clause) (a : assignment) (num_vars : Z)
  : option Z * bool :=
  let '(pos_count, neg_count) := count_occurrences clauses a in
  let '(best_var, _, best_pref) :=
    foldl (branch_step pos_count neg_count a) (None, -1, true) (range 1 (num_vars + 1)) in
  (best_var, best_pref).

Fixpoint _simplify_after_assignment (clauses : list clause) (lit : Z) : list clause :=
  match clauses with
  | [] => []
  | c :: rest =>
    if decide (lit ∈ c) then _simplify_after_assignment rest lit
    else if decide (- lit ∈ c) then (c ∖ {[ - lit ]}) :: _simplify_after_assignment rest lit
    else c :: _simplify_after_assignment rest lit
  end.

Definition _build_model (a : assignment) (num_vars : Z) : list Z :=
  (λ v, lit_of v (default false (a !! v))) <$> range 1 (num_vars + 1).

(** The loop [for try_val in (pref_val, not pref_val)] of [_dpll]; [rec]
    is the recursive call. *)
Fixpoint dpll_branch (rec : list clause → assignment → option (bool * assignment))
  (clauses : list clause) (a : assignment) (var : Z) (try_vals : list bool)
  : option (bool * assignment) :=
  match try_vals with
  | [] => Some (false, ∅)
  | try_val :: rest =>
    let lit := lit_of var try_val in
    let new_assignment := <[var := try_val]> a in
    let new_clauses := _simplify_after_assignment clauses lit in
    if existsb is_empty_clause new_clauses then dpll_branch rec clauses a var rest
    else
      '(sat, final_assignment) ← rec new_clauses new_assignment;
      if sat : bool then Some (true, final_assignment)
      else dpll_branch rec clauses a var rest
  end.

Fixpoint _dpll (fuel : nat) (clauses : list clause) (a : assignment) (num_vars : Z)
  : option (bool * assignment) :=
  match fuel with
  | O => None
  | S fuel' =>
    '(clauses1, a1, conflict) ← _unit_propagate fuel clauses a;
    if conflict : bool then Some (false, ∅)
    else
      '(clauses2, a2) ← _pure_literal_elim fuel clauses1 a1;
      match clauses2 with
      | [] => Some (true, a2)
      | _ =>
        if _contains_empty_clause clauses2 then Some (false, ∅)
        else
          match _choose_branch_var clauses2 a2 num_vars with
          | (None, _) => Some (false, ∅)
          | (Some var, pref_val) =>
            dpll_branch (λ cs b, _dpll fuel' cs b num_vars)
              clauses2 a2 var [pref_val; negb pref_val]
          end
      end
  end.

(** [dpll_calls fuel num_vars parent child]: the call of [_dpll] on the
    state [parent] reaches the loop of step 5 and there calls [_dpll] on
    [child], for one of the two polarities. *)
Inductive dpll_calls (fuel : nat) (num_vars : Z)
  : list clause * assignment → list clause * assignment → Prop :=
| DpllCall clauses a clauses1 a1 clauses2 a2 var pref_val try_val :
    _unit_propagate (S fuel) clauses a = Some (clauses1, a1, false) →
    _pure_literal_elim (S fuel) clauses1 a1 = Some (clauses2, a2) →
    clauses2 ≠ [] →
    _contains_empty_clause clauses2 = false →
    _choose_branch_var clauses2 a2 num_vars = (Some var, pref_val) →
    try_val ∈ [pref_val; negb pref_val] →
    existsb is_empty_clause
      (_simplify_after_assignment clauses2 (lit_of var try_val)) = false →
    dpll_calls fuel num_vars (clauses, a)
      (_simplify_after_assignment clauses2 (lit_of var try_val), <[var := try_val]> a2).

Inductive status := SAT | UNSAT.

(** The first (working) definition of [solve_cnf]. *)
Definition solve_cnf (fuel : nat) (clauses : list (list Z)) (num_vars : Z)
  : option (status * option (list Z)) :=
  '(sat, a) ← _dpll fuel (_clauses_to_sets clauses) ∅ num_vars;
  if sat : bool then Some (SAT, Some (_build_model a num_vars))
  else Some (UNSAT, None).

(** ** The module namespace

    [solver.py] holds eleven [def] statements, two of them for the name
    [solve_cnf].  Running the module executes them in source order; each
    binds its name to a new function object in the module's globals. *)

Inductive exn := NotImplementedError.

Inductive outcome (A : Type) :=
| Returned (x : A)
| Raised (e : exn).
Arguments Returned {A} x.
Arguments Raised {A} e.

(** The function objects, one per [def]. *)
Inductive pyfunc :=
| F_clauses_to_sets
| F_is_satisfied_clause
| F_contains_empty_clause
| F_unit_propagate
| F_pure_literal_elim
| F_choose_branch_var
| F_simplify_after_assignment
| F_build_model
| F_dpll
| F_solve_cnf_first
| F_solve_cnf_second.

Definition module_defs : list (string * pyfunc) :=
  [ ("_clauses_to_sets", F_clauses_to_sets);
    ("_is_satisfied_clause", F_is_satisfied_clause);
    ("_contains_empty_clause", F_contains_empty_clause);
    ("_unit_propagate", F_unit_propagate);
    ("_pure_literal_elim", F_pure_literal_elim);
    ("_choose_branch_var", F_choose_branch_var);
    ("_simplify_after_assignment", F_simplify_after_assignment);
    ("_build_model", F_build_model);
    ("_dpll", F_dpll);
    ("solve_cnf", F_solve_cnf_first);
    ("solve_cnf", F_solve_cnf_second) ]%string.

Definition exec_def (globals : gmap string pyfunc) (d : string * pyfunc)
  : gmap string pyfunc := <[d.1 := d.2]> globals.

Definition module_globals : gmap string pyfunc := foldl exec_def ∅ module_defs.

(** The second definition of [solve_cnf]: [raise NotImplementedError]. *)
Definition solve_cnf_stub (clauses : list (list Z)) (num_vars : Z)
  : outcome (status * option (list Z)) :=
  Raised NotImplementedError.

(** Calling a function object with the arguments [(clauses, num_vars)];
    only the two solver entry points take them. *)
Definition call_solver (f : pyfunc) (fuel : nat) (clauses : list (list Z)) (num_vars : Z)
  : option (outcome (status * option (list Z))) :=
  match f with
  | F_solve_cnf_first => Returned <$> solve_cnf fuel clauses num_vars
  | F_solve_cnf_second => Some (solve_cnf_stub clauses num_vars)
  | _ => None
  end.

(** What a caller gets from [solver.solve_cnf(clauses, num_vars)]: the
    name is looked up in the module's globals when the call is made. *)
Definition public_solve_cnf (fuel : nat) (clauses : list (list Z)) (num_vars : Z)
  : option (outcome (status * option (list Z))) :=
  f ← module_globals !! "solve_cnf"%string; call_solver f fuel clauses num_vars.

(** ** The solver on a heap of Python objects

    The same functions once more, now with every list, set and dict as an
    object in a store, so that copies, aliases and in-place updates are
    visible.  A computation takes the heap and returns a result and the
    new heap, or [None] when it gets stuck or runs out of fuel.  Tuples,
    integers and booleans are immutable and stay values.  A [for] loop
    runs over the items its container holds when the loop starts; no
    loop of [solver.py] updates the container it iterates over. *)

Module Heap.

Abbreviation loc := positive.

(** The objects of the store: a list of integers (an inner sequence of
    the input, [unit_lits], the model), a list of references (the input,
    a clause list), a list of [(var, val)] tuples ([pure_vars]), a set
    of integers (a clause), a [dict] from variables to booleans (an
    assignment) and one from variables to integers (a counter). *)
Inductive obj :=
| OInts (items : list Z)
| ORefs (items : list loc)
| OPairs (items : list (Z * bool))
| OSet (s : gset Z)
| ODict (d : gmap Z bool)
| OCount (d : gmap Z Z).

Abbreviation heap := (gmap loc obj).

Definition M (A : Type) : Type := heap → option (A * heap).

#[global] Instance M_ret : MRet M := λ A x h, Some (x, h).

#[global] Instance M_bind : MBind M := λ A B f m h,
  match m h with
  | Some (x, h') => f x h'
  | None => None
  end.

Definition fail {A} : M A := λ _, None.

(** A new object, at an address not in use. *)
Definition alloc (o : obj) : M loc := λ h,
  let l := fresh (dom h) in Some (l, <[l := o]> h).

Definition load (l : loc) : M obj := λ h, o ← h !! l; Some (o, h).

(** An in-place update of the object at [l]. *)
Definition store (l : loc) (o : obj) : M unit := λ h,
  _ ← h !! l; Some ((), <[l := o]> h).

Definition load_ints (l : loc) : M (list Z) :=
  o ← load l; match o with OInts items => mret items | _ => fail end.

Definition load_refs (l : loc) : M (list loc) :=
  o ← load l; match o with ORefs items => mret items | _ => fail end.

Definition load_pairs (l : loc) : M (list (Z * bool)) :=
  o ← load l; match o with OPairs items => mret items | _ => fail end.

Definition load_set (l : loc) : M (gset Z) :=
  o ← load l; match o with OSet s => mret s | _ => fail end.

Definition load_dict (l : loc) : M (gmap Z bool) :=
  o ← load l; match o with ODict d => mret d | _ => fail end.

Definition load_count (l : loc) : M (gmap Z Z) :=
  o ← load l; match o with OCount d => mret d | _ => fail end.

(** [set(c)], for a list of integers or a set. *)
Definition py_set (c : loc) : M loc :=
  o ← load c;
  match o with
  | OInts items => alloc (OSet (list_to_set items))
  | OSet s => alloc (OSet s)
  | _ => fail
  end.

(** [clauses[:]]. *)
Definition list_copy (l : loc) : M loc :=
  items ← load_refs l; alloc (ORefs items).

(** [dict(assignment)]. *)
Definition dict_copy (l : loc) : M loc :=
  d ← load_dict l; alloc (ODict d).

(** [l.append(x)], for the three kinds of list. *)
Definition append_int (l : loc) (x : Z) : M unit :=
  items ← load_ints l; store l (OInts (items ++ [x])).

Definition append_ref (l : loc) (x : loc) : M unit :=
  items ← load_refs l; store l (ORefs (items ++ [x])).

Definition append_pair (l : loc) (x : Z * bool) : M unit :=
  items ← load_pairs l; store l (OPairs (items ++ [x])).

(** [s.remove(x)]; a [KeyError] when [x] is absent. *)
Definition set_remove (l : loc) (x : Z) : M unit :=
  s ← load_set l;
  if decide (x ∈ s) then store l (OSet (s ∖ {[ x ]})) else fail.

(** [d[k] = v]. *)
Definition dict_setitem (l : loc) (k : Z) (v : bool) : M unit :=
  d ← load_dict l; store l (ODict (<[k := v]> d)).

Definition count_setitem (l : loc) (k : Z) (v : Z) : M unit :=
  d ← load_count l; store l (OCount (<[k := v]> d)).

(** *** The functions *)

Fixpoint clauses_to_sets_loop (clauses : list loc) (out : loc) : M unit :=
  match clauses with
  | [] => mret ()
  | c :: rest =>
    s ← py_set c; append_ref out s;; clauses_to_sets_loop rest out
  end.

Definition _clauses_to_sets (clauses : loc) : M loc :=
  items ← load_refs clauses;
  out ← alloc (ORefs []);
  clauses_to_sets_loop items out;;
  mret out.

(** [any(len(c) == 0 for c in clauses)]. *)
Fixpoint any_empty (clauses : list loc) : M bool :=
  match clauses with
  | [] => mret false
  | c :: rest =>
    s ← load_set c;
    if (size s =? 0)%nat then mret true else any_empty rest
  end.

Definition _contains_empty_clause (clauses : loc) : M bool :=
  items ← load_refs clauses; any_empty items.

Fixpoint find_unit_lits (clauses : list loc) (unit_lits : loc) : M unit :=
  match clauses with
  | [] => mret ()
  | c :: rest =>
    s ← load_set c;
    (if (size s =? 1)%nat then
       match elements s with
       | lit :: _ => append_int unit_lits lit
       | [] => fail
       end
     else mret ());;
    find_unit_lits rest unit_lits
  end.

(** The clause loop after a unit assignment; [true] is the early
    [return clauses, assignment, True]. *)
Fixpoint unit_simplify (lit : Z) (clauses : list loc) (new_clauses : loc) : M bool :=
  match clauses with
  | [] => mret false
  | c :: rest =>
    s ← load_set c;
    if decide (lit ∈ s) then unit_simplify lit rest new_clauses
    else if decide (- lit ∈ s) then
      new_c ← py_set c;
      set_remove new_c (- lit);;
      s' ← load_set new_c;
      if (size s' =? 0)%nat then mret true
      else append_ref new_clauses new_c;; unit_simplify lit rest new_clauses
    else append_ref new_clauses c;; unit_simplify lit rest new_clauses
  end.

Fixpoint unit_round (unit_lits : list Z) (clauses assignment : loc) : M (loc * bool) :=
  match unit_lits with
  | [] => mret (clauses, false)
  | lit :: rest =>
    let var := Z.abs lit in
    let val := 0 <? lit in
    a ← load_dict assignment;
    match a !! var with
    | Some old =>
      if negb (Bool.eqb old val) then mret (clauses, true)
      else unit_round rest clauses assignment
    | None =>
      dict_setitem assignment var val;;
      new_clauses ← alloc (ORefs []);
      items ← load_refs clauses;
      conflict ← unit_simplify lit items new_clauses;
      if conflict : bool then mret (clauses, true)
      else unit_round rest new_clauses assignment
    end
  end.

Fixpoint unit_loop (fuel : nat) (clauses assignment : loc) : M (loc * bool) :=
  match fuel with
  | O => fail
  | S fuel' =>
    unit_lits ← alloc (OInts []);
    items ← load_refs clauses;
    find_unit_lits items unit_lits;;
    lits ← load_ints unit_lits;
    match lits with
    | [] => mret (clauses, false)
    | _ =>
      '(clauses', conflict) ← unit_round lits clauses assignment;
      if conflict : bool then mret (clauses', true)
      else unit_loop fuel' clauses' assignment
    end
  end.

Definition _unit_propagate (fuel : nat) (clauses assignment : loc)
  : M (loc * loc * bool) :=
  clauses ← list_copy clauses;
  assignment ← dict_copy assignment;
  '(clauses', conflict) ← unit_loop fuel clauses assignment;
  mret (clauses', assignment, conflict).

Definition count_lit (assignment pos_occ neg_occ : loc) (lit : Z) : M unit :=
  let var := Z.abs lit in
  a ← load_dict assignment;
  match a !! var with
  | Some _ => mret ()
  | None =>
    if 0 <? lit then
      p ← load_count pos_occ; count_setitem pos_occ var (get0 p var + 1)
    else
      n ← load_count neg_occ; count_setitem neg_occ var (get0 n var + 1)
  end.

Fixpoint count_lits (assignment pos_occ neg_occ : loc) (lits : list Z) : M unit :=
  match lits with
  | [] => mret ()
  | lit :: rest =>
    count_lit assignment pos_occ neg_occ lit;;
    count_lits assignment pos_occ neg_occ rest
  end.

Fixpoint count_clauses (assignment pos_occ neg_occ : loc) (clauses : list loc) : M unit :=
  match clauses with
  | [] => mret ()
  | c :: rest =>
    s ← load_set c;
    count_lits assignment pos_occ neg_occ (elements s);;
    count_clauses assignment pos_occ neg_occ rest
  end.

(** [set(list(pos_occ.keys()) + list(neg_occ.keys()))]. *)
Definition keys_set (pos_occ neg_occ : loc) : M loc :=
  p ← load_count pos_occ;
  n ← load_count neg_occ;
  pos_keys ← alloc (OInts (map_to_list p).*1);
  neg_keys ← alloc (OInts (map_to_list n).*1);
  l1 ← load_ints pos_keys;
  l2 ← load_ints neg_keys;
  keys ← alloc (OInts (l1 ++ l2));
  py_set keys.

Definition classify (assignment pos_occ neg_occ pure_vars : loc) (var : Z) : M unit :=
  a ← load_dict assignment;
  match a !! var with
  | Some _ => mret ()
  | None =>
    pos ← load_count pos_occ;
    neg ← load_count neg_occ;
    let p := get0 pos var in
    let n := get0 neg var in
    if (0 <? p) && (n =? 0) then append_pair pure_vars (var, true)
    else if (0 <? n) && (p =? 0) then append_pair pure_vars (var, false)
    else mret ()
  end.

Fixpoint classify_all (assignment pos_occ neg_occ pure_vars : loc) (vars : list Z)
  : M unit :=
  match vars with
  | [] => mret ()
  | var :: rest =>
    classify assignment pos_occ neg_occ pure_vars var;;
    classify_all assignment pos_occ neg_occ pure_vars rest
  end.

Fixpoint drop_satisfied (lit : Z) (clauses : list loc) (new_clauses : loc) : M unit :=
  match clauses with
  | [] => mret ()
  | c :: rest =>
    s ← load_set c;
    (if decide (lit ∈ s) then mret () else append_ref new_clauses c);;
    drop_satisfied lit rest new_clauses
  end.

Fixpoint pure_round (pure_vars : list (Z * bool)) (clauses assignment : loc) : M loc :=
  match pure_vars with
  | [] => mret clauses
  | (var, val) :: rest =>
    dict_setitem assignment var val;;
    let lit := lit_of var val in
    new_clauses ← alloc (ORefs []);
    items ← load_refs clauses;
    drop_satisfied lit items new_clauses;;
    pure_round rest new_clauses assignment
  end.

Fixpoint pure_loop (fuel : nat) (clauses assignment : loc) : M loc :=
  match fuel with
  | O => fail
  | S fuel' =>
    pos_occ ← alloc (OCount ∅);
    neg_occ ← alloc (OCount ∅);
    items ← load_refs clauses;
    count_clauses assignment pos_occ neg_occ items;;
    pure_vars ← alloc (OPairs []);
    keys ← keys_set pos_occ neg_occ;
    ks ← load_set keys;
    classify_all assignment pos_occ neg_occ pure_vars (elements ks);;
    pvs ← load_pairs pure_vars;
    match pvs with
    | [] => mret clauses
    | _ =>
      clauses' ← pure_round pvs clauses assignment;
      pure_loop fuel' clauses' assignment
    end
  end.

Definition _pure_literal_elim (fuel : nat) (clauses assignment : loc) : M (loc * loc) :=
  clauses ← list_copy clauses;
  assignment ← dict_copy assignment;
  clauses' ← pure_loop fuel clauses assignment;
  mret (clauses', assignment).

Definition branch_step (assignment pos_count neg_count : loc)
  (best : option Z * Z * bool) (var : Z) : M (option Z * Z * bool) :=
  let '(best_var, best_score, best_pref) := best in
  a ← load_dict assignment;
  match a !! var with
  | Some _ => mret best
  | None =>
    pos ← load_count pos_count;
    neg ← load_count neg_count;
    let p := get0 pos var in
    let n := get0 neg var in
    let score := p + n in
    if best_score <? score then mret (Some var, score, n <=? p) else mret best
  end.

Fixpoint branch_scan (assignment pos_count neg_count : loc)
  (best : option Z * Z * bool) (vars : list Z) : M (option Z * Z * bool) :=
  match vars with
  | [] => mret best
  | var :: rest =>
    best' ← branch_step assignment pos_count neg_count best var;
    branch_scan assignment pos_count neg_count best' rest
  end.

Definition _choose_branch_var (clauses assignment : loc) (num_vars : Z)
  : M (option Z * bool) :=
  pos_count ← alloc (OCount ∅);
  neg_count ← alloc (OCount ∅);
  items ← load_refs clauses;
  count_clauses assignment pos_count neg_count items;;
  '(best_var, _, best_pref) ←
    branch_scan assignment pos_count neg_count (None, -1, true) (range 1 (num_vars + 1));
  mret (best_var, best_pref).

Fixpoint simplify_loop (lit : Z) (clauses : list loc) (new_clauses : loc) : M unit :=
  match clauses with
  | [] => mret ()
  | c :: rest =>
    s ← load_set c;
    (if decide (lit ∈ s) then mret ()
     else if decide (- lit ∈ s) then
       new_c ← py_set c;
       set_remove new_c (- lit);;
       append_ref new_clauses new_c
     else append_ref new_clauses c);;
    simplify_loop lit rest new_clauses
  end.

Definition _simplify_after_assignment (clauses : loc) (lit : Z) : M loc :=
  new_clauses ← alloc (ORefs []);
  items ← load_refs clauses;
  simplify_loop lit items new_clauses;;
  mret new_clauses.

Fixpoint build_model_loop (assignment model : loc) (vars : list Z) : M unit :=
  match vars with
  | [] => mret ()
  | v :: rest =>
    a ← load_dict assignment;
    let val := default false (a !! v) in
    append_int model (lit_of v val);;
    build_model_loop assignment model rest
  end.

Definition _build_model (assignment : loc) (num_vars : Z) : M loc :=
  model ← alloc (OInts []);
  build_model_loop assignment model (range 1 (num_vars + 1));;
  mret model.

(** [return False, {}]. *)
Definition return_unsat : M (bool * loc) :=
  empty ← alloc (ODict ∅); mret (false, empty).

Fixpoint dpll_branch (rec : loc → loc → M (bool * loc))
  (clauses assignment : loc) (var : Z) (try_vals : list bool) : M (bool * loc) :=
  match try_vals with
  | [] => return_unsat
  | try_val :: rest =>
    let lit := lit_of var try_val in
    new_assignment ← dict_copy assignment;
    dict_setitem new_assignment var try_val;;
    new_clauses ← _simplify_after_assignment clauses lit;
    items ← load_refs new_clauses;
    conflict ← any_empty items;
    if conflict : bool then dpll_branch rec clauses assignment var rest
    else
      '(sat, final_assignment) ← rec new_clauses new_assignment;
      if sat : bool then mret (true, final_assignment)
      else dpll_branch rec clauses assignment var rest
  end.

Fixpoint _dpll (fuel : nat) (clauses assignment : loc) (num_vars : Z) : M (bool * loc) :=
  match fuel with
  | O => fail
  | S fuel' =>
    '(clauses1, assignment1, conflict) ← _unit_propagate fuel clauses assignment;
    if conflict : bool then return_unsat
    else
      '(clauses2, assignment2) ← _pure_literal_elim fuel clauses1 assignment1;
      items ← load_refs clauses2;
      match items with
      | [] => mret (true, assignment2)
      | _ =>
        empty ← _contains_empty_clause clauses2;
        if empty : bool then return_unsat
        else
          '(best_var, pref_val) ← _choose_branch_var clauses2 assignment2 num_vars;
          match best_var with
          | None => return_unsat
          | Some var =>
            dpll_branch (λ cs b, _dpll fuel' cs b num_vars)
              clauses2 assignment2 var [pref_val; negb pref_val]
          end
      end
  end.

Definition solve_cnf (fuel : nat) (clauses : loc) (num_vars : Z)
  : M (status * option loc) :=
  clause_sets ← _clauses_to_sets clauses;
  empty ← alloc (ODict ∅);
  '(sat, assignment) ← _dpll fuel clause_sets empty num_vars;
  if sat : bool then
    model ← _build_model assignment num_vars; mret (SAT, Some model)
  else mret (UNSAT, None).

(** *** Reasoning about heap computations *)

(** [m] returns from heap [h], with a result and a heap that satisfy [Φ]. *)
Definition wp {A} (m : M A) (h : heap) (Φ : A → heap → Prop) : Prop :=
  ∃ r h', m h = Some (r, h') ∧ Φ r h'.

(** [h'] still has every object of [h], and those outside [L] unchanged. *)
Definition frame (L : gset loc) (h h' : heap) : Prop :=
  dom h ⊆ dom h' ∧ ∀ l o, l ∉ L → h !! l = Some o → h' !! l = Some o.

Definition is_sets (h : heap) (ls : list loc) (cs : list (gset Z)) : Prop :=
  Forall2 (λ l c, h !! l = Some (OSet c)) ls cs.

(** [l] is a clause list: a list of references to the sets [cs]. *)
Definition is_clauses (h : heap) (l : loc) (cs : list (gset Z)) : Prop :=
  ∃ ls, h !! l = Some (ORefs ls) ∧ is_sets h ls cs.

(** [l] is the caller's input: a list of references to lists of integers. *)
Definition is_input (h : heap) (l : loc) (clauses : list (list Z)) : Prop :=
  ∃ ls, h !! l = Some (ORefs ls) ∧
        Forall2 (λ l c, h !! l = Some (OInts c)) ls clauses.

(** No object of [L] is a set. *)
Definition no_sets (h : heap) (L : gset loc) : Prop :=
  ∀ l s, l ∈ L → h !! l ≠ Some (OSet s).

(** A heap holding the input of scenario 3: the list [clauses] at
    address 1 and its three inner lists at addresses 2, 3 and 4. *)
Definition scenario3_heap : heap :=
  {[ 1%positive := ORefs [2; 3; 4]%positive;
     2%positive := OInts [1; 2];
     3%positive := OInts [-1; 2];
     4%positive := OInts [1; -2] ]}.

(** A heap holding a state of the search: the clause list at address 1,
    its sets [{1}], [{-1, 2}] and [{3, 4}] at addresses 2, 3 and 4, and
    the assignment [{7: True}] at address 5. *)
Definition state_heap : heap :=
  {[ 1%positive := ORefs [2; 3; 4]%positive;
     2%positive := OSet {[ 1 ]};
     3%positive := OSet {[ -1; 2 ]};
     4%positive := OSet {[ 3; 4 ]};
     5%positive := ODict {[ 7 := true ]} ]}.

End Heap.

(** ** The function [normalize] of [hash.py]

    A Python [str] is a sequence of Unicode code points, modelled as a
    list of integers.  [main], which reads [solver.py], hashes the
    normalised text with SHA-256 and prints eight hexadecimal digits, is
    not modelled. *)

Module Hash.

Abbreviation str := (list Z).

(** The characters ["\n"] and ["#"]. *)
Definition newline : Z := 10.
Definition hash_sign : Z := 35.

(** [str.isspace] on one character, the test by which [str.split()]
    recognises separators: the code points U+0009 to U+000D, U+001C to
    U+0020, U+0085, U+00A0, U+1680, U+2000 to U+200A, U+2028, U+2029,
    U+202F, U+205F and U+3000. *)
Definition isspace (ch : Z) : bool :=
  ((9 <=? ch) && (ch <=? 13)) || ((28 <=? ch) && (ch <=? 32)) ||
  (ch =? 133) || (ch =? 160) || (ch =? 5760) ||
  ((8192 <=? ch) && (ch <=? 8202)) || (ch =? 8232) || (ch =? 8233) ||
  (ch =? 8239) || (ch =? 8287) || (ch =? 12288).

(** [re.sub(r"#.*", "", text)].  The pattern matches a [#] and, after it,
    every character up to the next newline, which it leaves in place
    ([.] matches every character but the newline); the matches are found
    from left to right and replaced by the empty string.  [in_match]
    tells whether the scan is inside a match. *)
Fixpoint sub_comments (in_match : bool) (text : str) : str :=
  match text with
  | [] => []
  | ch :: rest =>
    if ch =? newline then ch :: sub_comments false rest
    else if in_match then sub_comments true rest
    else if ch =? hash_sign then sub_comments true rest
    else ch :: sub_comments false rest
  end.

(** [text.split()]: the maximal runs of characters that are not
    whitespace, in order; [word] is the run being read. *)
Fixpoint split (word : str) (text : str) : list str :=
  match text with
  | [] => match word with [] => [] | _ => [word] end
  | ch :: rest =>
    if isspace ch then
      match word with [] => split [] rest | _ => word :: split [] rest end
    else split (word ++ [ch]) rest
  end.

(** ["".join(words)]. *)
Definition join (words : list str) : str := concat words.

Definition normalize (text : str) : str :=
  let text := sub_comments false text in
  let text := join (split [] text) in
  text.

(** Whether the scan of [sub_comments], started in the state [in_match],
    is inside a match when it reaches the end of [text]. *)
Fixpoint ends_in_match (in_match : bool) (text : str) : bool :=
  match text with
  | [] => in_match
  | ch :: rest =>
    if ch =? newline then ends_in_match false rest
    else if in_match then ends_in_match true rest
    else if ch =? hash_sign then ends_in_match true rest
    else ends_in_match false rest
  end.

End Hash.

(** ** Specification vocabulary *)

(** A literal is true under an assignment when its variable is assigned
    the value of its sign; this is the test of [_is_satisfied_clause]. *)
Definition lit_true (a : assignment) (lit : Z) : Prop :=
  lit ≠ 0 ∧ a !! Z.abs lit = Some (0 <? lit).

Definition clause_sat (a : assignment) (c : clause) : Prop :=
  ∃ lit, lit ∈ c ∧ lit_true a lit.

Definition all_sat (a : assignment) (clauses : list clause) : Prop :=
  ∀ c, c ∈ clauses → clause_sat a c.

(** No clause mentions the literal [0]. *)
Definition nonzero (clauses : list clause) : Prop :=
  ∀ c, c ∈ clauses → 0 ∉ c.

(** No clause mentions a variable that is already assigned. *)
Definition clean (clauses : list clause) (a : assignment) : Prop :=
  ∀ c lit, c ∈ clauses → lit ∈ c → a !! Z.abs lit = None.

(** The literals of the clause sets name variables of [1..num_vars]. *)
Definition lits_in_range (clauses : list clause) (num_vars : Z) : Prop :=
  ∀ c lit, c ∈ clauses → lit ∈ c → 1 ≤ Z.abs lit ≤ num_vars.

(** The variable [var] occurs in a clause, in either polarity. *)
Definition occurs (clauses : list clause) (var : Z) : Prop :=
  ∃ c lit, c ∈ clauses ∧ lit ∈ c ∧ Z.abs lit = var.

(** Every clause of [clauses'] is a subset of a clause of [clauses]. *)
Definition shrinks (clauses clauses' : list clause) : Prop :=
  ∀ c', c' ∈ clauses' → ∃ c, c ∈ clauses ∧ c' ⊆ c.

(** Every clause of [clauses] is satisfied by [a] or survives, possibly
    with fewer literals, in [clauses']. *)
Definition reduct (clauses : list clause) (a : assignment) (clauses' : list clause) : Prop :=
  ∀ c, c ∈ clauses → clause_sat a c ∨ ∃ c', c' ∈ clauses' ∧ c' ⊆ c.

(** What one simplification step guarantees about the state after it. *)
Record step_ok (clauses : list clause) (a : assignment)
  (clauses' : list clause) (a' : assignment) : Prop := StepOk {
  step_extends : a ⊆ a';
  step_shrinks : shrinks clauses clauses';
  step_length : (length clauses' ≤ length clauses)%nat;
  step_reduct : nonzero clauses → reduct clauses a' clauses';
  step_clean : clean clauses a → clean clauses' a'
}.

(** [(var, val)] is pure in [clauses]: the variable is unassigned, the
    literal [lit_of var val] has variable [var] and sign [val], and no
    clause holds its negation without holding the literal itself. *)
Definition pure_in (clauses : list clause) (a : assignment) (pv : Z * bool) : Prop :=
  let lit := lit_of pv.1 pv.2 in
  a !! pv.1 = None ∧ Z.abs lit = pv.1 ∧ (0 <? lit) = pv.2 ∧
  ∀ c, c ∈ clauses → lit ∉ c → - lit ∉ c.

(** Number of clauses that contain the literal [lit]. *)
Definition cnt (lit : Z) (clauses : list clause) : Z :=
  Z.of_nat (length (filter (λ c, lit ∈ c) clauses)).

(** What the counters hold for a variable: the number of clauses with
    its positive (negative) literal if it is unassigned, else nothing. *)
Definition pos_occurrences (clauses : list clause) (a : assignment) (var : Z) : Z :=
  if decide (0 < var ∧ a !! var = None) then cnt var clauses else 0.

Definition neg_occurrences (clauses : list clause) (a : assignment) (var : Z) : Z :=
  if decide (0 ≤ var ∧ a !! var = None) then cnt (- var) clauses else 0.

(** The state of the scan of [_choose_branch_var] after the variables
    [vars]: nothing yet when all of them are assigned, else the first
    unassigned variable of maximal score, with its score and polarity. *)
Definition best_of (score : Z → Z) (pref : Z → bool) (a : assignment)
  (vars : list Z) (best : option Z * Z * bool) : Prop :=
  match best.1.1 with
  | None => best = (None, -1, true) ∧ ∀ u, u ∈ vars → a !! u ≠ None
  | Some v =>
    best = (Some v, score v, pref v) ∧ a !! v = None ∧
    ∃ before after, vars = before ++ v :: after ∧
      (∀ u, u ∈ before → a !! u = None → score u < score v) ∧
      (∀ u, u ∈ after → a !! u = None → score u ≤ score v)
  end.

(** Number of variables of [1..num_vars] without a value. *)
Definition unassigned (a : assignment) (num_vars : Z) : nat :=
  length (filter (λ v, a !! v = None) (range 1 (num_vars + 1))).

(** The literals of the input name variables of [1..num_vars]. *)
Definition in_range (clauses : list (list Z)) (num_vars : Z) : Prop :=
  ∀ c lit, c ∈ clauses → lit ∈ c → 1 ≤ Z.abs lit ≤ num_vars.

(** The same check as a computation. *)
Definition in_rangeb (clauses : list (list Z)) (num_vars : Z) : bool :=
  forallb (forallb (λ lit, (1 <=? Z.abs lit) && (Z.abs lit <=? num_vars))) clauses.

(** The value a model gives to a variable: the sign of the entry at the
    variable's position. *)
Definition model_value (model : list Z) (var : Z) : option bool :=
  (λ entry, 0 <? entry) <$> model !! Z.to_nat (var - 1).

(** A literal evaluates to true under a model. *)
Definition model_true (model : list Z) (lit : Z) : Prop :=
  lit ≠ 0 ∧ model_value model (Z.abs lit) = Some (0 <? lit).

(** [a] gives a Boolean to each of the variables [1..num_vars] and to
    nothing else. *)
Definition assigns (a : assignment) (num_vars : Z) : Prop :=
  ∀ var, is_Some (a !! var) ↔ 1 ≤ var ≤ num_vars.

(** [a] satisfies every clause of the input, by the test of
    [_is_satisfied_clause]. *)
Definition satisfies (a : assignment) (clauses : list (list Z)) : Prop :=
  ∀ c, c ∈ clauses → _is_satisfied_clause (list_to_set c) a = true.

Definition unsatisfiable (clauses : list (list Z)) (num_vars : Z) : Prop :=
  ∀ a, assigns a num_vars → ¬ satisfies a clauses.

(** The total assignment on [1..num_vars] read off a final assignment,
    with [False] for the variables it leaves out. *)
Definition total_of (af : assignment) (num_vars : Z) : assignment :=
  list_to_map ((λ v, (v, default false (af !! v))) <$> range 1 (num_vars + 1)).

(** * Properties *)

Example scenario1 : solve_cnf 3 [[1]] 1 = Some (SAT, Some [1]).
Proof. vm_compute. reflexivity. Qed.
Example scenario2 : solve_cnf 3 [[1]; [-1]] 1 = Some (UNSAT, None).
Proof. vm_compute. reflexivity. Qed.
Example scenario3 : solve_cnf 5 [[1; 2]; [-1; 2]; [1; -2]] 2 = Some (SAT, Some [1; 2]).
Proof. vm_compute. reflexivity. Qed.
Example scenario4 : solve_cnf 3 [] 3 = Some (SAT, Some [-1; -2; -3]).
Proof. vm_compute. reflexivity. Qed.
Example scenario5 : solve_cnf 5 [[1]; [2]; [-1; -2]] 2 = Some (UNSAT, None).
Proof. vm_compute. reflexivity. Qed.
Example out_of_range_input : solve_cnf 5 [[5]] 1 = Some (SAT, Some [-1]).
Proof. vm_compute. reflexivity. Qed.

(** ** Literals and clauses *)

Lemma lit_true_weaken (a a' : assignment) lit :
  a ⊆ a' → lit_true a lit → lit_true a' lit.
Proof.
  intros Hsub [Hnz Hl]. split; [done|].
  by eapply lookup_weaken.
Qed.

Lemma clause_sat_weaken (a a' : assignment) c :
  a ⊆ a' → clause_sat a c → clause_sat a' c.
Proof.
  intros Hsub (lit & Hin & Ht). exists lit. eauto using lit_true_weaken.
Qed.

Lemma clause_sat_superset (a : assignment) (c c' : clause) :
  c' ⊆ c → clause_sat a c' → clause_sat a c.
Proof.
  intros Hsub (lit & Hin & Ht). exists lit. split; [set_solver|done].
Qed.

Lemma lit_true_lit_of (a : assignment) var val :
  0 < var → a !! var = Some val → lit_true a (lit_of var val).
Proof.
  intros Hpos Ha. destruct val; simpl; split; try lia.
  - rewrite Z.abs_eq by lia. rewrite Ha. f_equal. symmetry. apply Z.ltb_lt. lia.
  - rewrite Z.abs_opp, Z.abs_eq by lia. rewrite Ha. f_equal. symmetry.
    apply Z.ltb_ge. lia.
Qed.

Lemma lit_true_sign (a : assignment) lit :
  lit ≠ 0 → a !! Z.abs lit = Some (0 <? lit) → lit_true a lit.
Proof. by split. Qed.

Lemma _is_satisfied_clause_spec (c : clause) (a : assignment) :
  _is_satisfied_clause c a = true ↔ clause_sat a c.
Proof.
  unfold _is_satisfied_clause, clause_sat. rewrite existsb_exists.
  split.
  - intros (lit & Hin & Hv). exists lit.
    apply list_elem_of_In, elem_of_elements in Hin. split; [done|].
    destruct (a !! Z.abs lit) as [val|] eqn:Ha; [|done].
    unfold lit_true. rewrite Ha.
    destruct (Z.ltb_spec 0 lit), (Z.ltb_spec lit 0), val; simpl in *;
      try done; try lia; split; (lia || done).
  - intros (lit & Hin & Hnz & Ha). exists lit. split.
    + by apply list_elem_of_In, elem_of_elements.
    + rewrite Ha.
      destruct (Z.ltb_spec 0 lit), (Z.ltb_spec lit 0); simpl; try done; lia.
Qed.

Lemma abs_cases (x y : Z) : Z.abs x = Z.abs y → x = y ∨ x = - y.
Proof. lia. Qed.

(** ** [step_ok] is a preorder *)

Lemma step_ok_refl clauses a : step_ok clauses a clauses a.
Proof.
  split; try done.
  - intros c Hc. exists c. done.
  - intros _ c Hc. right. exists c. done.
Qed.

Lemma step_ok_trans cs1 a1 cs2 a2 cs3 a3 :
  step_ok cs1 a1 cs2 a2 → step_ok cs2 a2 cs3 a3 → step_ok cs1 a1 cs3 a3.
Proof.
  intros [E1 S1 L1 R1 C1] [E2 S2 L2 R2 C2]. split.
  - by etrans.
  - intros c3 H3. destruct (S2 _ H3) as (c2 & H2 & Hs2).
    destruct (S1 _ H2) as (c1 & H1 & Hs1). exists c1. split; [done|set_solver].
  - lia.
  - intros Hnz c Hc.
    assert (nonzero cs2) as Hnz2.
    { intros c2 H2 H0. destruct (S1 _ H2) as (c1 & H1 & Hs1).
      apply (Hnz _ H1). set_solver. }
    destruct (R1 Hnz _ Hc) as [Hsat|(c2 & H2 & Hs2)].
    + left. eauto using clause_sat_weaken.
    + destruct (R2 Hnz2 _ H2) as [Hsat|(c3 & H3 & Hs3)].
      * left. eauto using clause_sat_superset.
      * right. exists c3. split; [done|set_solver].
  - auto.
Qed.

Lemma shrinks_nonzero cs cs' : shrinks cs cs' → nonzero cs → nonzero cs'.
Proof.
  intros Hs Hnz c' Hc' H0. destruct (Hs _ Hc') as (c & Hc & Hsub).
  apply (Hnz _ Hc). set_solver.
Qed.

(** ** Simplification after one assignment *)

Lemma _simplify_after_assignment_alt clauses lit :
  _simplify_after_assignment clauses lit
  = (λ c, c ∖ {[ - lit ]}) <$> filter (λ c, lit ∉ c) clauses.
Proof.
  induction clauses as [|c rest IH]; [done|]. simpl.
  destruct (decide (lit ∈ c)) as [Hin|Hnin].
  - rewrite filter_cons_False by (by intros ?). done.
  - rewrite filter_cons_True by done. rewrite fmap_cons, <- IH.
    destruct (decide (- lit ∈ c)); [done|].
    f_equal. set_solver.
Qed.

Lemma elem_of_simplify clauses lit c' :
  c' ∈ _simplify_after_assignment clauses lit
  ↔ ∃ c, c ∈ clauses ∧ (lit ∉ c) ∧ c' = c ∖ {[ - lit ]}.
Proof.
  rewrite _simplify_after_assignment_alt, list_elem_of_fmap.
  split.
  - intros (c & -> & Hc). apply list_elem_of_filter in Hc as [? ?]. eauto.
  - intros (c & Hc & Hn & ->). exists c. split; [done|].
    by apply list_elem_of_filter.
Qed.

Lemma simplify_length clauses lit :
  (length (_simplify_after_assignment clauses lit) ≤ length clauses)%nat.
Proof.
  rewrite _simplify_after_assignment_alt, length_fmap. apply length_filter.
Qed.

Lemma simplify_length_lt clauses lit c :
  c ∈ clauses → lit ∈ c →
  (length (_simplify_after_assignment clauses lit) < length clauses)%nat.
Proof.
  intros Hc Hin. rewrite _simplify_after_assignment_alt, length_fmap.
  apply (length_filter_lt _ _ c); [done|]. by intros ?.
Qed.

Lemma simplify_step clauses (a : assignment) lit :
  a !! Z.abs lit = None →
  step_ok clauses a (_simplify_after_assignment clauses lit)
    (<[Z.abs lit := (0 <? lit)]> a).
Proof.
  intros Hfresh. split.
  - by apply insert_subseteq.
  - intros c' (c & Hc & _ & ->)%elem_of_simplify. exists c. split; [done|set_solver].
  - apply simplify_length.
  - intros Hnz c Hc. destruct (decide (lit ∈ c)) as [Hin|Hnin].
    + left. exists lit. split; [done|]. split.
      * intros ->. by apply (Hnz _ Hc).
      * by rewrite lookup_insert_eq.
    + right. exists (c ∖ {[ - lit ]}). split; [|set_solver].
      apply elem_of_simplify. eauto.
  - intros Hcl c' l (c & Hc & Hn & ->)%elem_of_simplify Hl.
    apply elem_of_difference in Hl as [Hl Hneq].
    rewrite lookup_insert_ne; [by eapply Hcl|].
    intros Habs. destruct (abs_cases _ _ Habs) as [E|E]; subst lit; [done|].
    apply Hneq. rewrite Z.opp_involutive. set_solver.
Qed.

Lemma unit_simplify_Some lit clauses new_clauses :
  unit_simplify lit clauses = Some new_clauses →
  new_clauses = _simplify_after_assignment clauses lit.
Proof.
  revert new_clauses. induction clauses as [|c rest IH]; intros new_clauses; simpl.
  - by intros [= <-].
  - destruct (decide (lit ∈ c)); [by apply IH|].
    destruct (decide (- lit ∈ c)).
    + destruct (is_empty_clause _); [done|].
      destruct (unit_simplify lit rest) as [r|]; [|done]. simpl.
      intros [= <-]. by rewrite (IH r).
    + destruct (unit_simplify lit rest) as [r|]; [|done]. simpl.
      intros [= <-]. by rewrite (IH r).
Qed.

(** A clause list without empty clauses is turned into [None] by
    [unit_simplify] exactly when the simplified list has an empty clause. *)
Lemma unit_simplify_None lit clauses :
  unit_simplify lit clauses = None →
  existsb is_empty_clause (_simplify_after_assignment clauses lit) = true.
Proof.
  induction clauses as [|c rest IH]; simpl; [done|].
  destruct (decide (lit ∈ c)); [done|].
  destruct (decide (- lit ∈ c)).
  - destruct (is_empty_clause (c ∖ {[ - lit ]})) eqn:He; simpl; rewrite He; [done|].
    destruct (unit_simplify lit rest); [done|]. simpl. auto.
  - destruct (unit_simplify lit rest); [done|]. simpl. intros _.
    rewrite IH by done. apply orb_true_r.
Qed.

(** ** Unit propagation *)

Lemma elem_of_find_unit_lits clauses lit :
  lit ∈ find_unit_lits clauses ↔ ∃ c, c ∈ clauses ∧ c = {[ lit ]}.
Proof.
  unfold find_unit_lits. rewrite list_elem_of_omap. split.
  - intros (c & Hc & Hhd). exists c. split; [done|].
    destruct (Nat.eqb_spec (size c) 1) as [Hsz|]; [|done].
    apply size_1_elem_of in Hsz as [x Hx]. apply leibniz_equiv in Hx. subst c.
    rewrite elements_singleton in Hhd. by injection Hhd as ->.
  - intros (c & Hc & ->). exists {[ lit ]}. split; [done|].
    by rewrite size_singleton, elements_singleton.
Qed.

Lemma find_unit_lits_nil clauses :
  find_unit_lits clauses = [] ↔ ∀ c, c ∈ clauses → size c ≠ 1%nat.
Proof.
  split.
  - intros Hnil c Hc Hsz. apply size_1_elem_of in Hsz as [x Hx].
    apply leibniz_equiv in Hx. subst c.
    assert (x ∈ find_unit_lits clauses) as Hin
      by (apply elem_of_find_unit_lits; eauto).
    rewrite Hnil in Hin. by apply elem_of_nil in Hin.
  - intros Hall. destruct (find_unit_lits clauses) as [|l ls] eqn:E; [done|].
    assert (l ∈ find_unit_lits clauses) as Hin by (rewrite E; left).
    apply elem_of_find_unit_lits in Hin as (c & Hc & ->).
    destruct (Hall _ Hc). apply size_singleton.
Qed.

Lemma unit_round_extends unit_lits clauses (a : assignment) clauses' a' conflict :
  unit_round unit_lits clauses a = (clauses', a', conflict) → a ⊆ a'.
Proof.
  revert clauses a. induction unit_lits as [|lit rest IH]; intros clauses a; simpl.
  - by intros [= _ <- _].
  - destruct (a !! Z.abs lit) as [old|] eqn:Ha.
    + destruct (negb _); [by intros [= _ <- _]|]. apply IH.
    + destruct (unit_simplify lit clauses) as [new_clauses|].
      * intros Hr. apply IH in Hr. etrans; [|done]. by apply insert_subseteq.
      * intros [= _ <- _]. by apply insert_subseteq.
Qed.

Lemma unit_round_step unit_lits clauses (a : assignment) clauses' a' :
  unit_round unit_lits clauses a = (clauses', a', false) →
  step_ok clauses a clauses' a'.
Proof.
  revert clauses a. induction unit_lits as [|lit rest IH]; intros clauses a; simpl.
  - intros [= <- <-]. apply step_ok_refl.
  - destruct (a !! Z.abs lit) as [old|] eqn:Ha.
    + destruct (negb _); [done|]. apply IH.
    + destruct (unit_simplify lit clauses) as [new_clauses|] eqn:Hs; [|done].
      intros Hr. apply IH in Hr. apply unit_simplify_Some in Hs as ->.
      eapply step_ok_trans; [|done]. by apply simplify_step.
Qed.

(** In a clean state the first unit literal is unassigned, so a round
    that does not end in a conflict drops its clause. *)
Lemma unit_round_length_lt lit rest clauses (a : assignment) clauses' a' :
  clean clauses a → {[ lit ]} ∈ clauses →
  unit_round (lit :: rest) clauses a = (clauses', a', false) →
  (length clauses' < length clauses)%nat.
Proof.
  intros Hcl Hin. simpl.
  rewrite (Hcl {[ lit ]} lit) by (done || set_solver).
  destruct (unit_simplify lit clauses) as [new_clauses|] eqn:Hs; [|done].
  intros Hr. apply unit_round_step in Hr as [_ _ Hlen _ _].
  apply unit_simplify_Some in Hs as ->.
  pose proof (simplify_length_lt clauses lit {[ lit ]} Hin). set_solver by lia.
Qed.

Lemma _unit_propagate_S fuel clauses (a : assignment) :
  _unit_propagate (S fuel) clauses a =
  match find_unit_lits clauses with
  | [] => Some (clauses, a, false)
  | unit_lits =>
    let '(clauses', a', conflict) := unit_round unit_lits clauses a in
    if conflict then Some (clauses', a', true)
    else _unit_propagate fuel clauses' a'
  end.
Proof. done. Qed.

Lemma unit_propagate_extends fuel clauses (a : assignment) clauses' a' conflict :
  _unit_propagate fuel clauses a = Some (clauses', a', conflict) → a ⊆ a'.
Proof.
  revert clauses a. induction fuel as [|fuel IH]; intros clauses a; [done|].
  rewrite _unit_propagate_S.
  destruct (find_unit_lits clauses) as [|lit rest]; [by intros [= _ <- _]|].
  destruct (unit_round (lit :: rest) clauses a) as [[cs1 a1] [|]] eqn:Hr.
  - intros [= _ <- _]. by eapply unit_round_extends.
  - intros Hp. apply IH in Hp. etrans; [|done]. by eapply unit_round_extends.
Qed.

Lemma unit_propagate_step fuel clauses (a : assignment) clauses' a' :
  _unit_propagate fuel clauses a = Some (clauses', a', false) →
  step_ok clauses a clauses' a'.
Proof.
  revert clauses a. induction fuel as [|fuel IH]; intros clauses a; [done|].
  rewrite _unit_propagate_S. destruct (find_unit_lits clauses) as [|lit rest].
  { intros [= <- <-]. apply step_ok_refl. }
  destruct (unit_round (lit :: rest) clauses a) as [[cs1 a1] [|]] eqn:Hr; [done|].
  intros Hp. apply IH in Hp. eapply step_ok_trans; [|done].
  by eapply unit_round_step.
Qed.

Lemma unit_propagate_no_units fuel clauses (a : assignment) clauses' a' :
  _unit_propagate fuel clauses a = Some (clauses', a', false) →
  find_unit_lits clauses' = [].
Proof.
  revert clauses a. induction fuel as [|fuel IH]; intros clauses a; [done|].
  rewrite _unit_propagate_S. destruct (find_unit_lits clauses) as [|lit rest] eqn:Hu.
  { by intros [= <- <-]. }
  destruct (unit_round (lit :: rest) clauses a) as [[cs1 a1] [|]] eqn:Hr; [done|].
  apply IH.
Qed.

Lemma unit_propagate_terminates fuel clauses (a : assignment) :
  clean clauses a → (length clauses < fuel)%nat →
  is_Some (_unit_propagate fuel clauses a).
Proof.
  revert clauses a. induction fuel as [|fuel IH]; intros clauses a Hcl Hlen; [lia|].
  rewrite _unit_propagate_S. destruct (find_unit_lits clauses) as [|lit rest] eqn:Hu; [done|].
  destruct (unit_round (lit :: rest) clauses a) as [[cs1 a1] [|]] eqn:Hr; [done|].
  assert ({[ lit ]} ∈ clauses) as Hin.
  { assert (lit ∈ find_unit_lits clauses) as H by (rewrite Hu; left).
    apply elem_of_find_unit_lits in H as (c & Hc & ->). done. }
  pose proof (unit_round_length_lt _ _ _ _ _ _ Hcl Hin Hr).
  apply IH; [|lia]. apply unit_round_step in Hr. by apply Hr.
Qed.

(** Outside the states the solver reaches the loop need not end: a unit
    clause whose variable already has the value of its literal is
    skipped and found again by every scan. *)
Lemma unit_propagate_stuck_on_assigned_unit fuel :
  _unit_propagate fuel [{[ 1 ]}] {[ 1 := true ]} = None.
Proof.
  induction fuel as [|fuel IH]; [done|]. rewrite _unit_propagate_S.
  replace (find_unit_lits [{[ 1 ]}]) with [1] by (vm_compute; reflexivity).
  replace (unit_round [1] [{[ 1 ]}] {[ 1 := true ]})
    with ([({[ 1 ]} : clause)], ({[ 1 := true ]} : assignment), false)
    by (vm_compute; reflexivity).
  exact IH.
Qed.

Lemma unit_propagate_fuel_mono fuel fuel' clauses (a : assignment) r :
  (fuel ≤ fuel')%nat →
  _unit_propagate fuel clauses a = Some r → _unit_propagate fuel' clauses a = Some r.
Proof.
  revert fuel' clauses a. induction fuel as [|fuel IH]; intros fuel' clauses a Hle; [done|].
  destruct fuel' as [|fuel']; [lia|]. rewrite !_unit_propagate_S.
  destruct (find_unit_lits clauses) as [|lit rest]; [done|].
  destruct (unit_round (lit :: rest) clauses a) as [[cs1 a1] [|]]; [done|].
  apply IH. lia.
Qed.

(** ** Occurrence counting *)

Lemma cnt_cons lit c clauses :
  cnt lit (c :: clauses) = (if decide (lit ∈ c) then 1 else 0) + cnt lit clauses.
Proof.
  unfold cnt. destruct (decide (lit ∈ c)).
  - rewrite filter_cons_True by done. simpl length. lia.
  - rewrite filter_cons_False by done. lia.
Qed.

Lemma cnt_nonneg lit clauses : 0 ≤ cnt lit clauses.
Proof. unfold cnt. lia. Qed.

Lemma cnt_pos_elem lit clauses :
  0 < cnt lit clauses → ∃ c, c ∈ clauses ∧ lit ∈ c.
Proof.
  unfold cnt. intros Hpos.
  destruct (filter (λ c, lit ∈ c) clauses) as [|c l] eqn:E; [simpl in Hpos; lia|].
  assert (c ∈ filter (λ c, lit ∈ c) clauses) as Hin by (rewrite E; left).
  apply list_elem_of_filter in Hin as [? ?]. eauto.
Qed.

Lemma cnt_zero_elem lit clauses c :
  cnt lit clauses = 0 → c ∈ clauses → lit ∉ c.
Proof.
  intros Hz Hc Hin. unfold cnt in Hz.
  assert (c ∈ filter (λ c, lit ∈ c) clauses) as Hf by by apply list_elem_of_filter.
  destruct (filter (λ c, lit ∈ c) clauses); [by apply elem_of_nil in Hf|].
  simpl in Hz. lia.
Qed.

Lemma get0_insert (d : gmap Z Z) k x k' :
  get0 (<[k := x]> d) k' = if decide (k = k') then x else get0 d k'.
Proof. unfold get0. rewrite lookup_insert. by destruct (decide (k = k')). Qed.

Lemma count_lit_pos (a : assignment) occ lit var :
  get0 (count_lit a occ lit).1 var
  = get0 occ.1 var + (if decide (lit = var ∧ 0 < var ∧ a !! var = None) then 1 else 0).
Proof.
  unfold count_lit. destruct (a !! Z.abs lit) as [b|] eqn:Ha.
  - rewrite decide_False; [lia|]. intros (-> & Hpos & Hn).
    rewrite Z.abs_eq in Ha by lia. congruence.
  - destruct (Z.ltb_spec 0 lit) as [Hpos|Hneg]; simpl.
    + rewrite Z.abs_eq in * by lia. rewrite get0_insert.
      destruct (decide (lit = var)) as [->|Hne].
      * rewrite decide_True by done. done.
      * rewrite decide_False by naive_solver. lia.
    + rewrite decide_False; [lia|]. intros (-> & Hpos & _). lia.
Qed.

Lemma count_lit_neg (a : assignment) occ lit var :
  get0 (count_lit a occ lit).2 var
  = get0 occ.2 var + (if decide (lit = - var ∧ 0 ≤ var ∧ a !! var = None) then 1 else 0).
Proof.
  unfold count_lit. destruct (a !! Z.abs lit) as [b|] eqn:Ha.
  - rewrite decide_False; [lia|]. intros (-> & Hpos & Hn).
    rewrite Z.abs_opp, Z.abs_eq in Ha by lia. congruence.
  - destruct (Z.ltb_spec 0 lit) as [Hpos|Hneg]; simpl.
    + rewrite decide_False; [lia|]. intros (-> & Hpos' & _). lia.
    + rewrite Z.abs_neq in * by lia. rewrite get0_insert.
      destruct (decide (- lit = var)) as [<-|Hne].
      * rewrite decide_True; [done|]. repeat split; (lia || done).
      * rewrite decide_False; [lia|]. intros (-> & _). lia.
Qed.

Lemma count_lits_pos (a : assignment) lits occ var :
  NoDup lits →
  get0 (foldl (count_lit a) occ lits).1 var
  = get0 occ.1 var + (if decide (var ∈ lits ∧ 0 < var ∧ a !! var = None) then 1 else 0).
Proof.
  intros Hnd. revert occ.
  induction Hnd as [|lit lits Hnin Hnd IH]; intros occ; cbn [foldl].
  - case_decide as H; [|lia]. destruct H as (?%elem_of_nil & _). done.
  - rewrite IH, count_lit_pos.
    repeat case_decide; try lia; exfalso; set_solver.
Qed.

Lemma count_lits_neg (a : assignment) lits occ var :
  NoDup lits →
  get0 (foldl (count_lit a) occ lits).2 var
  = get0 occ.2 var + (if decide (- var ∈ lits ∧ 0 ≤ var ∧ a !! var = None) then 1 else 0).
Proof.
  intros Hnd. revert occ.
  induction Hnd as [|lit lits Hnin Hnd IH]; intros occ; cbn [foldl].
  - case_decide as H; [|lia]. destruct H as (?%elem_of_nil & _). done.
  - rewrite IH, count_lit_neg.
    repeat case_decide; try lia; exfalso; set_solver.
Qed.

Lemma count_occurrences_from (a : assignment) clauses occ var :
  let occ' := foldl (count_clause a) occ clauses in
  get0 occ'.1 var = get0 occ.1 var + pos_occurrences clauses a var ∧
  get0 occ'.2 var = get0 occ.2 var + neg_occurrences clauses a var.
Proof.
  revert occ. unfold pos_occurrences, neg_occurrences.
  induction clauses as [|c rest IH]; intros occ; simpl.
  - unfold cnt. simpl. split; case_decide; lia.
  - destruct (IH (count_clause a occ c)) as [-> ->]. unfold count_clause.
    rewrite count_lits_pos, count_lits_neg by apply NoDup_elements.
    rewrite !cnt_cons.
    split; repeat case_decide; try lia; exfalso;
      repeat match goal with H : context [_ ∈ elements _] |- _ =>
        rewrite elem_of_elements in H end; naive_solver.
Qed.

(** The counters hold exactly the clause counts of the unassigned variables. *)
Lemma count_occurrences_spec clauses (a : assignment) var :
  get0 (count_occurrences clauses a).1 var = pos_occurrences clauses a var ∧
  get0 (count_occurrences clauses a).2 var = neg_occurrences clauses a var.
Proof.
  destruct (count_occurrences_from a clauses (∅, ∅) var) as [H1 H2].
  unfold count_occurrences. rewrite H1, H2. done.
Qed.

Lemma pos_occurrences_nonneg clauses (a : assignment) var :
  0 ≤ pos_occurrences clauses a var.
Proof. unfold pos_occurrences. case_decide; [apply cnt_nonneg|lia]. Qed.

Lemma neg_occurrences_nonneg clauses (a : assignment) var :
  0 ≤ neg_occurrences clauses a var.
Proof. unfold neg_occurrences. case_decide; [apply cnt_nonneg|lia]. Qed.

(** ** Pure literal elimination *)

Lemma pure_var_Some pos_occ neg_occ (a : assignment) var pv :
  pure_var pos_occ neg_occ a var = Some pv →
  pv.1 = var ∧ a !! var = None ∧
  (if pv.2 then 0 < get0 pos_occ var ∧ get0 neg_occ var = 0
   else 0 < get0 neg_occ var ∧ get0 pos_occ var = 0).
Proof.
  unfold pure_var. destruct (a !! var); [done|].
  destruct (Z.ltb_spec 0 (get0 pos_occ var)), (Z.eqb_spec (get0 neg_occ var) 0),
    (Z.ltb_spec 0 (get0 neg_occ var)), (Z.eqb_spec (get0 pos_occ var) 0);
    simpl; intros [= <-]; simpl; auto; lia.
Qed.

Lemma elem_of_find_pure_vars clauses (a : assignment) pv :
  pv ∈ find_pure_vars clauses a →
  pure_in clauses a pv ∧ ∃ c, c ∈ clauses ∧ lit_of pv.1 pv.2 ∈ c.
Proof.
  unfold find_pure_vars.
  pose proof (count_occurrences_spec clauses a pv.1) as [Hp Hn].
  destruct (count_occurrences clauses a) as [pos_occ neg_occ]. simpl in Hp, Hn.
  intros (var & _ & Hpv)%list_elem_of_omap.
  apply pure_var_Some in Hpv as (Hv & Ha & Hcount).
  destruct pv as [v val]. simpl in *. subst v. rewrite Hp, Hn in Hcount.
  unfold pos_occurrences, neg_occurrences, pure_in in *. simpl.
  destruct val; simpl; destruct Hcount as [Hc1 Hc2]; repeat case_decide; try lia.
  - split; [split_and!|by apply cnt_pos_elem]; [done|lia|apply Z.ltb_lt; lia|].
    intros c Hc _. by eapply cnt_zero_elem.
  - exfalso. naive_solver lia.
  - split; [split_and!|by apply cnt_pos_elem]; [done|lia|apply Z.ltb_ge; lia|].
    intros c Hc _. rewrite Z.opp_involutive. by eapply cnt_zero_elem.
  - assert (var = 0) as E.
    { destruct (decide (0 < var)); [by destruct H|lia]. }
    subst var. change (- 0) with 0 in *.
    split; [split_and!|by apply cnt_pos_elem]; done.
Qed.

Lemma NoDup_find_pure_vars clauses (a : assignment) :
  NoDup (find_pure_vars clauses a).*1.
Proof.
  unfold find_pure_vars. destruct (count_occurrences clauses a) as [pos_occ neg_occ].
  generalize (NoDup_elements (dom pos_occ ∪ dom neg_occ)).
  generalize (elements (dom pos_occ ∪ dom neg_occ)). intros l Hnd.
  induction Hnd as [|x l Hnin Hnd IH]; simpl; [constructor|].
  destruct (pure_var pos_occ neg_occ a x) as [pv|] eqn:Hpv; [|done].
  simpl. constructor; [|done].
  apply pure_var_Some in Hpv as (-> & _).
  intros (pv' & Heq & (y & Hy & Hpv')%list_elem_of_omap)%list_elem_of_fmap.
  apply pure_var_Some in Hpv' as (Hy' & _). congruence.
Qed.

Lemma pure_filter_simplify clauses lit :
  (∀ c, c ∈ clauses → lit ∉ c → - lit ∉ c) →
  filter (λ c, lit ∉ c) clauses = _simplify_after_assignment clauses lit.
Proof.
  intros Hpure. induction clauses as [|c rest IH]; [done|]. simpl.
  assert (∀ c, c ∈ rest → lit ∉ c → - lit ∉ c) as Hrest
    by (intros ???; apply Hpure; [by right|done]).
  destruct (decide (lit ∈ c)) as [Hin|Hnin].
  - rewrite filter_cons_False by (by intros ?). auto.
  - rewrite filter_cons_True by done.
    rewrite decide_False by (apply Hpure; [left|done]). f_equal. auto.
Qed.

Lemma pure_in_filter clauses (a : assignment) pv pv' :
  pure_in clauses a pv → pv.1 ≠ pv'.1 →
  pure_in (filter (λ c, lit_of pv'.1 pv'.2 ∉ c) clauses) (<[pv'.1 := pv'.2]> a) pv.
Proof.
  intros (Ha & Habs & Hsgn & Hp) Hne. repeat split; try done.
  - by rewrite lookup_insert_ne.
  - intros c [_ Hc]%list_elem_of_filter. by apply Hp.
Qed.

Lemma pure_round_step pure_vars clauses (a : assignment) clauses' a' :
  NoDup pure_vars.*1 → Forall (pure_in clauses a) pure_vars →
  pure_round pure_vars clauses a = (clauses', a') →
  step_ok clauses a clauses' a'.
Proof.
  revert clauses a.
  induction pure_vars as [|[var val] rest IH]; intros clauses a Hnd Hall;
    cbn [pure_round].
  - intros [= <- <-]. apply step_ok_refl.
  - rewrite fmap_cons in Hnd. apply NoDup_cons in Hnd as [Hnin Hnd].
    apply Forall_cons in Hall as [Hpv Hall].
    intros Hr. eapply step_ok_trans; [|eapply IH; [done| |exact Hr]].
    + destruct Hpv as (Ha & Habs & Hsgn & Hp). cbn [fst snd] in *.
      rewrite pure_filter_simplify by done.
      pose proof (simplify_step clauses a (lit_of var val)) as Hstep.
      rewrite Habs, Hsgn in Hstep. by apply Hstep.
    + apply Forall_forall. intros pv Hin.
      apply (pure_in_filter _ _ pv (var, val)).
      * eapply Forall_forall in Hall; done.
      * cbn [fst]. intros Heq. apply Hnin.
        apply list_elem_of_fmap. exists pv. by rewrite Heq.
Qed.

Lemma pure_round_sublist pure_vars clauses (a : assignment) :
  (pure_round pure_vars clauses a).1 `sublist_of` clauses.
Proof.
  revert clauses a. induction pure_vars as [|[var val] rest IH]; intros clauses a; simpl.
  - done.
  - etrans; [apply IH|]. apply sublist_filter.
Qed.

Lemma find_pure_vars_step clauses (a : assignment) clauses' a' :
  pure_round (find_pure_vars clauses a) clauses a = (clauses', a') →
  step_ok clauses a clauses' a'.
Proof.
  apply pure_round_step; [apply NoDup_find_pure_vars|].
  apply Forall_forall. intros pv Hin. by apply elem_of_find_pure_vars.
Qed.

(** A round with at least one pure variable drops at least one clause. *)
Lemma pure_round_length_lt pv rest clauses (a : assignment) :
  find_pure_vars clauses a = pv :: rest →
  (length (pure_round (pv :: rest) clauses a).1 < length clauses)%nat.
Proof.
  intros Hf. assert (pv ∈ find_pure_vars clauses a) as Hin by (rewrite Hf; left).
  apply elem_of_find_pure_vars in Hin as (_ & c & Hc & Hl).
  destruct pv as [var val]. simpl in *.
  eapply Nat.le_lt_trans; [apply sublist_length, pure_round_sublist|].
  apply (length_filter_lt _ _ c); [done|]. by intros ?.
Qed.

(** The order in which Python iterates over the set of keys does not
    matter: any two orders of the same pure variables give the same
    clause list and the same assignment. *)
Lemma pure_round_perm pure_vars pure_vars' clauses (a : assignment) :
  pure_vars ≡ₚ pure_vars' → NoDup pure_vars.*1 →
  pure_round pure_vars clauses a = pure_round pure_vars' clauses a.
Proof.
  intros Hperm. revert clauses a.
  induction Hperm
    as [|[var val] l l' Hperm IH|[var1 val1] [var2 val2] l|l1 l2 l3 H12 IH12 H23 IH23];
    intros clauses a Hnd.
  - done.
  - cbn [pure_round]. rewrite fmap_cons in Hnd. apply NoDup_cons in Hnd as [_ Hnd].
    by apply IH.
  - cbn [pure_round]. rewrite !fmap_cons in Hnd. cbn [fst] in Hnd.
    apply NoDup_cons in Hnd as [Hne _]. rewrite not_elem_of_cons in Hne.
    destruct Hne as [Hne _].
    rewrite insert_insert_ne by done. f_equal.
    rewrite !list_filter_filter. apply list_filter_iff. naive_solver.
  - rewrite IH12 by done. apply IH23. by rewrite <- H12.
Qed.

Lemma _pure_literal_elim_S fuel clauses (a : assignment) :
  _pure_literal_elim (S fuel) clauses a =
  match find_pure_vars clauses a with
  | [] => Some (clauses, a)
  | pure_vars =>
    let '(clauses', a') := pure_round pure_vars clauses a in
    _pure_literal_elim fuel clauses' a'
  end.
Proof. done. Qed.

Lemma pure_literal_elim_step fuel clauses (a : assignment) clauses' a' :
  _pure_literal_elim fuel clauses a = Some (clauses', a') →
  step_ok clauses a clauses' a'.
Proof.
  revert clauses a. induction fuel as [|fuel IH]; intros clauses a; [done|].
  rewrite _pure_literal_elim_S.
  destruct (find_pure_vars clauses a) as [|pv rest] eqn:Hf.
  { intros [= <- <-]. apply step_ok_refl. }
  destruct (pure_round (pv :: rest) clauses a) as [cs1 a1] eqn:Hr.
  intros He. apply IH in He. eapply step_ok_trans; [|done].
  apply find_pure_vars_step. by rewrite Hf.
Qed.

Lemma pure_literal_elim_sublist fuel clauses (a : assignment) clauses' a' :
  _pure_literal_elim fuel clauses a = Some (clauses', a') →
  clauses' `sublist_of` clauses.
Proof.
  revert clauses a. induction fuel as [|fuel IH]; intros clauses a; [done|].
  rewrite _pure_literal_elim_S.
  destruct (find_pure_vars clauses a) as [|pv rest] eqn:Hf.
  { by intros [= <- <-]. }
  destruct (pure_round (pv :: rest) clauses a) as [cs1 a1] eqn:Hr.
  intros He. apply IH in He. etrans; [done|].
  pose proof (pure_round_sublist (pv :: rest) clauses a) as Hs. by rewrite Hr in Hs.
Qed.

Lemma pure_literal_elim_terminates fuel clauses (a : assignment) :
  (length clauses < fuel)%nat → is_Some (_pure_literal_elim fuel clauses a).
Proof.
  revert clauses a. induction fuel as [|fuel IH]; intros clauses a Hlen; [lia|].
  rewrite _pure_literal_elim_S.
  destruct (find_pure_vars clauses a) as [|pv rest] eqn:Hf; [done|].
  pose proof (pure_round_length_lt _ _ _ _ Hf) as Hlt.
  destruct (pure_round (pv :: rest) clauses a) as [cs1 a1]. simpl in Hlt.
  apply IH. lia.
Qed.

Lemma pure_literal_elim_fuel_mono fuel fuel' clauses (a : assignment) r :
  (fuel ≤ fuel')%nat →
  _pure_literal_elim fuel clauses a = Some r → _pure_literal_elim fuel' clauses a = Some r.
Proof.
  revert fuel' clauses a. induction fuel as [|fuel IH]; intros fuel' clauses a Hle; [done|].
  destruct fuel' as [|fuel']; [lia|]. rewrite !_pure_literal_elim_S.
  destruct (find_pure_vars clauses a) as [|pv rest]; [done|].
  destruct (pure_round (pv :: rest) clauses a) as [cs1 a1].
  apply IH. lia.
Qed.

(** ** The branching heuristic *)

Lemma branch_scan_best_of pos_count neg_count (a : assignment) vars :
  (∀ u, 0 ≤ get0 pos_count u + get0 neg_count u) →
  best_of (λ u, get0 pos_count u + get0 neg_count u)
    (λ u, get0 neg_count u <=? get0 pos_count u) a vars
    (foldl (branch_step pos_count neg_count a) (None, -1, true) vars).
Proof.
  intros Hnonneg. induction vars as [|x vars IH] using rev_ind.
  - split; [done|]. by intros u ?%elem_of_nil.
  - rewrite foldl_snoc.
    destruct (foldl (branch_step pos_count neg_count a) (None, -1, true) vars)
      as [[[v|] best_score] best_pref]; unfold best_of in IH; cbn [fst] in IH.
    + destruct IH as ([= -> ->] & Hv & before & after & -> & Hbefore & Hafter).
      unfold branch_step. destruct (a !! x) eqn:Hx.
      * split; [done|]. split; [done|]. exists before, (after ++ [x]).
        split; [by rewrite <- app_assoc|]. split; [done|].
        intros u [?| ->%list_elem_of_singleton]%elem_of_app; [auto|congruence].
      * destruct (Z.ltb_spec (get0 pos_count v + get0 neg_count v)
                    (get0 pos_count x + get0 neg_count x)) as [Hlt|Hge].
        -- split; [done|]. split; [done|]. exists (before ++ v :: after), [].
           split; [done|]. split; [|by intros u ?%elem_of_nil].
           intros u [Hin|[->|Hin]%elem_of_cons]%elem_of_app Hu; [|done|].
           ++ specialize (Hbefore u Hin Hu). simpl in Hbefore. lia.
           ++ specialize (Hafter u Hin Hu). simpl in Hafter. lia.
        -- split; [done|]. split; [done|]. exists before, (after ++ [x]).
           split; [by rewrite <- app_assoc|]. split; [done|].
           intros u [?| ->%list_elem_of_singleton]%elem_of_app; [auto|done].
    + destruct IH as ([= -> ->] & Hall).
      unfold branch_step. destruct (a !! x) eqn:Hx.
      * split; [done|].
        intros u [?| ->%list_elem_of_singleton]%elem_of_app; [auto|congruence].
      * destruct (Z.ltb_spec (-1) (get0 pos_count x + get0 neg_count x)) as [Hlt|Hge].
        -- split; [done|]. split; [done|]. exists vars, [].
           split; [done|]. split; [|by intros u ?%elem_of_nil].
           intros u Hu Hn. by destruct (Hall u).
        -- specialize (Hnonneg x). lia.
Qed.

Lemma seqZ_split m n before v after :
  seqZ m n = before ++ v :: after →
  m ≤ v < m + n ∧ (∀ u, m ≤ u < v → u ∈ before) ∧ (∀ u, v < u < m + n → u ∈ after).
Proof.
  intros Hs.
  assert (seqZ m n !! length before = Some v) as Hv
    by (rewrite Hs; apply list_lookup_middle; done).
  apply lookup_seqZ in Hv as [Hv Hlt].
  split; [lia|]. split.
  - intros u Hu.
    assert (seqZ m n !! Z.to_nat (u - m) = Some u) as Hl
      by (apply lookup_seqZ; lia).
    rewrite Hs, lookup_app_l in Hl by lia.
    by eapply list_elem_of_lookup_2.
  - intros u Hu.
    assert (seqZ m n !! Z.to_nat (u - m) = Some u) as Hl
      by (apply lookup_seqZ; lia).
    rewrite Hs, lookup_app_r in Hl by lia.
    destruct (Z.to_nat (u - m) - length before)%nat as [|k] eqn:Hk; [lia|].
    simpl in Hl. by eapply list_elem_of_lookup_2.
Qed.

Lemma elem_of_range start stop v : v ∈ range start stop ↔ start ≤ v < stop.
Proof. unfold range. rewrite elem_of_seqZ. lia. Qed.

(** What [_choose_branch_var] returns, for every input. *)
Lemma choose_branch_var_spec clauses (a : assignment) num_vars :
  match _choose_branch_var clauses a num_vars with
  | (None, pref) =>
    pref = true ∧ ∀ v, 1 ≤ v ≤ num_vars → is_Some (a !! v)
  | (Some v, pref) =>
    1 ≤ v ≤ num_vars ∧ a !! v = None ∧
    pref = (cnt (- v) clauses <=? cnt v clauses) ∧
    (∀ u, 1 ≤ u ≤ num_vars → a !! u = None →
       cnt u clauses + cnt (- u) clauses ≤ cnt v clauses + cnt (- v) clauses) ∧
    (∀ u, 1 ≤ u < v → a !! u = None →
       cnt u clauses + cnt (- u) clauses < cnt v clauses + cnt (- v) clauses)
  end.
Proof.
  unfold _choose_branch_var.
  pose proof (count_occurrences_spec clauses a) as Hocc.
  destruct (count_occurrences clauses a) as [pos_count neg_count]. simpl in Hocc.
  assert (∀ u, 0 ≤ get0 pos_count u + get0 neg_count u) as Hnonneg.
  { intros u. destruct (Hocc u) as [-> ->].
    pose proof (pos_occurrences_nonneg clauses a u).
    pose proof (neg_occurrences_nonneg clauses a u). lia. }
  assert (∀ u, 1 ≤ u → a !! u = None →
    get0 pos_count u = cnt u clauses ∧ get0 neg_count u = cnt (- u) clauses) as Hun.
  { intros u Hu Ha. destruct (Hocc u) as [-> ->].
    unfold pos_occurrences, neg_occurrences.
    rewrite !decide_True by (split; (lia || done)). done. }
  pose proof (branch_scan_best_of pos_count neg_count a (range 1 (num_vars + 1)) Hnonneg)
    as Hbest.
  destruct (foldl (branch_step pos_count neg_count a) (None, -1, true)
              (range 1 (num_vars + 1))) as [[[v|] best_score] best_pref];
    unfold best_of in Hbest; cbn [fst] in Hbest.
  - destruct Hbest as ([= -> ->] & Hv & before & after & Hsplit & Hbefore & Hafter).
    unfold range in Hsplit. apply seqZ_split in Hsplit as (Hrange & Hb & Haf).
    destruct (Hun v) as [Hpv Hnv]; [lia|done|].
    split; [lia|]. split; [done|]. split; [by rewrite Hpv, Hnv|]. split.
    + intros u Hu Hau. destruct (Hun u) as [Hpu Hnu]; [lia|done|].
      rewrite <- Hpv, <- Hnv, <- Hpu, <- Hnu.
      destruct (decide (u < v)) as [?|?]; [specialize (Hbefore u (Hb u ltac:(lia)) Hau); lia|].
      destruct (decide (u = v)) as [->|?]; [lia|].
      apply Hafter; [|done]. apply Haf. lia.
    + intros u Hu Hau. destruct (Hun u) as [Hpu Hnu]; [lia|done|].
      rewrite <- Hpv, <- Hnv, <- Hpu, <- Hnu.
      apply Hbefore; [|done]. apply Hb. lia.
  - destruct Hbest as ([= -> ->] & Hall). split; [done|].
    intros v Hv. destruct (a !! v) eqn:Ha; [done|].
    destruct (Hall v); [|done]. apply elem_of_range. lia.
Qed.

(** ** The search *)

#[local] Arguments _unit_propagate : simpl never.
#[local] Arguments _pure_literal_elim : simpl never.
#[local] Arguments _choose_branch_var : simpl never.
#[local] Arguments _contains_empty_clause : simpl never.
#[local] Arguments _dpll : simpl never.
#[local] Arguments dpll_branch : simpl never.

Lemma _dpll_S fuel clauses (a : assignment) num_vars :
  _dpll (S fuel) clauses a num_vars =
  '(clauses1, a1, conflict) ← _unit_propagate (S fuel) clauses a;
  if conflict : bool then Some (false, ∅)
  else
    '(clauses2, a2) ← _pure_literal_elim (S fuel) clauses1 a1;
    match clauses2 with
    | [] => Some (true, a2)
    | _ =>
      if _contains_empty_clause clauses2 then Some (false, ∅)
      else
        match _choose_branch_var clauses2 a2 num_vars with
        | (None, _) => Some (false, ∅)
        | (Some var, pref_val) =>
          dpll_branch (λ cs b, _dpll fuel cs b num_vars)
            clauses2 a2 var [pref_val; negb pref_val]
        end
    end.
Proof. done. Qed.

Lemma lit_of_abs var val : 0 < var → Z.abs (lit_of var val) = var.
Proof. destruct val; simpl; lia. Qed.

Lemma lit_of_sign var val : 0 < var → (0 <? lit_of var val) = val.
Proof.
  destruct val; simpl; intros ?; [apply Z.ltb_lt|apply Z.ltb_ge]; lia.
Qed.

Lemma branch_step_ok clauses (a : assignment) var try_val :
  0 < var → a !! var = None →
  step_ok clauses a (_simplify_after_assignment clauses (lit_of var try_val))
    (<[var := try_val]> a).
Proof.
  intros Hpos Ha. pose proof (simplify_step clauses a (lit_of var try_val)) as Hs.
  rewrite lit_of_abs, lit_of_sign in Hs by done. by apply Hs.
Qed.

Lemma reduct_all_sat clauses (a af : assignment) clauses' :
  reduct clauses a clauses' → a ⊆ af → all_sat af clauses' → all_sat af clauses.
Proof.
  intros Hred Hsub Hsat c Hc. destruct (Hred c Hc) as [Hs|(c' & Hc' & Hsub')].
  - by eapply clause_sat_weaken.
  - eapply clause_sat_superset; [done|]. by apply Hsat.
Qed.

Lemma step_ok_all_sat clauses (a : assignment) clauses' a' af :
  step_ok clauses a clauses' a' → nonzero clauses →
  a' ⊆ af → all_sat af clauses' → a ⊆ af ∧ all_sat af clauses.
Proof.
  intros [He _ _ Hr _] Hnz Hsub Hsat. split; [by etrans|].
  eapply reduct_all_sat; eauto.
Qed.

Lemma dpll_branch_cons rec clauses (a : assignment) var try_val rest :
  dpll_branch rec clauses a var (try_val :: rest) =
  if existsb is_empty_clause (_simplify_after_assignment clauses (lit_of var try_val))
  then dpll_branch rec clauses a var rest
  else
    '(sat, final_assignment) ←
      rec (_simplify_after_assignment clauses (lit_of var try_val)) (<[var := try_val]> a);
    if sat : bool then Some (true, final_assignment)
    else dpll_branch rec clauses a var rest.
Proof. done. Qed.

Lemma dpll_branch_sound rec clauses (a : assignment) var try_vals af :
  (∀ cs b bf, nonzero cs → rec cs b = Some (true, bf) → b ⊆ bf ∧ all_sat bf cs) →
  nonzero clauses → 0 < var → a !! var = None →
  dpll_branch rec clauses a var try_vals = Some (true, af) →
  a ⊆ af ∧ all_sat af clauses.
Proof.
  intros Hrec Hnz Hpos Ha.
  induction try_vals as [|try_val rest IH]; [done|]. rewrite dpll_branch_cons.
  destruct (existsb _ _); [done|].
  destruct (rec _ _) as [[[|] bf]|] eqn:Hr; simpl; [|done|done].
  intros [= <-].
  pose proof (branch_step_ok clauses a var try_val Hpos Ha) as Hstep.
  apply Hrec in Hr as [Hsub Hsat].
  - eapply step_ok_all_sat; eauto.
  - eapply shrinks_nonzero; [apply Hstep|done].
Qed.

(** A successful search returns an extension of its assignment that
    satisfies every clause it was given. *)
Lemma dpll_sound fuel clauses (a : assignment) num_vars af :
  nonzero clauses → _dpll fuel clauses a num_vars = Some (true, af) →
  a ⊆ af ∧ all_sat af clauses.
Proof.
  revert clauses a af. induction fuel as [|fuel IH]; intros clauses a af Hnz; [done|].
  rewrite _dpll_S.
  destruct (_unit_propagate (S fuel) clauses a) as [[[cs1 a1] [|]]|] eqn:Hu;
    simpl; [done| |done].
  apply unit_propagate_step in Hu.
  destruct (_pure_literal_elim (S fuel) cs1 a1) as [[cs2 a2]|] eqn:Hp; simpl; [|done].
  apply pure_literal_elim_step in Hp.
  pose proof (step_ok_trans _ _ _ _ _ _ Hu Hp) as Hstep.
  destruct cs2 as [|c2 cs2].
  { intros [= <-]. eapply step_ok_all_sat; eauto. by intros c ?%elem_of_nil. }
  destruct (_contains_empty_clause (c2 :: cs2)); [done|].
  pose proof (choose_branch_var_spec (c2 :: cs2) a2 num_vars) as Hch.
  destruct (_choose_branch_var (c2 :: cs2) a2 num_vars) as [[var|] pref]; [|done].
  destruct Hch as (Hrange & Ha2 & _).
  assert (nonzero (c2 :: cs2)) as Hnz2
    by (eapply shrinks_nonzero; [apply Hstep|done]).
  intros Hb.
  apply dpll_branch_sound in Hb as [Hsub Hsat];
    [|by intros cs b bf; apply IH|done|lia|done].
  eapply step_ok_all_sat; eauto.
Qed.

(** ** Termination of the search *)

Lemma filter_length_impl {A} (P Q : A → Prop)
  `{!∀ x, Decision (P x)} `{!∀ x, Decision (Q x)} (l : list A) :
  (∀ x, P x → Q x) → (length (filter P l) ≤ length (filter Q l))%nat.
Proof.
  intros Himpl. induction l as [|x l IH]; [done|].
  destruct (decide (P x)) as [HP|HP].
  - rewrite (filter_cons_True P) by done.
    rewrite (filter_cons_True Q) by auto. simpl. lia.
  - rewrite (filter_cons_False P) by done.
    destruct (decide (Q x)).
    + rewrite (filter_cons_True Q) by done. simpl. lia.
    + rewrite (filter_cons_False Q) by done. done.
Qed.

Lemma unassigned_mono (a a' : assignment) num_vars :
  a ⊆ a' → (unassigned a' num_vars ≤ unassigned a num_vars)%nat.
Proof.
  intros Hsub. apply filter_length_impl. intros v Hv.
  destruct (a !! v) as [b|] eqn:Ha; [|done].
  eapply lookup_weaken in Ha; [|done]. congruence.
Qed.

Lemma unassigned_insert_lt (a : assignment) num_vars var val :
  1 ≤ var ≤ num_vars → a !! var = None →
  (unassigned (<[var := val]> a) num_vars < unassigned a num_vars)%nat.
Proof.
  intros Hrange Ha. unfold unassigned.
  rewrite (list_filter_iff (λ v, <[var := val]> a !! v = None)
             (λ v, v ≠ var ∧ a !! v = None)).
  - rewrite <- list_filter_filter.
    apply (length_filter_lt _ _ var); [|by intros ?].
    apply list_elem_of_filter. split; [done|]. apply elem_of_range. lia.
  - intros v. rewrite lookup_insert_None. naive_solver.
Qed.

Lemma dpll_branch_terminates rec clauses (a : assignment) var try_vals :
  (∀ try_val, is_Some (rec (_simplify_after_assignment clauses (lit_of var try_val))
                           (<[var := try_val]> a))) →
  is_Some (dpll_branch rec clauses a var try_vals).
Proof.
  intros Hrec. induction try_vals as [|try_val rest IH]; [done|].
  rewrite dpll_branch_cons. destruct (existsb _ _); [done|].
  destruct (Hrec try_val) as [[[|] bf] ->]; simpl; done.
Qed.

(** From a clean state the search returns as soon as the fuel exceeds
    the number of clauses plus the number of unassigned variables. *)
Lemma dpll_terminates fuel clauses (a : assignment) num_vars :
  clean clauses a →
  (length clauses + unassigned a num_vars < fuel)%nat →
  is_Some (_dpll fuel clauses a num_vars).
Proof.
  revert clauses a. induction fuel as [|fuel IH]; intros clauses a Hcl Hlen; [lia|].
  rewrite _dpll_S.
  destruct (unit_propagate_terminates (S fuel) clauses a Hcl) as [[[cs1 a1] conflict] Hu];
    [lia|]. rewrite Hu. simpl. destruct conflict; [done|].
  apply unit_propagate_step in Hu.
  destruct (pure_literal_elim_terminates (S fuel) cs1 a1) as [[cs2 a2] Hp].
  { pose proof (step_length _ _ _ _ Hu). lia. }
  rewrite Hp. simpl. apply pure_literal_elim_step in Hp.
  pose proof (step_ok_trans _ _ _ _ _ _ Hu Hp) as Hstep.
  destruct cs2 as [|c2 cs2]; [done|].
  destruct (_contains_empty_clause (c2 :: cs2)); [done|].
  pose proof (choose_branch_var_spec (c2 :: cs2) a2 num_vars) as Hch.
  destruct (_choose_branch_var (c2 :: cs2) a2 num_vars) as [[var|] pref]; [|done].
  destruct Hch as (Hrange & Ha2 & _).
  apply dpll_branch_terminates. intros try_val.
  assert (0 < var) as Hpos by lia.
  pose proof (branch_step_ok (c2 :: cs2) a2 var try_val Hpos Ha2) as Hbr.
  apply IH.
  - apply Hbr, Hstep, Hcl.
  - pose proof (step_length _ _ _ _ Hstep). pose proof (step_length _ _ _ _ Hbr).
    pose proof (unassigned_mono a a2 num_vars (step_extends _ _ _ _ Hstep)).
    pose proof (unassigned_insert_lt a2 num_vars var try_val Hrange Ha2).
    lia.
Qed.

Lemma dpll_branch_rec_mono rec rec' clauses (a : assignment) var try_vals r :
  (∀ cs b r, rec cs b = Some r → rec' cs b = Some r) →
  dpll_branch rec clauses a var try_vals = Some r →
  dpll_branch rec' clauses a var try_vals = Some r.
Proof.
  intros Hrec. induction try_vals as [|try_val rest IH]; [done|].
  rewrite !dpll_branch_cons. destruct (existsb _ _); [done|].
  destruct (rec _ _) as [[sat bf]|] eqn:Hr; [|done].
  rewrite (Hrec _ _ _ Hr). simpl. by destruct sat.
Qed.

(** More fuel never changes a result. *)
Lemma dpll_fuel_mono fuel fuel' clauses (a : assignment) num_vars r :
  (fuel ≤ fuel')%nat →
  _dpll fuel clauses a num_vars = Some r → _dpll fuel' clauses a num_vars = Some r.
Proof.
  revert fuel' clauses a r.
  induction fuel as [|fuel IH]; intros fuel' clauses a r Hle; [done|].
  destruct fuel' as [|fuel']; [lia|]. rewrite !_dpll_S.
  assert (S fuel ≤ S fuel')%nat as Hle' by lia.
  destruct (_unit_propagate (S fuel) clauses a) as [[[cs1 a1] conflict]|] eqn:Hu; [|done].
  rewrite (unit_propagate_fuel_mono _ _ _ _ _ Hle' Hu). simpl.
  destruct conflict; [done|].
  destruct (_pure_literal_elim (S fuel) cs1 a1) as [[cs2 a2]|] eqn:Hp; [|done].
  rewrite (pure_literal_elim_fuel_mono _ _ _ _ _ Hle' Hp). simpl.
  destruct cs2 as [|c2 cs2]; [done|].
  destruct (_contains_empty_clause (c2 :: cs2)); [done|].
  destruct (_choose_branch_var (c2 :: cs2) a2 num_vars) as [[var|] pref]; [|done].
  apply dpll_branch_rec_mono. intros cs b r'. apply IH. lia.
Qed.

(** ** Model construction *)

Lemma build_model_length (a : assignment) num_vars :
  length (_build_model a num_vars) = Z.to_nat num_vars.
Proof.
  unfold _build_model, range. rewrite length_fmap, length_seqZ. f_equal. lia.
Qed.

Lemma build_model_lookup (a : assignment) num_vars var :
  1 ≤ var ≤ num_vars →
  _build_model a num_vars !! Z.to_nat (var - 1)
  = Some (lit_of var (default false (a !! var))).
Proof.
  intros Hvar. unfold _build_model, range. rewrite list_lookup_fmap.
  rewrite lookup_seqZ_lt by lia. simpl.
  by replace (1 + Z.of_nat (Z.to_nat (var - 1))) with var by lia.
Qed.

Lemma build_model_abs (a : assignment) num_vars :
  Z.abs <$> _build_model a num_vars = range 1 (num_vars + 1).
Proof.
  unfold _build_model. rewrite <- list_fmap_compose.
  rewrite <- (list_fmap_id (range 1 (num_vars + 1))) at 2.
  apply list_fmap_ext. intros i v Hv. simpl.
  apply list_elem_of_lookup_2, elem_of_range in Hv. apply lit_of_abs. lia.
Qed.

Lemma elem_of_build_model (a : assignment) num_vars lit :
  lit ∈ _build_model a num_vars ↔
  1 ≤ Z.abs lit ≤ num_vars ∧ default false (a !! Z.abs lit) = (0 <? lit).
Proof.
  unfold _build_model. rewrite list_elem_of_fmap. setoid_rewrite elem_of_range.
  split.
  - intros (v & -> & Hv). rewrite lit_of_abs, lit_of_sign by lia. split; [lia|done].
  - intros [Hr Hd]. exists (Z.abs lit). split; [|lia]. rewrite Hd.
    destruct (Z.ltb_spec 0 lit); simpl; lia.
Qed.

Lemma lit_true_build_model (a : assignment) num_vars lit :
  1 ≤ Z.abs lit ≤ num_vars → lit_true a lit →
  lit ∈ _build_model a num_vars ∧ model_true (_build_model a num_vars) lit.
Proof.
  intros Hr [Hnz Ha]. split.
  - apply elem_of_build_model. by rewrite Ha.
  - split; [done|]. unfold model_value. rewrite build_model_lookup by done.
    rewrite Ha. simpl. f_equal. apply lit_of_sign. lia.
Qed.

(** ** The solver *)

Lemma solve_cnf_SAT fuel clauses num_vars model :
  solve_cnf fuel clauses num_vars = Some (SAT, Some model) ↔
  ∃ af, _dpll fuel (_clauses_to_sets clauses) ∅ num_vars = Some (true, af) ∧
        model = _build_model af num_vars.
Proof.
  unfold solve_cnf.
  destruct (_dpll fuel (_clauses_to_sets clauses) ∅ num_vars) as [[[|] af]|]; simpl.
  - split; [intros [= <-]; eauto|]. by intros (? & [= <-] & ->).
  - split; [done|]. by intros (? & [=] & _).
  - split; [done|]. by intros (? & [=] & _).
Qed.

Lemma solve_cnf_UNSAT fuel clauses num_vars r :
  solve_cnf fuel clauses num_vars = Some (UNSAT, r) ↔
  r = None ∧ ∃ af, _dpll fuel (_clauses_to_sets clauses) ∅ num_vars = Some (false, af).
Proof.
  unfold solve_cnf.
  destruct (_dpll fuel (_clauses_to_sets clauses) ∅ num_vars) as [[[|] af]|]; simpl.
  - split; [done|]. by intros (_ & ? & [=]).
  - split; [intros [= <-]; eauto|]. by intros (-> & _).
  - split; [done|]. by intros (_ & ? & [=]).
Qed.

Lemma solve_cnf_fuel_mono fuel fuel' clauses num_vars r :
  (fuel ≤ fuel')%nat →
  solve_cnf fuel clauses num_vars = Some r → solve_cnf fuel' clauses num_vars = Some r.
Proof.
  intros Hle. unfold solve_cnf.
  destruct (_dpll fuel (_clauses_to_sets clauses) ∅ num_vars) as [r'|] eqn:Hd; [|done].
  by rewrite (dpll_fuel_mono _ _ _ _ _ _ Hle Hd).
Qed.

(** The result does not depend on the fuel that was enough to reach it. *)
Lemma solve_cnf_deterministic fuel fuel' clauses num_vars r r' :
  solve_cnf fuel clauses num_vars = Some r →
  solve_cnf fuel' clauses num_vars = Some r' → r = r'.
Proof.
  intros Hr Hr'.
  apply (solve_cnf_fuel_mono _ (fuel `max` fuel')) in Hr; [|lia].
  apply (solve_cnf_fuel_mono _ (fuel `max` fuel')) in Hr'; [|lia].
  congruence.
Qed.

Lemma elem_of_clauses_to_sets clauses (s : clause) :
  s ∈ _clauses_to_sets clauses ↔ ∃ c, c ∈ clauses ∧ s = list_to_set c.
Proof.
  unfold _clauses_to_sets. rewrite list_elem_of_fmap. naive_solver.
Qed.

Lemma in_range_nonzero clauses num_vars :
  in_range clauses num_vars → nonzero (_clauses_to_sets clauses).
Proof.
  intros Hr s (c & Hc & ->)%elem_of_clauses_to_sets H0%elem_of_list_to_set.
  specialize (Hr c 0 Hc H0). lia.
Qed.

Lemma clean_empty clauses : clean clauses ∅.
Proof. intros c lit _ _. apply lookup_empty. Qed.

Lemma filter_all {A} (P : A → Prop) `{!∀ x, Decision (P x)} (l : list A) :
  (∀ x, P x) → filter P l = l.
Proof.
  intros HP. induction l as [|x l IH]; [done|].
  rewrite filter_cons_True by done. by rewrite IH.
Qed.

Lemma unassigned_empty num_vars : unassigned ∅ num_vars = Z.to_nat num_vars.
Proof.
  unfold unassigned. rewrite filter_all by (intros v; apply lookup_empty).
  unfold range. rewrite length_seqZ. f_equal. lia.
Qed.

(** The working [solve_cnf] returns on every input, as soon as the fuel
    exceeds the number of clauses plus the number of variables. *)
Lemma solve_cnf_terminates fuel clauses num_vars :
  (length clauses + Z.to_nat num_vars < fuel)%nat →
  solve_cnf fuel clauses num_vars = Some (UNSAT, None) ∨
  ∃ model, solve_cnf fuel clauses num_vars = Some (SAT, Some model).
Proof.
  intros Hfuel. unfold solve_cnf.
  destruct (dpll_terminates fuel (_clauses_to_sets clauses) ∅ num_vars) as [[[|] af] ->].
  - apply clean_empty.
  - unfold _clauses_to_sets. rewrite length_fmap, unassigned_empty. done.
  - right. eauto.
  - by left.
Qed.

Lemma in_rangeb_spec clauses num_vars :
  in_rangeb clauses num_vars = true → in_range clauses num_vars.
Proof.
  unfold in_rangeb, in_range. rewrite forallb_forall. intros Hall c lit Hc Hl.
  apply list_elem_of_In, Hall in Hc. rewrite forallb_forall in Hc.
  apply list_elem_of_In, Hc in Hl. lia.
Qed.

(** ** Main results *)

(** C1 (soundness).  For every input whose literals name variables of
    [1..num_vars]: if the working [solve_cnf] returns [("SAT", model)],
    then every clause of the input contains a literal that is an entry
    of [model], that is, a literal that evaluates to true under it. *)
Theorem solve_cnf_sound fuel clauses num_vars model :
  in_range clauses num_vars →
  solve_cnf fuel clauses num_vars = Some (SAT, Some model) →
  ∀ c, c ∈ clauses → ∃ lit, lit ∈ c ∧ lit ∈ model ∧ model_true model lit.
Proof.
  intros Hrange (af & Hd & ->)%solve_cnf_SAT c Hc.
  apply dpll_sound in Hd as [_ Hsat]; [|by eapply in_range_nonzero].
  destruct (Hsat (list_to_set c)) as (lit & Hin & Ht).
  { apply elem_of_clauses_to_sets. eauto. }
  apply elem_of_list_to_set in Hin. exists lit. split; [done|].
  apply lit_true_build_model; [|done]. by eapply Hrange.
Qed.

Lemma solve_cnf_sound_witness :
  in_range [[1; 2]; [-1; 2]; [1; -2]] 2 ∧
  solve_cnf 3 [[1; 2]; [-1; 2]; [1; -2]] 2 = Some (SAT, Some [1; 2]) ∧
  ∀ c, c ∈ [[1; 2]; [-1; 2]; [1; -2]] →
    ∃ lit, lit ∈ c ∧ lit ∈ [1; 2] ∧ model_true [1; 2] lit.
Proof.
  assert (in_range [[1; 2]; [-1; 2]; [1; -2]] 2) as Hr
    by (apply in_rangeb_spec; vm_compute; reflexivity).
  assert (solve_cnf 3 [[1; 2]; [-1; 2]; [1; -2]] 2 = Some (SAT, Some [1; 2])) as Hs
    by (vm_compute; reflexivity).
  split; [exact Hr|]. split; [exact Hs|].
  exact (solve_cnf_sound 3 [[1; 2]; [-1; 2]; [1; -2]] 2 [1; 2] Hr Hs).
Defined.

(** C4 (totality and order of the model).  Whenever the working
    [solve_cnf] returns [("SAT", model)], the search ended with a final
    assignment [af] and [model] has [num_vars] entries (none when
    [num_vars] is negative), the entry for
    variable [i] (at position [i - 1], for [i] in [1..num_vars]) being
    [+i] if [af] gives [i] the value true and [-i] otherwise (also when
    [af] leaves [i] out); the variables of the entries are exactly
    [1, ..., num_vars] in this order, so there is one signed entry per
    variable, without duplicates or gaps. *)
Theorem solve_cnf_model_total fuel clauses num_vars model :
  solve_cnf fuel clauses num_vars = Some (SAT, Some model) →
  ∃ af, _dpll fuel (_clauses_to_sets clauses) ∅ num_vars = Some (true, af) ∧
    length model = Z.to_nat num_vars ∧
    (0 ≤ num_vars → Z.of_nat (length model) = num_vars) ∧
    (∀ i, 1 ≤ i ≤ num_vars →
       model !! Z.to_nat (i - 1) = Some (if default false (af !! i) then i else - i)) ∧
    Z.abs <$> model = range 1 (num_vars + 1) ∧
    NoDup model.
Proof.
  intros (af & Hd & ->)%solve_cnf_SAT. exists af. split; [done|].
  split; [apply build_model_length|].
  split; [rewrite build_model_length; lia|]. split; [apply build_model_lookup|].
  split; [apply build_model_abs|].
  apply (NoDup_fmap_1 Z.abs). rewrite build_model_abs. apply NoDup_seqZ.
Qed.

Lemma solve_cnf_model_total_witness :
  solve_cnf 3 [[1; 2]; [-1; 2]; [1; -2]] 2 = Some (SAT, Some [1; 2]) ∧
  ∃ af, _dpll 3 (_clauses_to_sets [[1; 2]; [-1; 2]; [1; -2]]) ∅ 2 = Some (true, af) ∧
    length [1; 2] = Z.to_nat 2 ∧
    (0 ≤ 2 → Z.of_nat (length [1; 2]) = 2) ∧
    (∀ i, 1 ≤ i ≤ 2 →
       [1; 2] !! Z.to_nat (i - 1) = Some (if default false (af !! i) then i else - i)) ∧
    Z.abs <$> [1; 2] = range 1 (2 + 1) ∧
    NoDup [1; 2].
Proof.
  assert (solve_cnf 3 [[1; 2]; [-1; 2]; [1; -2]] 2 = Some (SAT, Some [1; 2])) as Hs
    by (vm_compute; reflexivity).
  split; [exact Hs|].
  exact (solve_cnf_model_total 3 [[1; 2]; [-1; 2]; [1; -2]] 2 [1; 2] Hs).
Defined.

(** C5 (scenario 3).  On [clauses = [[1, 2], [-1, 2], [1, -2]]] and
    [num_vars = 2] the working [solve_cnf] returns [("SAT", [1, 2])]:
    with fuel 3 or more the model computes exactly this result. *)
Theorem solve_cnf_scenario3 fuel :
  (3 ≤ fuel)%nat →
  solve_cnf fuel [[1; 2]; [-1; 2]; [1; -2]] 2 = Some (SAT, Some [1; 2]).
Proof.
  intros Hfuel. apply (solve_cnf_fuel_mono 3); [done|]. vm_compute. reflexivity.
Qed.

Lemma solve_cnf_scenario3_witness :
  (3 ≤ 5)%nat ∧ solve_cnf 5 [[1; 2]; [-1; 2]; [1; -2]] 2 = Some (SAT, Some [1; 2]).
Proof.
  assert (3 ≤ 5)%nat as H by lia.
  split; [exact H|]. exact (solve_cnf_scenario3 5 H).
Defined.

(** C7 (pure-literal elimination cannot create a contradiction).  For
    every clause set and assignment the pass returns (once the fuel
    exceeds the number of clauses), its result holds a clause list and
    an assignment and no conflict flag, and the returned clause list is
    a sublist of the input: every returned clause is one of the input
    clauses, unchanged.  So when no input clause is empty, no returned
    clause is empty. *)
Theorem pure_literal_elim_no_contradiction clauses (a : assignment) :
  (∀ fuel, (length clauses < fuel)%nat →
     ∃ clauses' a', _pure_literal_elim fuel clauses a = Some (clauses', a')) ∧
  (∀ fuel clauses' a', _pure_literal_elim fuel clauses a = Some (clauses', a') →
     clauses' `sublist_of` clauses ∧
     (∀ c, c ∈ clauses' → c ∈ clauses) ∧
     (_contains_empty_clause clauses = false →
      _contains_empty_clause clauses' = false)).
Proof.
  split.
  - intros fuel Hfuel.
    destruct (pure_literal_elim_terminates fuel clauses a Hfuel) as [[cs' a'] ->].
    eauto.
  - intros fuel clauses' a' Hp. apply pure_literal_elim_sublist in Hp.
    split; [done|]. split.
    + intros c Hc. by eapply elem_of_sublist.
    + unfold _contains_empty_clause. intros Hne.
      apply not_true_iff_false. intros (c & Hc & He)%existsb_exists.
      apply not_true_iff_false in Hne. apply Hne, existsb_exists.
      exists c. split; [|done].
      apply list_elem_of_In. eapply elem_of_sublist; [|done]. by apply list_elem_of_In.
Qed.

Lemma pure_literal_elim_no_contradiction_witness :
  (length [({[1; 2]} : clause); {[-2; 3]}]%Z < 3)%nat ∧
  (∃ clauses' a', _pure_literal_elim 3 [{[1; 2]}; {[-2; 3]}] ∅ = Some (clauses', a')) ∧
  _pure_literal_elim 3 [{[1; 2]}; {[-2; 3]}] ∅ = Some ([], {[1 := true; 3 := true]}) ∧
  [] `sublist_of` [({[1; 2]} : clause); {[-2; 3]}] ∧
  (_contains_empty_clause [{[1; 2]}; {[-2; 3]}] = false →
   _contains_empty_clause [] = false).
Proof.
  assert (length [({[1; 2]} : clause); {[-2; 3]}]%Z < 3)%nat as Hlen
    by (vm_compute; lia).
  assert (_pure_literal_elim 3 [{[1; 2]}; {[-2; 3]}] ∅
          = Some ([], {[1 := true; 3 := true]})) as Hp by (vm_compute; reflexivity).
  destruct (pure_literal_elim_no_contradiction [{[1; 2]}; {[-2; 3]}] ∅) as [Hret H].
  destruct (H 3%nat _ _ Hp) as (Hs & _ & He).
  split; [exact Hlen|]. split; [exact (Hret 3%nat Hlen)|].
  split; [exact Hp|]. split; [exact Hs|exact He].
Defined.

(** C8 (idempotence of unit propagation).  If [_unit_propagate] returns
    [(clauses', assignment', False)], then running it again on
    [(clauses', assignment')] returns, at the first scan, the same clause
    set and the same assignment, with the conflict flag still false. *)
Theorem unit_propagate_idempotent fuel clauses (a : assignment) clauses' a' :
  _unit_propagate fuel clauses a = Some (clauses', a', false) →
  ∀ fuel', (0 < fuel')%nat →
    _unit_propagate fuel' clauses' a' = Some (clauses', a', false).
Proof.
  intros Hu fuel' Hfuel. apply unit_propagate_no_units in Hu.
  destruct fuel' as [|fuel']; [lia|]. rewrite _unit_propagate_S. by rewrite Hu.
Qed.

Lemma unit_propagate_idempotent_witness :
  _unit_propagate 3 [{[1]}; {[-1; 2]}; {[3; 4]}] ∅
    = Some ([{[3; 4]}], {[1 := true; 2 := true]}, false) ∧
  _unit_propagate 1 [{[3; 4]}] {[1 := true; 2 := true]}
    = Some ([{[3; 4]}], {[1 := true; 2 := true]}, false).
Proof.
  assert (_unit_propagate 3 [{[1]}; {[-1; 2]}; {[3; 4]}] ∅
          = Some ([{[3; 4]}], {[1 := true; 2 := true]}, false)) as Hu
    by (vm_compute; reflexivity).
  split; [exact Hu|].
  exact (unit_propagate_idempotent 3 _ _ _ _ Hu 1%nat (Nat.lt_0_succ 0)).
Defined.

Lemma fmap_fst_graph {A B} (f : A → B) (l : list A) :
  ((λ x, (x, f x)) <$> l).*1 = l.
Proof. induction l as [|x l IH]; [done|]. rewrite !fmap_cons. by rewrite IH. Qed.

Lemma total_of_lookup (af : assignment) num_vars var :
  total_of af num_vars !! var
  = if decide (1 ≤ var ≤ num_vars) then Some (default false (af !! var)) else None.
Proof.
  unfold total_of. case_decide as Hr.
  - apply elem_of_list_to_map_1.
    + rewrite fmap_fst_graph. apply NoDup_seqZ.
    + apply list_elem_of_fmap. exists var. split; [done|]. apply elem_of_range. lia.
  - apply not_elem_of_list_to_map_1.
    rewrite fmap_fst_graph, elem_of_range. lia.
Qed.

Lemma total_of_assigns (af : assignment) num_vars : assigns (total_of af num_vars) num_vars.
Proof.
  intros var. rewrite total_of_lookup. case_decide; split; try done.
Qed.

Lemma total_of_lit_true (af : assignment) num_vars lit :
  1 ≤ Z.abs lit ≤ num_vars → lit_true af lit → lit_true (total_of af num_vars) lit.
Proof.
  intros Hr [Hnz Ha]. split; [done|].
  rewrite total_of_lookup, decide_True by done. by rewrite Ha.
Qed.

(** C2, as amended (completeness on well-formed input).  For every input
    whose literals name variables of [1..num_vars] and that no
    assignment of Booleans to the variables [1..num_vars] satisfies, the
    working [solve_cnf] returns [("UNSAT", None)]: it does so for every
    fuel above the number of clauses plus the number of variables. *)
Theorem solve_cnf_complete clauses num_vars :
  in_range clauses num_vars → unsatisfiable clauses num_vars →
  ∀ fuel, (length clauses + Z.to_nat num_vars < fuel)%nat →
    solve_cnf fuel clauses num_vars = Some (UNSAT, None).
Proof.
  intros Hrange Hunsat fuel Hfuel.
  destruct (solve_cnf_terminates fuel clauses num_vars Hfuel) as [?|[model Hs]]; [done|].
  exfalso. apply solve_cnf_SAT in Hs as (af & Hd & _).
  apply dpll_sound in Hd as [_ Hsat]; [|by eapply in_range_nonzero].
  apply (Hunsat (total_of af num_vars)); [apply total_of_assigns|].
  intros c Hc. apply _is_satisfied_clause_spec.
  destruct (Hsat (list_to_set c)) as (lit & Hin & Ht).
  { apply elem_of_clauses_to_sets. eauto. }
  exists lit. split; [done|]. apply total_of_lit_true; [|done].
  apply elem_of_list_to_set in Hin. by eapply Hrange.
Qed.

Lemma satisfies_singleton (a : assignment) clauses lit :
  satisfies a clauses → [lit] ∈ clauses → lit_true a lit.
Proof.
  intros Hsat Hc. apply Hsat, _is_satisfied_clause_spec in Hc as (l & Hl & Ht).
  apply elem_of_list_to_set, list_elem_of_singleton in Hl. by subst l.
Qed.

Lemma unsatisfiable_scenario2 : unsatisfiable [[1]; [-1]] 1.
Proof.
  intros a _ Hsat.
  destruct (satisfies_singleton a _ 1 Hsat) as [_ H1]; [left|].
  destruct (satisfies_singleton a _ (-1) Hsat) as [_ H2]; [right; left|].
  change (a !! 1 = Some true) in H1. change (a !! 1 = Some false) in H2.
  congruence.
Qed.

Lemma solve_cnf_complete_witness :
  in_range [[1]; [-1]] 1 ∧ unsatisfiable [[1]; [-1]] 1 ∧
  (length [[1]; [-1]]%Z + Z.to_nat 1%Z < 4)%nat ∧
  solve_cnf 4 [[1]; [-1]] 1 = Some (UNSAT, None).
Proof.
  assert (in_range [[1]; [-1]] 1) as Hr
    by (apply in_rangeb_spec; vm_compute; reflexivity).
  assert (length [[1]; [-1]]%Z + Z.to_nat 1%Z < 4)%nat as Hf by (vm_compute; lia).
  split; [exact Hr|]. split; [exact unsatisfiable_scenario2|]. split; [exact Hf|].
  exact (solve_cnf_complete [[1]; [-1]] 1 Hr unsatisfiable_scenario2 4%nat Hf).
Defined.

(** C2 as stated fails on an input that names a variable outside
    [1..num_vars]: no assignment to variable [1] satisfies the clause
    [[5]], yet [solve_cnf([[5]], 1)] returns [("SAT", [-1])] and never
    [("UNSAT", None)]. *)
Lemma solve_cnf_complete_counterexample :
  unsatisfiable [[5]] 1 ∧
  solve_cnf 2 [[5]] 1 = Some (SAT, Some [-1]) ∧
  ∀ fuel, solve_cnf fuel [[5]] 1 ≠ Some (UNSAT, None).
Proof.
  split; [|split].
  - intros a Ha Hsat.
    destruct (satisfies_singleton a _ 5 Hsat) as [_ H5]; [left|].
    change (a !! 5 = Some true) in H5.
    assert (is_Some (a !! 5)) as Hs by eauto.
    apply Ha in Hs. lia.
  - vm_compute. reflexivity.
  - intros fuel Hu.
    assert (solve_cnf 2 [[5]] 1 = Some (SAT, Some [-1])) as Hs by (vm_compute; reflexivity).
    apply (solve_cnf_fuel_mono _ (fuel `max` 2)) in Hu; [|lia].
    apply (solve_cnf_fuel_mono _ (fuel `max` 2)) in Hs; [|lia].
    congruence.
Qed.

(** C6, as amended (branching heuristic).  For every clause set,
    assignment and [num_vars], [_choose_branch_var] scans the variables
    [1..num_vars] in increasing order and returns the first unassigned
    one of maximal score [p + n] (the numbers of clauses holding its
    positive and its negative literal), whether or not it appears in the
    clause set, with preferred polarity positive iff [p >= n]; it returns
    no variable (and polarity [True]) exactly when every variable of
    [1..num_vars] is assigned. *)
Theorem choose_branch_var_contract clauses (a : assignment) num_vars :
  match _choose_branch_var clauses a num_vars with
  | (None, pref) =>
    pref = true ∧ ∀ v, 1 ≤ v ≤ num_vars → is_Some (a !! v)
  | (Some v, pref) =>
    1 ≤ v ≤ num_vars ∧ a !! v = None ∧
    pref = (cnt (- v) clauses <=? cnt v clauses) ∧
    (∀ u, 1 ≤ u ≤ num_vars → a !! u = None →
       cnt u clauses + cnt (- u) clauses ≤ cnt v clauses + cnt (- v) clauses) ∧
    (∀ u, 1 ≤ u < v → a !! u = None →
       cnt u clauses + cnt (- u) clauses < cnt v clauses + cnt (- v) clauses)
  end.
Proof. apply choose_branch_var_spec. Qed.

(** C6 as stated fails where no unassigned variable occurs in a nonempty
    clause set: with the only clause [{1}] and variable [1] assigned,
    the heuristic returns the non-occurring variable [2] instead of
    signalling that there is no candidate. *)
Lemma choose_branch_var_counterexample :
  [({[1]} : clause)] ≠ [] ∧
  (∀ v c, 0 < v → ({[1 := true]} : assignment) !! v = None →
     c ∈ [({[1]} : clause)] → (v ∉ c) ∧ (- v ∉ c)) ∧
  _choose_branch_var [{[1]}] {[1 := true]} 2 = (Some 2, true).
Proof.
  split; [done|]. split; [|vm_compute; reflexivity].
  intros v c Hpos Hv ->%list_elem_of_singleton.
  assert (v ≠ 1) by (intros ->; by rewrite lookup_singleton_eq in Hv).
  rewrite !elem_of_singleton. lia.
Qed.

Lemma dpll_calls_step fuel num_vars clauses (a : assignment) clauses' a' :
  dpll_calls fuel num_vars (clauses, a) (clauses', a') →
  step_ok clauses a clauses' a'.
Proof.
  inversion 1 as [cs b cs1 a1 cs2 a2 var pref try_val Hu Hp _ _ Hch _ _]; subst.
  apply unit_propagate_step in Hu. apply pure_literal_elim_step in Hp.
  pose proof (choose_branch_var_spec cs2 a2 num_vars) as Hspec.
  rewrite Hch in Hspec. destruct Hspec as (Hrange & Ha2 & _).
  eapply step_ok_trans; [by eapply step_ok_trans|].
  apply branch_step_ok; [lia|done].
Qed.

Lemma dpll_branch_true rec clauses (a : assignment) var try_vals af :
  dpll_branch rec clauses a var try_vals = Some (true, af) →
  ∃ try_val, try_val ∈ try_vals ∧
    existsb is_empty_clause
      (_simplify_after_assignment clauses (lit_of var try_val)) = false ∧
    rec (_simplify_after_assignment clauses (lit_of var try_val)) (<[var := try_val]> a)
    = Some (true, af).
Proof.
  induction try_vals as [|try_val rest IH]; [done|]. rewrite dpll_branch_cons.
  destruct (existsb _ _) eqn:He.
  { intros (t & Ht & ?)%IH. exists t. split; [by right|done]. }
  destruct (rec _ _) as [[[|] bf]|] eqn:Hr; simpl; [| |done].
  - intros [= <-]. exists try_val. split; [left|done].
  - intros (t & Ht & ?)%IH. exists t. split; [by right|done].
Qed.

(** The loop of step 5 calls [rec] on nothing but the simplified state
    of a polarity whose simplification leaves no empty clause. *)
Lemma dpll_branch_ext rec rec' clauses (a : assignment) var try_vals :
  (∀ try_val, try_val ∈ try_vals →
     existsb is_empty_clause
       (_simplify_after_assignment clauses (lit_of var try_val)) = false →
     rec (_simplify_after_assignment clauses (lit_of var try_val)) (<[var := try_val]> a)
     = rec' (_simplify_after_assignment clauses (lit_of var try_val))
         (<[var := try_val]> a)) →
  dpll_branch rec clauses a var try_vals = dpll_branch rec' clauses a var try_vals.
Proof.
  induction try_vals as [|try_val rest IH]; intros Hagree; [done|].
  rewrite !dpll_branch_cons.
  assert (dpll_branch rec clauses a var rest = dpll_branch rec' clauses a var rest)
    as Hrest by (apply IH; intros t Ht; apply Hagree; by right).
  destruct (existsb _ _) eqn:He; [done|].
  rewrite (Hagree try_val) by (done || left). by rewrite Hrest.
Qed.

(** A successful call either stops at step 3 with all clauses discharged
    or hands on the result of one of the calls it makes. *)
Lemma dpll_true_inv fuel clauses (a : assignment) num_vars af :
  _dpll (S fuel) clauses a num_vars = Some (true, af) →
  (∃ clauses1 a1, _unit_propagate (S fuel) clauses a = Some (clauses1, a1, false) ∧
     _pure_literal_elim (S fuel) clauses1 a1 = Some ([], af)) ∨
  (∃ clauses' a', dpll_calls fuel num_vars (clauses, a) (clauses', a') ∧
     _dpll fuel clauses' a' num_vars = Some (true, af)).
Proof.
  rewrite _dpll_S.
  destruct (_unit_propagate (S fuel) clauses a) as [[[cs1 a1] [|]]|] eqn:Hu;
    simpl; [done| |done].
  destruct (_pure_literal_elim (S fuel) cs1 a1) as [[cs2 a2]|] eqn:Hp; simpl; [|done].
  destruct cs2 as [|c2 cs2]; [intros [= <-]; left; eauto|].
  destruct (_contains_empty_clause (c2 :: cs2)) eqn:He; [done|].
  destruct (_choose_branch_var (c2 :: cs2) a2 num_vars) as [[var|] pref] eqn:Hch; [|done].
  intros (try_val & Ht & Hne & Hrec)%dpll_branch_true. right.
  eexists _, _. split; [|exact Hrec]. by econstructor.
Qed.

(** C9 (monotonicity of the assignment).  The assignment returned by
    [_unit_propagate] (with or without a conflict) and the one returned
    by [_pure_literal_elim] give every variable assigned in the incoming
    assignment the value it had there, and so does the assignment passed
    to each recursive call of [_dpll] with respect to the assignment of
    the calling [_dpll]. *)
Theorem assignment_monotone :
  (∀ fuel clauses (a : assignment) clauses' a' conflict,
     _unit_propagate fuel clauses a = Some (clauses', a', conflict) →
     ∀ var val, a !! var = Some val → a' !! var = Some val) ∧
  (∀ fuel clauses (a : assignment) clauses' a',
     _pure_literal_elim fuel clauses a = Some (clauses', a') →
     ∀ var val, a !! var = Some val → a' !! var = Some val) ∧
  (∀ fuel num_vars clauses (a : assignment) clauses' a',
     dpll_calls fuel num_vars (clauses, a) (clauses', a') →
     ∀ var val, a !! var = Some val → a' !! var = Some val).
Proof.
  split; [|split].
  - intros fuel clauses a clauses' a' conflict Hu var val Ha.
    eapply lookup_weaken; [done|]. by eapply unit_propagate_extends.
  - intros fuel clauses a clauses' a' Hp var val Ha.
    eapply lookup_weaken; [done|]. by eapply pure_literal_elim_step.
  - intros fuel num_vars clauses a clauses' a' Hc var val Ha.
    eapply lookup_weaken; [done|]. by eapply dpll_calls_step.
Qed.

Lemma assignment_monotone_witness :
  (_unit_propagate 3 [{[1]}; {[-1; 2]}; {[3; 4]}] {[7 := false]}
     = Some ([{[3; 4]}], {[1 := true; 2 := true; 7 := false]}, false) ∧
   ({[1 := true; 2 := true; 7 := false]} : assignment) !! 7 = Some false) ∧
  (_pure_literal_elim 3 [{[1; 2]}; {[-2; 3]}] {[7 := false]}
     = Some ([], {[1 := true; 3 := true; 7 := false]}) ∧
   ({[1 := true; 3 := true; 7 := false]} : assignment) !! 7 = Some false) ∧
  (dpll_calls 2 2 ([{[1; 2]}; {[-1; 2]}; {[1; -2]}], {[7 := false]})
     (_simplify_after_assignment [{[1; 2]}; {[-1; 2]}; {[1; -2]}] (lit_of 1 true),
      <[1 := true]> {[7 := false]}) ∧
   (<[1 := true]> {[7 := false]} : assignment) !! 7 = Some false).
Proof.
  destruct assignment_monotone as (Hunit & Hpure & Hcall).
  assert (_unit_propagate 3 [{[1]}; {[-1; 2]}; {[3; 4]}] {[7 := false]}
          = Some ([{[3; 4]}], {[1 := true; 2 := true; 7 := false]}, false)) as Hu
    by (vm_compute; reflexivity).
  assert (_pure_literal_elim 3 [{[1; 2]}; {[-2; 3]}] {[7 := false]}
          = Some ([], {[1 := true; 3 := true; 7 := false]})) as Hp
    by (vm_compute; reflexivity).
  assert (dpll_calls 2 2 ([{[1; 2]}; {[-1; 2]}; {[1; -2]}], {[7 := false]})
            (_simplify_after_assignment [{[1; 2]}; {[-1; 2]}; {[1; -2]}] (lit_of 1 true),
             <[1 := true]> {[7 := false]})) as Hc.
  { apply (DpllCall 2 2 _ _ [{[1; 2]}; {[-1; 2]}; {[1; -2]}] {[7 := false]}
             [{[1; 2]}; {[-1; 2]}; {[1; -2]}] {[7 := false]} 1 true true).
    - vm_compute; reflexivity.
    - vm_compute; reflexivity.
    - discriminate.
    - vm_compute; reflexivity.
    - vm_compute; reflexivity.
    - left.
    - vm_compute; reflexivity. }
  assert (({[7 := false]} : assignment) !! 7 = Some false) as H7
    by (vm_compute; reflexivity).
  split; [|split].
  - split; [exact Hu|]. exact (Hunit _ _ _ _ _ _ Hu 7 false H7).
  - split; [exact Hp|]. exact (Hpure _ _ _ _ _ Hp 7 false H7).
  - split; [exact Hc|]. exact (Hcall _ _ _ _ _ _ Hc 7 false H7).
Defined.

(** ** The public name *)

Lemma exec_def_lookup_last globals defs name f :
  foldl exec_def globals (defs ++ [(name, f)]) !! name = Some f.
Proof. rewrite foldl_snoc. unfold exec_def at 1. simpl. apply lookup_insert_eq. Qed.

(** Before the last [def] runs, the name is bound to the working solver. *)
Lemma solve_cnf_first_then_shadowed :
  foldl exec_def ∅ (take 10 module_defs) !! "solve_cnf"%string = Some F_solve_cnf_first ∧
  call_solver F_solve_cnf_first 3 [[1]] 1 = Some (Returned (SAT, Some [1])).
Proof. split; vm_compute; reflexivity. Qed.

(** C3 (the stub shadows the working solver).  The module-level name
    [solve_cnf] is bound to the function object of the second [def],
    whose body raises [NotImplementedError]; so for every input the
    public [solve_cnf] raises it and returns no [(status, model)] pair,
    whatever the first definition computes. *)
Theorem public_solve_cnf_not_implemented :
  module_globals !! "solve_cnf"%string = Some F_solve_cnf_second ∧
  ∀ fuel clauses num_vars,
    public_solve_cnf fuel clauses num_vars = Some (Raised NotImplementedError) ∧
    ∀ r, public_solve_cnf fuel clauses num_vars ≠ Some (Returned r).
Proof.
  assert (module_globals !! "solve_cnf"%string = Some F_solve_cnf_second) as Hbound.
  { unfold module_globals, module_defs.
    apply (exec_def_lookup_last ∅
      [ ("_clauses_to_sets", F_clauses_to_sets);
        ("_is_satisfied_clause", F_is_satisfied_clause);
        ("_contains_empty_clause", F_contains_empty_clause);
        ("_unit_propagate", F_unit_propagate);
        ("_pure_literal_elim", F_pure_literal_elim);
        ("_choose_branch_var", F_choose_branch_var);
        ("_simplify_after_assignment", F_simplify_after_assignment);
        ("_build_model", F_build_model);
        ("_dpll", F_dpll);
        ("solve_cnf", F_solve_cnf_first) ]%string). }
  split; [done|]. intros fuel clauses num_vars.
  unfold public_solve_cnf. rewrite Hbound. simpl. split; [done|]. by intros r [=].
Qed.

(** ** The heap model: rules for the primitives *)

Lemma wp_ret {A} (x : A) (h : Heap.heap) Φ : Φ x h → Heap.wp (mret x) h Φ.
Proof. intros HΦ. exists x, h. done. Qed.

Lemma wp_mono {A} (m : Heap.M A) (h : Heap.heap) (Φ Ψ : A → Heap.heap → Prop) :
  Heap.wp m h Φ → (∀ r h', Φ r h' → Ψ r h') → Heap.wp m h Ψ.
Proof. intros (r & h' & Hm & HΦ) Himpl. exists r, h'. auto. Qed.

Lemma wp_bind {A B} (n : Heap.M B) (k : B → Heap.M A) (h : Heap.heap) Φ :
  Heap.wp n h (λ x h1, Heap.wp (k x) h1 Φ) → Heap.wp (n ≫= k) h Φ.
Proof.
  intros (x & h1 & Hn & r & h' & Hk & HΦ). exists r, h'. split; [|done].
  unfold mbind, Heap.M_bind. by rewrite Hn.
Qed.

(** A call [n] with a proved postcondition [Ψ], followed by [k]. *)
Lemma wp_call {A B} (n : Heap.M B) (k : B → Heap.M A) (h : Heap.heap)
  (Ψ : B → Heap.heap → Prop) Φ :
  Heap.wp n h Ψ → (∀ x h1, Ψ x h1 → Heap.wp (k x) h1 Φ) → Heap.wp (n ≫= k) h Φ.
Proof. intros Hn Hk. apply wp_bind. eapply wp_mono; eauto. Qed.

Lemma wp_alloc o (h : Heap.heap) Φ :
  (∀ l, h !! l = None → Φ l (<[l := o]> h)) → Heap.wp (Heap.alloc o) h Φ.
Proof.
  intros HΦ. eexists _, _. split; [done|]. apply HΦ, not_elem_of_dom, is_fresh.
Qed.

Lemma wp_store l o (h : Heap.heap) Φ :
  is_Some (h !! l) → Φ () (<[l := o]> h) → Heap.wp (Heap.store l o) h Φ.
Proof.
  intros [o' Hl] HΦ. exists (), (<[l := o]> h). split; [|done].
  unfold Heap.store. by rewrite Hl.
Qed.

Lemma wp_load l o (h : Heap.heap) Φ :
  h !! l = Some o → Φ o h → Heap.wp (Heap.load l) h Φ.
Proof.
  intros Hl HΦ. exists o, h. split; [|done]. unfold Heap.load. by rewrite Hl.
Qed.

Lemma wp_load_ints l items (h : Heap.heap) Φ :
  h !! l = Some (Heap.OInts items) → Φ items h → Heap.wp (Heap.load_ints l) h Φ.
Proof.
  intros Hl HΦ. apply wp_bind. eapply wp_load; [done|]. by apply wp_ret.
Qed.

Lemma wp_load_refs l items (h : Heap.heap) Φ :
  h !! l = Some (Heap.ORefs items) → Φ items h → Heap.wp (Heap.load_refs l) h Φ.
Proof.
  intros Hl HΦ. apply wp_bind. eapply wp_load; [done|]. by apply wp_ret.
Qed.

Lemma wp_load_pairs l items (h : Heap.heap) Φ :
  h !! l = Some (Heap.OPairs items) → Φ items h → Heap.wp (Heap.load_pairs l) h Φ.
Proof.
  intros Hl HΦ. apply wp_bind. eapply wp_load; [done|]. by apply wp_ret.
Qed.

Lemma wp_load_set l s (h : Heap.heap) Φ :
  h !! l = Some (Heap.OSet s) → Φ s h → Heap.wp (Heap.load_set l) h Φ.
Proof.
  intros Hl HΦ. apply wp_bind. eapply wp_load; [done|]. by apply wp_ret.
Qed.

Lemma wp_load_dict l d (h : Heap.heap) Φ :
  h !! l = Some (Heap.ODict d) → Φ d h → Heap.wp (Heap.load_dict l) h Φ.
Proof.
  intros Hl HΦ. apply wp_bind. eapply wp_load; [done|]. by apply wp_ret.
Qed.

Lemma wp_load_count l d (h : Heap.heap) Φ :
  h !! l = Some (Heap.OCount d) → Φ d h → Heap.wp (Heap.load_count l) h Φ.
Proof.
  intros Hl HΦ. apply wp_bind. eapply wp_load; [done|]. by apply wp_ret.
Qed.

Lemma wp_append_int l items x (h : Heap.heap) Φ :
  h !! l = Some (Heap.OInts items) →
  Φ () (<[l := Heap.OInts (items ++ [x])]> h) →
  Heap.wp (Heap.append_int l x) h Φ.
Proof.
  intros Hl HΦ. apply wp_bind. eapply wp_load_ints; [done|]. by apply wp_store.
Qed.

Lemma wp_append_ref l items x (h : Heap.heap) Φ :
  h !! l = Some (Heap.ORefs items) →
  Φ () (<[l := Heap.ORefs (items ++ [x])]> h) →
  Heap.wp (Heap.append_ref l x) h Φ.
Proof.
  intros Hl HΦ. apply wp_bind. eapply wp_load_refs; [done|]. by apply wp_store.
Qed.

Lemma wp_append_pair l items x (h : Heap.heap) Φ :
  h !! l = Some (Heap.OPairs items) →
  Φ () (<[l := Heap.OPairs (items ++ [x])]> h) →
  Heap.wp (Heap.append_pair l x) h Φ.
Proof.
  intros Hl HΦ. apply wp_bind. eapply wp_load_pairs; [done|]. by apply wp_store.
Qed.

Lemma wp_dict_setitem l d k v (h : Heap.heap) Φ :
  h !! l = Some (Heap.ODict d) →
  Φ () (<[l := Heap.ODict (<[k := v]> d)]> h) →
  Heap.wp (Heap.dict_setitem l k v) h Φ.
Proof.
  intros Hl HΦ. apply wp_bind. eapply wp_load_dict; [done|]. by apply wp_store.
Qed.

Lemma wp_count_setitem l d k v (h : Heap.heap) Φ :
  h !! l = Some (Heap.OCount d) →
  Φ () (<[l := Heap.OCount (<[k := v]> d)]> h) →
  Heap.wp (Heap.count_setitem l k v) h Φ.
Proof.
  intros Hl HΦ. apply wp_bind. eapply wp_load_count; [done|]. by apply wp_store.
Qed.

Lemma wp_set_remove l s x (h : Heap.heap) Φ :
  h !! l = Some (Heap.OSet s) → x ∈ s →
  Φ () (<[l := Heap.OSet (s ∖ {[ x ]})]> h) →
  Heap.wp (Heap.set_remove l x) h Φ.
Proof.
  intros Hl Hx HΦ. apply wp_bind. eapply wp_load_set; [done|].
  rewrite decide_True by done. by apply wp_store.
Qed.

Lemma wp_py_set_ints c items (h : Heap.heap) Φ :
  h !! c = Some (Heap.OInts items) →
  (∀ l, h !! l = None → Φ l (<[l := Heap.OSet (list_to_set items)]> h)) →
  Heap.wp (Heap.py_set c) h Φ.
Proof.
  intros Hc HΦ. apply wp_bind. eapply wp_load; [done|]. by apply wp_alloc.
Qed.

Lemma wp_py_set_set c s (h : Heap.heap) Φ :
  h !! c = Some (Heap.OSet s) →
  (∀ l, h !! l = None → Φ l (<[l := Heap.OSet s]> h)) →
  Heap.wp (Heap.py_set c) h Φ.
Proof.
  intros Hc HΦ. apply wp_bind. eapply wp_load; [done|]. by apply wp_alloc.
Qed.

Lemma wp_list_copy c items (h : Heap.heap) Φ :
  h !! c = Some (Heap.ORefs items) →
  (∀ l, h !! l = None → Φ l (<[l := Heap.ORefs items]> h)) →
  Heap.wp (Heap.list_copy c) h Φ.
Proof.
  intros Hc HΦ. apply wp_bind. eapply wp_load_refs; [done|]. by apply wp_alloc.
Qed.

Lemma wp_dict_copy c d (h : Heap.heap) Φ :
  h !! c = Some (Heap.ODict d) →
  (∀ l, h !! l = None → Φ l (<[l := Heap.ODict d]> h)) →
  Heap.wp (Heap.dict_copy c) h Φ.
Proof.
  intros Hc HΦ. apply wp_bind. eapply wp_load_dict; [done|]. by apply wp_alloc.
Qed.

(** ** The heap model: frames *)

Lemma frame_refl L (h : Heap.heap) : Heap.frame L h h.
Proof. split; [done|]. auto. Qed.

Lemma frame_alloc L (h : Heap.heap) l o :
  h !! l = None → Heap.frame L h (<[l := o]> h).
Proof.
  intros Hl. split.
  - rewrite dom_insert_L. set_solver.
  - intros l' o' _ Hl'. rewrite lookup_insert_ne; [done|]. congruence.
Qed.

Lemma frame_store L (h : Heap.heap) l o :
  l ∈ L → Heap.frame L h (<[l := o]> h).
Proof.
  intros Hl. split.
  - rewrite dom_insert_L. set_solver.
  - intros l' o' Hn Hl'. rewrite lookup_insert_ne; [done|]. set_solver.
Qed.

Lemma frame_weaken L L' (h h' : Heap.heap) :
  L ⊆ L' → Heap.frame L h h' → Heap.frame L' h h'.
Proof. intros Hsub [Hd Hf]. split; [done|]. intros l o Hn. apply Hf. set_solver. Qed.

Lemma frame_fresh L (h h' : Heap.heap) l :
  Heap.frame L h h' → h' !! l = None → h !! l = None.
Proof.
  intros [Hd _] Hl. apply not_elem_of_dom. apply not_elem_of_dom in Hl. set_solver.
Qed.

(** Objects that the second part creates are new to the first. *)
Lemma frame_seq L1 L2 (h1 h2 h3 : Heap.heap) :
  Heap.frame L1 h1 h2 → Heap.frame L2 h2 h3 →
  (∀ l, l ∈ L2 → l ∈ L1 ∨ h1 !! l = None) →
  Heap.frame L1 h1 h3.
Proof.
  intros [Hd1 Hf1] [Hd2 Hf2] Hnew. split; [set_solver|].
  intros l o Hn Hl. apply Hf2; [|by apply Hf1].
  intros Hl2. destruct (Hnew l Hl2) as [?|Hnone]; [done|congruence].
Qed.

Lemma frame_trans L (h1 h2 h3 : Heap.heap) :
  Heap.frame L h1 h2 → Heap.frame L h2 h3 → Heap.frame L h1 h3.
Proof. intros H1 H2. eapply frame_seq; eauto. Qed.

Lemma frame_lookup L (h h' : Heap.heap) l o :
  Heap.frame L h h' → l ∉ L → h !! l = Some o → h' !! l = Some o.
Proof. intros [_ Hf] ??. by apply Hf. Qed.

Lemma frame_subseteq L (h0 h h' : Heap.heap) :
  h0 ⊆ h → Heap.frame L h h' → (∀ l, l ∈ L → h0 !! l = None) → h0 ⊆ h'.
Proof.
  intros Hsub [_ Hf] Hnew. apply map_subseteq_spec. intros l o Hl.
  apply Hf; [|by eapply lookup_weaken].
  intros HL. specialize (Hnew l HL). congruence.
Qed.

Lemma frame_empty_subseteq (h h' : Heap.heap) : Heap.frame ∅ h h' → h ⊆ h'.
Proof. intros Hf. eapply frame_subseteq; [done|done|set_solver]. Qed.

Lemma is_sets_frame L (h h' : Heap.heap) ls cs :
  Heap.frame L h h' → Heap.no_sets h L → Heap.is_sets h ls cs → Heap.is_sets h' ls cs.
Proof.
  intros Hf Hns Hs. eapply Forall2_impl; [done|]. intros l c Hl. simpl in *.
  eapply frame_lookup; [done| |done]. intros HL. by eapply Hns.
Qed.

Lemma is_sets_subseteq (h h' : Heap.heap) ls cs :
  h ⊆ h' → Heap.is_sets h ls cs → Heap.is_sets h' ls cs.
Proof.
  intros Hsub Hs. eapply Forall2_impl; [done|]. intros l c Hl. simpl in *.
  by eapply lookup_weaken.
Qed.

Lemma no_sets_singleton (h : Heap.heap) l o :
  h !! l = Some o → (∀ s, o ≠ Heap.OSet s) → Heap.no_sets h {[ l ]}.
Proof. intros Hl Ho l' s ->%elem_of_singleton. rewrite Hl. naive_solver. Qed.

(** ** The heap model computes what the value model computes *)

Ltac loc_ne := let E := fresh in intros E; subst; congruence.

Ltac split_fresh :=
  repeat match goal with
  | H : <[_ := _]> _ !! _ = None |- _ => apply lookup_insert_None in H as [H ?]
  end.

Ltac heap_lookup :=
  repeat first
    [ eassumption
    | rewrite lookup_insert_eq; reflexivity
    | rewrite lookup_insert_ne by loc_ne ].

Lemma ints_insert (h : Heap.heap) l o ls (clauses : list (list Z)) :
  (∀ c, h !! l ≠ Some (Heap.OInts c)) →
  Forall2 (λ l c, h !! l = Some (Heap.OInts c)) ls clauses →
  Forall2 (λ l' c, <[l := o]> h !! l' = Some (Heap.OInts c)) ls clauses.
Proof.
  intros Hl Hin. eapply Forall2_impl; [done|]. intros l' c Hl'. simpl in *.
  rewrite lookup_insert_ne; [done|]. intros ->. by eapply Hl.
Qed.

Lemma is_sets_insert (h : Heap.heap) l o ls cs :
  (∀ s, h !! l ≠ Some (Heap.OSet s)) →
  Heap.is_sets h ls cs → Heap.is_sets (<[l := o]> h) ls cs.
Proof.
  intros Hl Hin. eapply Forall2_impl; [done|]. intros l' c Hl'. simpl in *.
  rewrite lookup_insert_ne; [done|]. intros ->. by eapply Hl.
Qed.

Lemma wp_clauses_to_sets_loop ls clauses out acc (h : Heap.heap) :
  Forall2 (λ l c, h !! l = Some (Heap.OInts c)) ls clauses →
  h !! out = Some (Heap.ORefs acc) →
  Heap.wp (Heap.clauses_to_sets_loop ls out) h (λ _ h',
    Heap.frame {[ out ]} h h' ∧
    ∃ ls', h' !! out = Some (Heap.ORefs (acc ++ ls')) ∧
           Heap.is_sets h' ls' (_clauses_to_sets clauses)).
Proof.
  revert clauses acc h. induction ls as [|l ls IH]; intros clauses acc h Hin Hout.
  - apply Forall2_nil_inv_l in Hin as ->. apply wp_ret.
    split; [apply frame_refl|]. exists []. rewrite app_nil_r. by split; [|constructor].
  - apply Forall2_cons_inv_l in Hin as (c & clauses' & Hl & Hin & ->). simpl.
    apply wp_bind. eapply wp_py_set_ints; [done|]. intros s Hs.
    apply wp_bind. eapply wp_append_ref; [heap_lookup|]. cbv beta.
    eapply wp_mono.
    { apply (IH clauses' (acc ++ [s])); [|heap_lookup].
      apply ints_insert; [rewrite lookup_insert_ne by loc_ne; congruence|].
      apply ints_insert; [congruence|done]. }
    intros [] h' (Hf & ls' & Hout' & Hsets). split.
    + eapply frame_trans; [|done]. eapply frame_trans; [by apply frame_alloc|].
      apply frame_store. set_solver.
    + exists (s :: ls'). rewrite <- app_assoc in Hout'. split; [done|].
      constructor; [|done]. eapply (frame_lookup _ _ _ _ _ Hf); [|heap_lookup].
      apply not_elem_of_singleton. loc_ne.
Qed.

Lemma wp_clauses_to_sets l clauses (h : Heap.heap) :
  Heap.is_input h l clauses →
  Heap.wp (Heap._clauses_to_sets l) h (λ out h',
    h ⊆ h' ∧ Heap.is_clauses h' out (_clauses_to_sets clauses)).
Proof.
  intros (ls & Hl & Hin). unfold Heap._clauses_to_sets.
  apply wp_bind. eapply wp_load_refs; [done|].
  apply wp_bind. apply wp_alloc. intros out Hout.
  eapply wp_call.
  { apply (wp_clauses_to_sets_loop ls clauses out []); [|heap_lookup].
    apply ints_insert; [congruence|done]. }
  intros [] h' (Hf & ls' & Hout' & Hsets). apply wp_ret. split.
  - eapply frame_subseteq; [by apply insert_subseteq|done|].
    by intros l' ->%elem_of_singleton.
  - by exists ls'.
Qed.

Lemma wp_any_empty ls cs (h : Heap.heap) :
  Heap.is_sets h ls cs →
  Heap.wp (Heap.any_empty ls) h (λ r h', h' = h ∧ r = existsb is_empty_clause cs).
Proof.
  induction 1 as [|l c ls cs Hl Hs IH]; [by apply wp_ret|]. simpl.
  apply wp_bind. eapply wp_load_set; [done|]. unfold is_empty_clause at 1.
  destruct (size c =? 0)%nat; [by apply wp_ret|]. done.
Qed.

Lemma wp_contains_empty_clause l cs (h : Heap.heap) :
  Heap.is_clauses h l cs →
  Heap.wp (Heap._contains_empty_clause l) h (λ r h',
    h' = h ∧ r = _contains_empty_clause cs).
Proof.
  intros (ls & Hl & Hs). apply wp_bind. eapply wp_load_refs; [done|].
  by apply wp_any_empty.
Qed.

Lemma frame_alloc_then L (h h' : Heap.heap) l o :
  h !! l = None → Heap.frame (L ∪ {[ l ]}) (<[l := o]> h) h' → Heap.frame L h h'.
Proof.
  intros Hl Hf. eapply frame_seq; [by apply (frame_alloc L h l o)|done|].
  intros l' [?| ->%elem_of_singleton]%elem_of_union; auto.
Qed.

Lemma frame_store_then L (h h' : Heap.heap) l o :
  l ∈ L → Heap.frame L (<[l := o]> h) h' → Heap.frame L h h'.
Proof. intros Hl Hf. eapply frame_trans; [by apply frame_store|done]. Qed.

Lemma size_elements_nil (c : gset Z) : elements c = [] → size c = 0%nat.
Proof. intros He. unfold size, set_size. simpl. by rewrite He. Qed.

Lemma wp_find_unit_lits ls cs u acc (h : Heap.heap) :
  Heap.is_sets h ls cs → h !! u = Some (Heap.OInts acc) →
  Heap.wp (Heap.find_unit_lits ls u) h (λ _ h',
    Heap.frame {[ u ]} h h' ∧
    h' !! u = Some (Heap.OInts (acc ++ find_unit_lits cs))).
Proof.
  revert cs acc h. induction ls as [|l ls IH]; intros cs acc h Hs Hu.
  - apply Forall2_nil_inv_l in Hs as ->. apply wp_ret.
    split; [apply frame_refl|]. by rewrite app_nil_r.
  - apply Forall2_cons_inv_l in Hs as (c & cs' & Hl & Hs & ->).
    cbn [Heap.find_unit_lits]. apply wp_bind. eapply wp_load_set; [done|].
    unfold find_unit_lits. cbn [omap list_omap]. fold (find_unit_lits cs').
    destruct (size c =? 1)%nat eqn:Hsz.
    + destruct (elements c) as [|lit lits] eqn:He.
      { apply size_elements_nil in He. apply Nat.eqb_eq in Hsz. lia. }
      cbn [head]. apply wp_bind. eapply wp_append_int; [done|]. cbv beta.
      eapply wp_mono.
      { apply (IH cs' (acc ++ [lit])); [|heap_lookup].
        apply is_sets_insert; [congruence|done]. }
      intros [] h' [Hf Hu']. split; [eapply frame_store_then; [|exact Hf]; set_solver|].
      by rewrite <- app_assoc in Hu'.
    + apply wp_bind, wp_ret. by apply IH.
Qed.

Lemma wp_unit_simplify lit ls cs out acc (h : Heap.heap) :
  Heap.is_sets h ls cs → h !! out = Some (Heap.ORefs acc) →
  Heap.wp (Heap.unit_simplify lit ls out) h (λ conflict h',
    Heap.frame {[ out ]} h h' ∧
    match unit_simplify lit cs with
    | None => conflict = true
    | Some new =>
      conflict = false ∧
      ∃ ls', h' !! out = Some (Heap.ORefs (acc ++ ls')) ∧ Heap.is_sets h' ls' new
    end).
Proof.
  revert cs acc h. induction ls as [|l ls IH]; intros cs acc h Hs Hout.
  - apply Forall2_nil_inv_l in Hs as ->. apply wp_ret.
    split; [apply frame_refl|]. split; [done|]. exists []. rewrite app_nil_r.
    by split; [|constructor].
  - apply Forall2_cons_inv_l in Hs as (c & cs' & Hl & Hs & ->).
    cbn [Heap.unit_simplify unit_simplify].
    apply wp_bind. eapply wp_load_set; [done|].
    destruct (decide (lit ∈ c)) as [Hin|Hnin]; [by apply IH|].
    destruct (decide (- lit ∈ c)) as [Hneg|Hnneg].
    + apply wp_bind. eapply wp_py_set_set; [done|]. intros new_c Hfresh.
      apply wp_bind. eapply wp_set_remove; [heap_lookup|done|]. cbv beta.
      rewrite insert_insert_eq.
      apply wp_bind. eapply wp_load_set; [heap_lookup|]. cbv beta.
      unfold is_empty_clause at 1.
      destruct (size (c ∖ {[ - lit ]}) =? 0)%nat.
      { apply wp_ret. split; [by apply frame_alloc|done]. }
      apply wp_bind. eapply wp_append_ref; [heap_lookup|]. cbv beta.
      eapply wp_mono.
      { apply (IH cs' (acc ++ [new_c])); [|heap_lookup].
        apply is_sets_insert; [rewrite lookup_insert_ne by loc_ne; congruence|].
        apply is_sets_insert; [congruence|done]. }
      intros conflict h' [Hf Hpost].
      assert (Heap.frame {[ out ]} h h') as Hframe.
      { apply (frame_alloc_then _ _ _ new_c (Heap.OSet (c ∖ {[ - lit ]}))); [done|].
        eapply frame_store_then; [|eapply frame_weaken; [|done]]; set_solver. }
      split; [done|].
      destruct (unit_simplify lit cs') as [new|]; [|done]. simpl.
      destruct Hpost as (-> & ls' & Hout' & Hs'). split; [done|].
      exists (new_c :: ls'). rewrite <- app_assoc in Hout'. split; [done|].
      constructor; [|done]. eapply (frame_lookup _ _ _ _ _ Hf); [|heap_lookup].
      apply not_elem_of_singleton. loc_ne.
    + apply wp_bind. eapply wp_append_ref; [done|]. cbv beta.
      eapply wp_mono.
      { apply (IH cs' (acc ++ [l])); [|heap_lookup].
        apply is_sets_insert; [congruence|done]. }
      intros conflict h' [Hf Hpost].
      split; [eapply frame_store_then; [|exact Hf]; set_solver|].
      destruct (unit_simplify lit cs') as [new|]; [|done]. simpl.
      destruct Hpost as (-> & ls' & Hout' & Hs'). split; [done|].
      exists (l :: ls'). rewrite <- app_assoc in Hout'. split; [done|].
      constructor; [|done]. eapply (frame_lookup _ _ _ _ _ Hf); [|heap_lookup].
      apply not_elem_of_singleton. loc_ne.
Qed.

Lemma is_clauses_frame L (h h' : Heap.heap) l cs :
  Heap.frame L h h' → Heap.no_sets h L → l ∉ L →
  Heap.is_clauses h l cs → Heap.is_clauses h' l cs.
Proof.
  intros Hf Hns Hl (ls & Hls & Hs). exists ls. split.
  - by eapply frame_lookup.
  - by eapply is_sets_frame.
Qed.

Lemma is_clauses_subseteq (h h' : Heap.heap) l cs :
  h ⊆ h' → Heap.is_clauses h l cs → Heap.is_clauses h' l cs.
Proof.
  intros Hsub (ls & Hls & Hs). exists ls. split.
  - by eapply lookup_weaken.
  - by eapply is_sets_subseteq.
Qed.

Lemma wp_unit_round lits c la cs a (h : Heap.heap) :
  Heap.is_clauses h c cs → h !! la = Some (Heap.ODict a) →
  Heap.wp (Heap.unit_round lits c la) h (λ r h',
    Heap.frame {[ la ]} h h' ∧
    ∃ cs' a', unit_round lits cs a = (cs', a', r.2) ∧
      h' !! la = Some (Heap.ODict a') ∧ Heap.is_clauses h' r.1 cs').
Proof.
  revert c cs a h. induction lits as [|lit rest IH]; intros c cs a h Hc Hla.
  - apply wp_ret. split; [apply frame_refl|]. by exists cs, a.
  - cbn [Heap.unit_round unit_round].
    apply wp_bind. eapply wp_load_dict; [done|]. cbv beta.
    destruct (a !! Z.abs lit) as [old|] eqn:Ha.
    { destruct (negb (Bool.eqb old (0 <? lit))); [|by apply IH].
      apply wp_ret. split; [apply frame_refl|]. by exists cs, a. }
    destruct Hc as (ls & Hc & Hs).
    apply wp_bind. eapply wp_dict_setitem; [done|]. cbv beta.
    apply wp_bind. apply wp_alloc. intros new Hnew.
    assert (h !! new = None) as Hnew' by (by apply lookup_insert_None in Hnew as [? _]).
    apply wp_bind. eapply wp_load_refs; [heap_lookup|]. cbv beta.
    set (a1 := <[Z.abs lit := 0 <? lit]> a).
    set (h2 := <[new := Heap.ORefs []]> (<[la := Heap.ODict a1]> h)).
    assert (Heap.frame {[ la ]} h h2) as Hf2.
    { eapply frame_trans; [apply (frame_store _ h la (Heap.ODict a1)); set_solver|].
      by apply frame_alloc. }
    assert (Heap.no_sets h2 {[ new ]}) as Hns.
    { eapply no_sets_singleton; [unfold h2; heap_lookup|]. done. }
    eapply wp_call.
    { apply (wp_unit_simplify lit ls cs new []); [|unfold h2; heap_lookup].
      apply is_sets_insert; [rewrite lookup_insert_ne by loc_ne; congruence|].
      apply is_sets_insert; [congruence|done]. }
    intros conflict h3 [Hf3 Hpost].
    assert (Heap.frame {[ la ]} h h3) as Hframe.
    { eapply frame_seq; [exact Hf2|exact Hf3|].
      intros l ->%elem_of_singleton. by right. }
    assert (h3 !! la = Some (Heap.ODict a1)) as Hla3.
    { eapply (frame_lookup _ _ _ _ _ Hf3); [|unfold h2; heap_lookup].
      apply not_elem_of_singleton. loc_ne. }
    destruct (unit_simplify lit cs) as [new_cs|].
    + destruct Hpost as (-> & ls' & Hout & Hs').
      eapply wp_mono; [apply (IH new new_cs a1); [by exists ls'|done]|].
      intros r h' (Hf & cs' & a' & Hr & Hla' & Hc').
      split; [by eapply frame_trans|]. by exists cs', a'.
    + subst conflict. apply wp_ret. cbn [fst snd]. split; [done|]. exists cs, a1.
      split; [done|]. split; [done|]. exists ls. split.
      * eapply (frame_lookup _ _ _ _ _ Hf3); [|unfold h2; heap_lookup].
        apply not_elem_of_singleton. loc_ne.
      * eapply is_sets_frame; [exact Hf3|done|].
        apply is_sets_insert; [rewrite lookup_insert_ne by loc_ne; congruence|].
        apply is_sets_insert; [congruence|done].
Qed.

Lemma frame_of_subseteq L (h h' : Heap.heap) : h ⊆ h' → Heap.frame L h h'.
Proof.
  intros Hsub. split; [by apply subseteq_dom|].
  intros l o _ Hl. by eapply lookup_weaken.
Qed.

Lemma wp_unit_loop fuel c la cs a cs' a' conflict (h : Heap.heap) :
  _unit_propagate fuel cs a = Some (cs', a', conflict) →
  Heap.is_clauses h c cs → h !! la = Some (Heap.ODict a) →
  Heap.wp (Heap.unit_loop fuel c la) h (λ r h',
    Heap.frame {[ la ]} h h' ∧ r.2 = conflict ∧
    h' !! la = Some (Heap.ODict a') ∧ Heap.is_clauses h' r.1 cs').
Proof.
  revert c cs a h. induction fuel as [|fuel IH]; intros c cs a h Hpure Hc Hla; [done|].
  rewrite _unit_propagate_S in Hpure. cbn [Heap.unit_loop].
  apply wp_bind, wp_alloc. intros u Hu.
  destruct Hc as (ls & Hc & Hs).
  apply wp_bind. eapply wp_load_refs; [heap_lookup|]. cbv beta.
  eapply wp_call.
  { apply (wp_find_unit_lits ls cs u []); [|heap_lookup].
    apply is_sets_insert; [congruence|done]. }
  intros [] h2 [Hf2 Hu2]. simpl in Hu2.
  assert (Heap.frame {[ la ]} h h2) as Hframe2.
  { apply (frame_alloc_then _ _ _ u (Heap.OInts [])); [done|].
    eapply frame_weaken; [|done]. set_solver. }
  assert (h2 !! la = Some (Heap.ODict a)) as Hla2.
  { eapply (frame_lookup _ _ _ _ _ Hf2); [|heap_lookup].
    apply not_elem_of_singleton. loc_ne. }
  assert (Heap.is_clauses h2 c cs) as Hc2.
  { exists ls. split.
    - eapply (frame_lookup _ _ _ _ _ Hf2); [|heap_lookup].
      apply not_elem_of_singleton. loc_ne.
    - eapply is_sets_frame; [exact Hf2| |].
      + eapply no_sets_singleton; [heap_lookup|done].
      + apply is_sets_insert; [congruence|done]. }
  apply wp_bind. eapply wp_load_ints; [done|]. cbv beta.
  destruct (find_unit_lits cs) as [|lit lits].
  { injection Hpure as <- <- <-. by apply wp_ret. }
  eapply wp_call; [by apply (wp_unit_round (lit :: lits) c la cs a)|].
  intros [c3 conflict3] h3 (Hf3 & cs3 & a3 & Hr & Hla3 & Hc3). simpl in *.
  rewrite Hr in Hpure. destruct conflict3.
  - injection Hpure as <- <- <-. apply wp_ret. split; [by eapply frame_trans|done].
  - eapply wp_mono; [by apply (IH c3 cs3 a3)|].
    intros r h' (Hf & Hconf & Hla' & Hc'). split; [|done].
    eapply frame_trans; [|done]. by eapply frame_trans.
Qed.

Lemma wp_unit_propagate fuel c la cs a cs' a' conflict (h : Heap.heap) :
  _unit_propagate fuel cs a = Some (cs', a', conflict) →
  Heap.is_clauses h c cs → h !! la = Some (Heap.ODict a) →
  Heap.wp (Heap._unit_propagate fuel c la) h (λ r h',
    h ⊆ h' ∧ r.2 = conflict ∧
    h' !! r.1.2 = Some (Heap.ODict a') ∧ Heap.is_clauses h' r.1.1 cs').
Proof.
  intros Hpure (ls & Hc & Hs) Hla. unfold Heap._unit_propagate.
  apply wp_bind. eapply wp_list_copy; [done|]. intros c1 Hc1.
  apply wp_bind. eapply wp_dict_copy; [heap_lookup|]. intros a1 Ha1. split_fresh.
  eapply wp_call.
  { apply (wp_unit_loop fuel c1 a1 cs a cs' a' conflict); [done| |heap_lookup].
    exists ls. split; [heap_lookup|].
    apply is_sets_insert; [rewrite lookup_insert_ne by loc_ne; congruence|].
    apply is_sets_insert; [congruence|done]. }
  intros [c' conflict'] h' (Hf & Hconf & Hla' & Hc'). apply wp_ret. simpl in *.
  split; [|done]. eapply frame_subseteq; [|exact Hf|].
  - etrans; [by apply (insert_subseteq h c1)|].
    apply insert_subseteq. by rewrite lookup_insert_ne.
  - by intros l ->%elem_of_singleton.
Qed.

Ltac heap_subseteq :=
  apply map_subseteq_spec; intros ? ? ?; heap_lookup.

Ltac not_in_locs :=
  repeat rewrite not_elem_of_union; rewrite ?not_elem_of_singleton;
  repeat split; loc_ne.

Lemma wp_count_lit la pos neg lit a p n (h : Heap.heap) :
  h !! la = Some (Heap.ODict a) →
  h !! pos = Some (Heap.OCount p) → h !! neg = Some (Heap.OCount n) → pos ≠ neg →
  Heap.wp (Heap.count_lit la pos neg lit) h (λ _ h',
    Heap.frame {[ pos; neg ]} h h' ∧
    h' !! pos = Some (Heap.OCount (count_lit a (p, n) lit).1) ∧
    h' !! neg = Some (Heap.OCount (count_lit a (p, n) lit).2)).
Proof.
  intros Hla Hpos Hneg Hne. unfold Heap.count_lit, count_lit.
  apply wp_bind. eapply wp_load_dict; [done|]. cbv beta.
  destruct (a !! Z.abs lit); [apply wp_ret; split; [apply frame_refl|done]|].
  destruct (0 <? lit).
  - apply wp_bind. eapply wp_load_count; [done|]. cbv beta.
    eapply wp_count_setitem; [done|]. simpl.
    split; [apply frame_store; set_solver|]. split; heap_lookup.
  - apply wp_bind. eapply wp_load_count; [done|]. cbv beta.
    eapply wp_count_setitem; [done|]. simpl.
    split; [apply frame_store; set_solver|]. split; heap_lookup.
Qed.

Lemma wp_count_lits la pos neg lits a p n (h : Heap.heap) :
  h !! la = Some (Heap.ODict a) →
  h !! pos = Some (Heap.OCount p) → h !! neg = Some (Heap.OCount n) → pos ≠ neg →
  Heap.wp (Heap.count_lits la pos neg lits) h (λ _ h',
    Heap.frame {[ pos; neg ]} h h' ∧
    h' !! pos = Some (Heap.OCount (foldl (count_lit a) (p, n) lits).1) ∧
    h' !! neg = Some (Heap.OCount (foldl (count_lit a) (p, n) lits).2)).
Proof.
  revert p n h. induction lits as [|lit rest IH]; intros p n h Hla Hpos Hneg Hne.
  - apply wp_ret. split; [apply frame_refl|done].
  - cbn [Heap.count_lits foldl]. eapply wp_call; [by apply wp_count_lit|].
    intros [] h1 (Hf1 & Hpos1 & Hneg1).
    destruct (count_lit a (p, n) lit) as [p1 n1]. simpl in *.
    eapply wp_mono.
    { apply (IH p1 n1); [|done|done|done].
      eapply (frame_lookup _ _ _ _ _ Hf1); [not_in_locs|done]. }
    intros [] h' (Hf & Hpos' & Hneg'). split; [by eapply frame_trans|done].
Qed.

Lemma wp_count_clauses la pos neg ls cs a p n (h : Heap.heap) :
  Heap.is_sets h ls cs → h !! la = Some (Heap.ODict a) →
  h !! pos = Some (Heap.OCount p) → h !! neg = Some (Heap.OCount n) → pos ≠ neg →
  Heap.wp (Heap.count_clauses la pos neg ls) h (λ _ h',
    Heap.frame {[ pos; neg ]} h h' ∧
    h' !! pos = Some (Heap.OCount (foldl (count_clause a) (p, n) cs).1) ∧
    h' !! neg = Some (Heap.OCount (foldl (count_clause a) (p, n) cs).2)).
Proof.
  revert cs p n h.
  induction ls as [|l ls IH]; intros cs p n h Hs Hla Hpos Hneg Hne.
  - apply Forall2_nil_inv_l in Hs as ->. apply wp_ret.
    split; [apply frame_refl|done].
  - apply Forall2_cons_inv_l in Hs as (c & cs' & Hl & Hs & ->).
    cbn [Heap.count_clauses foldl].
    apply wp_bind. eapply wp_load_set; [done|]. cbv beta.
    eapply wp_call; [by apply (wp_count_lits la pos neg (elements c) a p n)|].
    intros [] h1 (Hf1 & Hpos1 & Hneg1).
    fold (count_clause a (p, n) c) in Hpos1, Hneg1.
    destruct (count_clause a (p, n) c) as [p1 n1]. simpl in *.
    assert (Heap.no_sets h {[ pos; neg ]}) as Hns.
    { intros l' s [->%elem_of_singleton| ->%elem_of_singleton]%elem_of_union;
        congruence. }
    eapply wp_mono.
    { apply (IH cs' p1 n1); [|
        eapply (frame_lookup _ _ _ _ _ Hf1); [not_in_locs|done]|done|done|done].
      by eapply is_sets_frame. }
    intros [] h' (Hf & Hpos' & Hneg'). split; [by eapply frame_trans|done].
Qed.

Lemma wp_keys_set pos neg p n (h : Heap.heap) :
  h !! pos = Some (Heap.OCount p) → h !! neg = Some (Heap.OCount n) →
  Heap.wp (Heap.keys_set pos neg) h (λ keys h',
    h ⊆ h' ∧ h' !! keys = Some (Heap.OSet (dom p ∪ dom n))).
Proof.
  intros Hpos Hneg. unfold Heap.keys_set.
  apply wp_bind. eapply wp_load_count; [done|]. cbv beta.
  apply wp_bind. eapply wp_load_count; [done|]. cbv beta.
  apply wp_bind, wp_alloc. intros k1 Hk1.
  apply wp_bind, wp_alloc. intros k2 Hk2. split_fresh.
  apply wp_bind. eapply wp_load_ints; [heap_lookup|]. cbv beta.
  apply wp_bind. eapply wp_load_ints; [heap_lookup|]. cbv beta.
  apply wp_bind, wp_alloc. intros k3 Hk3. split_fresh.
  eapply wp_py_set_ints; [heap_lookup|]. intros keys Hkeys. split_fresh.
  split.
  - heap_subseteq.
  - rewrite lookup_insert_eq. do 2 f_equal.
    rewrite list_to_set_app_L. f_equal; apply leibniz_equiv; symmetry; apply dom_alt.
Qed.

Lemma wp_classify_all la pos neg pv vars a p n acc (h : Heap.heap) :
  h !! la = Some (Heap.ODict a) →
  h !! pos = Some (Heap.OCount p) → h !! neg = Some (Heap.OCount n) →
  h !! pv = Some (Heap.OPairs acc) →
  Heap.wp (Heap.classify_all la pos neg pv vars) h (λ _ h',
    Heap.frame {[ pv ]} h h' ∧
    h' !! pv = Some (Heap.OPairs (acc ++ omap (pure_var p n a) vars))).
Proof.
  revert acc h. induction vars as [|var rest IH]; intros acc h Hla Hpos Hneg Hpv.
  - apply wp_ret. split; [apply frame_refl|]. by rewrite app_nil_r.
  - cbn [Heap.classify_all omap list_omap]. apply wp_bind.
    unfold Heap.classify, pure_var at 1.
    apply wp_bind. eapply wp_load_dict; [done|]. cbv beta.
    destruct (a !! var).
    { apply wp_ret. by apply IH. }
    apply wp_bind. eapply wp_load_count; [done|]. cbv beta.
    apply wp_bind. eapply wp_load_count; [done|]. cbv beta.
    destruct ((0 <? get0 p var) && (get0 n var =? 0)).
    { eapply wp_append_pair; [done|].
      eapply wp_mono; [apply (IH (acc ++ [(var, true)])); heap_lookup|].
      intros [] h' [Hf Hpv']. split; [eapply frame_store_then; [|exact Hf]; set_solver|].
      by rewrite <- app_assoc in Hpv'. }
    destruct ((0 <? get0 n var) && (get0 p var =? 0)).
    { eapply wp_append_pair; [done|].
      eapply wp_mono; [apply (IH (acc ++ [(var, false)])); heap_lookup|].
      intros [] h' [Hf Hpv']. split; [eapply frame_store_then; [|exact Hf]; set_solver|].
      by rewrite <- app_assoc in Hpv'. }
    apply wp_ret. by apply IH.
Qed.

Lemma wp_drop_satisfied lit ls cs out acc (h : Heap.heap) :
  Heap.is_sets h ls cs → h !! out = Some (Heap.ORefs acc) →
  Heap.wp (Heap.drop_satisfied lit ls out) h (λ _ h',
    Heap.frame {[ out ]} h h' ∧
    ∃ ls', h' !! out = Some (Heap.ORefs (acc ++ ls')) ∧
           Heap.is_sets h' ls' (filter (λ c, lit ∉ c) cs)).
Proof.
  revert cs acc h. induction ls as [|l ls IH]; intros cs acc h Hs Hout.
  - apply Forall2_nil_inv_l in Hs as ->. apply wp_ret.
    split; [apply frame_refl|]. exists []. rewrite app_nil_r.
    by split; [|constructor].
  - apply Forall2_cons_inv_l in Hs as (c & cs' & Hl & Hs & ->).
    cbn [Heap.drop_satisfied].
    apply wp_bind. eapply wp_load_set; [done|]. cbv beta. apply wp_bind.
    destruct (decide (lit ∈ c)) as [Hin|Hnin].
    + apply wp_ret. rewrite filter_cons_False by (by intros ?). by apply IH.
    + rewrite filter_cons_True by done.
      eapply wp_append_ref; [done|].
      eapply wp_mono.
      { apply (IH cs' (acc ++ [l])); [|heap_lookup].
        apply is_sets_insert; [congruence|done]. }
      intros [] h' (Hf & ls' & Hout' & Hs').
      split; [eapply frame_store_then; [|exact Hf]; set_solver|].
      exists (l :: ls'). rewrite <- app_assoc in Hout'. split; [done|].
      constructor; [|done]. eapply (frame_lookup _ _ _ _ _ Hf); [|heap_lookup].
      apply not_elem_of_singleton. loc_ne.
Qed.

Lemma wp_pure_round pvs c la cs a (h : Heap.heap) :
  Heap.is_clauses h c cs → h !! la = Some (Heap.ODict a) →
  Heap.wp (Heap.pure_round pvs c la) h (λ c' h',
    Heap.frame {[ la ]} h h' ∧
    h' !! la = Some (Heap.ODict (pure_round pvs cs a).2) ∧
    Heap.is_clauses h' c' (pure_round pvs cs a).1).
Proof.
  revert c cs a h. induction pvs as [|[var val] rest IH]; intros c cs a h Hc Hla.
  - apply wp_ret. split; [apply frame_refl|done].
  - cbn [Heap.pure_round pure_round]. destruct Hc as (ls & Hc & Hs).
    apply wp_bind. eapply wp_dict_setitem; [done|]. cbv beta.
    apply wp_bind, wp_alloc. intros new Hnew. split_fresh.
    apply wp_bind. eapply wp_load_refs; [heap_lookup|]. cbv beta.
    set (a1 := <[var := val]> a).
    set (h2 := <[new := Heap.ORefs []]> (<[la := Heap.ODict a1]> h)).
    assert (Heap.frame {[ la ]} h h2) as Hf2.
    { eapply frame_trans; [apply (frame_store _ h la (Heap.ODict a1)); set_solver|].
      apply frame_alloc. by rewrite lookup_insert_ne. }
    eapply wp_call.
    { apply (wp_drop_satisfied (lit_of var val) ls cs new []); [|unfold h2; heap_lookup].
      apply is_sets_insert; [rewrite lookup_insert_ne by loc_ne; congruence|].
      apply is_sets_insert; [congruence|done]. }
    intros [] h3 (Hf3 & ls' & Hout & Hs').
    assert (Heap.frame {[ la ]} h h3) as Hframe.
    { eapply frame_seq; [exact Hf2|exact Hf3|].
      intros l ->%elem_of_singleton. by right. }
    eapply wp_mono.
    { apply (IH new (filter (λ c, lit_of var val ∉ c) cs) a1); [by exists ls'|].
      eapply (frame_lookup _ _ _ _ _ Hf3); [|unfold h2; heap_lookup].
      apply not_elem_of_singleton. loc_ne. }
    intros c' h' (Hf & Hla' & Hc'). split; [by eapply frame_trans|done].
Qed.

Lemma wp_pure_loop fuel c la cs a cs' a' (h : Heap.heap) :
  _pure_literal_elim fuel cs a = Some (cs', a') →
  Heap.is_clauses h c cs → h !! la = Some (Heap.ODict a) →
  Heap.wp (Heap.pure_loop fuel c la) h (λ c' h',
    Heap.frame {[ la ]} h h' ∧
    h' !! la = Some (Heap.ODict a') ∧ Heap.is_clauses h' c' cs').
Proof.
  revert c cs a h. induction fuel as [|fuel IH]; intros c cs a h Hpure Hc Hla; [done|].
  rewrite _pure_literal_elim_S in Hpure. cbn [Heap.pure_loop].
  pose proof Hc as (ls & Hcl & Hs).
  apply wp_bind, wp_alloc. intros pos Hpos.
  apply wp_bind, wp_alloc. intros neg Hneg. split_fresh.
  apply wp_bind. eapply wp_load_refs; [heap_lookup|]. cbv beta.
  set (h2 := <[neg := Heap.OCount ∅]> (<[pos := Heap.OCount ∅]> h)).
  assert (h ⊆ h2) as Hsub2 by (unfold h2; heap_subseteq).
  eapply wp_call.
  { apply (wp_count_clauses la pos neg ls cs a ∅ ∅ h2);
      [by eapply is_sets_subseteq|unfold h2; heap_lookup..|done]. }
  intros [] h3 (Hf3 & Hpos3 & Hneg3).
  fold (count_occurrences cs a) in Hpos3, Hneg3.
  unfold find_pure_vars in Hpure.
  destruct (count_occurrences cs a) as [p n]. simpl in Hpos3, Hneg3.
  assert (h ⊆ h3) as Hsub3.
  { eapply frame_subseteq; [exact Hsub2|exact Hf3|].
    by intros l [->%elem_of_singleton| ->%elem_of_singleton]%elem_of_union. }
  apply wp_bind, wp_alloc. intros pv Hpv.
  assert (h !! pv = None) as Hpv0.
  { destruct (h !! pv) eqn:E; [|done]. eapply lookup_weaken in E; [|done]. congruence. }
  eapply wp_call.
  { apply (wp_keys_set pos neg p n); heap_lookup. }
  intros keys h5 (Hsub5 & Hkeys).
  assert (h ⊆ h5) as Hsub5'.
  { etrans; [exact Hsub3|]. etrans; [|exact Hsub5]. by apply insert_subseteq. }
  apply wp_bind. eapply wp_load_set; [done|]. cbv beta.
  eapply wp_call.
  { apply (wp_classify_all la pos neg pv (elements (dom p ∪ dom n)) a p n []).
    - eapply lookup_weaken; [exact Hla|exact Hsub5'].
    - eapply lookup_weaken; [|exact Hsub5]. heap_lookup.
    - eapply lookup_weaken; [|exact Hsub5]. heap_lookup.
    - eapply lookup_weaken; [|exact Hsub5]. heap_lookup. }
  intros [] h6 (Hf6 & Hpv6). simpl in Hpv6.
  assert (h ⊆ h6) as Hsub6.
  { eapply frame_subseteq; [exact Hsub5'|exact Hf6|].
    by intros l ->%elem_of_singleton. }
  apply wp_bind. eapply wp_load_pairs; [done|]. cbv beta.
  destruct (omap (pure_var p n a) (elements (dom p ∪ dom n))) as [|pv1 pvs].
  { injection Hpure as <- <-. apply wp_ret.
    split; [by apply frame_of_subseteq|].
    split; [by eapply lookup_weaken|by eapply is_clauses_subseteq]. }
  eapply wp_call.
  { apply (wp_pure_round (pv1 :: pvs) c la cs a);
      [by eapply is_clauses_subseteq|by eapply lookup_weaken]. }
  intros c7 h7 (Hf7 & Hla7 & Hc7).
  destruct (pure_round (pv1 :: pvs) cs a) as [cs7 a7]. simpl in Hla7, Hc7.
  eapply wp_mono; [by apply (IH c7 cs7 a7)|].
  intros c' h' (Hf & Hla' & Hc'). split; [|done].
  eapply frame_trans; [by apply frame_of_subseteq|]. by eapply frame_trans.
Qed.

Lemma wp_pure_literal_elim fuel c la cs a cs' a' (h : Heap.heap) :
  _pure_literal_elim fuel cs a = Some (cs', a') →
  Heap.is_clauses h c cs → h !! la = Some (Heap.ODict a) →
  Heap.wp (Heap._pure_literal_elim fuel c la) h (λ r h',
    h ⊆ h' ∧ h' !! r.2 = Some (Heap.ODict a') ∧ Heap.is_clauses h' r.1 cs').
Proof.
  intros Hpure (ls & Hc & Hs) Hla. unfold Heap._pure_literal_elim.
  apply wp_bind. eapply wp_list_copy; [done|]. intros c1 Hc1.
  apply wp_bind. eapply wp_dict_copy; [heap_lookup|]. intros a1 Ha1. split_fresh.
  eapply wp_call.
  { apply (wp_pure_loop fuel c1 a1 cs a cs' a'); [done| |heap_lookup].
    exists ls. split; [heap_lookup|].
    apply is_sets_insert; [rewrite lookup_insert_ne by loc_ne; congruence|].
    apply is_sets_insert; [congruence|done]. }
  intros c' h' (Hf & Hla' & Hc'). apply wp_ret. simpl.
  split; [|done]. eapply frame_subseteq; [|exact Hf|].
  - heap_subseteq.
  - by intros l ->%elem_of_singleton.
Qed.

Lemma wp_branch_scan la pos neg best vars a p n (h : Heap.heap) :
  h !! la = Some (Heap.ODict a) →
  h !! pos = Some (Heap.OCount p) → h !! neg = Some (Heap.OCount n) →
  Heap.wp (Heap.branch_scan la pos neg best vars) h (λ r h',
    h' = h ∧ r = foldl (branch_step p n a) best vars).
Proof.
  intros Hla Hpos Hneg. revert best.
  induction vars as [|var rest IH]; intros best; [by apply wp_ret|].
  cbn [Heap.branch_scan foldl]. apply wp_bind.
  destruct best as [[best_var best_score] best_pref].
  unfold Heap.branch_step, branch_step at 2.
  apply wp_bind. eapply wp_load_dict; [done|]. cbv beta.
  destruct (a !! var); [apply wp_ret, IH|].
  apply wp_bind. eapply wp_load_count; [done|]. cbv beta.
  apply wp_bind. eapply wp_load_count; [done|]. cbv beta.
  destruct (best_score <? get0 p var + get0 n var); apply wp_ret, IH.
Qed.

Lemma wp_choose_branch_var c la cs a num_vars (h : Heap.heap) :
  Heap.is_clauses h c cs → h !! la = Some (Heap.ODict a) →
  Heap.wp (Heap._choose_branch_var c la num_vars) h (λ r h',
    h ⊆ h' ∧ r = _choose_branch_var cs a num_vars).
Proof.
  intros (ls & Hc & Hs) Hla. unfold Heap._choose_branch_var, _choose_branch_var.
  apply wp_bind, wp_alloc. intros pos Hpos.
  apply wp_bind, wp_alloc. intros neg Hneg. split_fresh.
  apply wp_bind. eapply wp_load_refs; [heap_lookup|]. cbv beta.
  set (h2 := <[neg := Heap.OCount ∅]> (<[pos := Heap.OCount ∅]> h)).
  assert (h ⊆ h2) as Hsub2 by (unfold h2; heap_subseteq).
  eapply wp_call.
  { apply (wp_count_clauses la pos neg ls cs a ∅ ∅ h2);
      [by eapply is_sets_subseteq|unfold h2; heap_lookup..|done]. }
  intros [] h3 (Hf3 & Hpos3 & Hneg3).
  fold (count_occurrences cs a) in Hpos3, Hneg3.
  destruct (count_occurrences cs a) as [p n]. simpl in Hpos3, Hneg3.
  assert (h ⊆ h3) as Hsub3.
  { eapply frame_subseteq; [exact Hsub2|exact Hf3|].
    by intros l [->%elem_of_singleton| ->%elem_of_singleton]%elem_of_union. }
  eapply wp_call.
  { apply (wp_branch_scan la pos neg _ _ a p n); [by eapply lookup_weaken|done|done]. }
  intros r h4 [-> ->].
  destruct (foldl (branch_step p n a) (None, -1, true) (range 1 (num_vars + 1)))
    as [[best_var best_score] best_pref].
  by apply wp_ret.
Qed.

Lemma wp_simplify_loop lit ls cs out acc (h : Heap.heap) :
  Heap.is_sets h ls cs → h !! out = Some (Heap.ORefs acc) →
  Heap.wp (Heap.simplify_loop lit ls out) h (λ _ h',
    Heap.frame {[ out ]} h h' ∧
    ∃ ls', h' !! out = Some (Heap.ORefs (acc ++ ls')) ∧
           Heap.is_sets h' ls' (_simplify_after_assignment cs lit)).
Proof.
  revert cs acc h. induction ls as [|l ls IH]; intros cs acc h Hs Hout.
  - apply Forall2_nil_inv_l in Hs as ->. apply wp_ret.
    split; [apply frame_refl|]. exists []. rewrite app_nil_r.
    by split; [|constructor].
  - apply Forall2_cons_inv_l in Hs as (c & cs' & Hl & Hs & ->).
    cbn [Heap.simplify_loop _simplify_after_assignment].
    apply wp_bind. eapply wp_load_set; [done|]. cbv beta. apply wp_bind.
    destruct (decide (lit ∈ c)) as [Hin|Hnin]; [apply wp_ret; by apply IH|].
    destruct (decide (- lit ∈ c)) as [Hneg|Hnneg].
    + apply wp_bind. eapply wp_py_set_set; [done|]. intros new_c Hfresh.
      apply wp_bind. eapply wp_set_remove; [heap_lookup|done|]. cbv beta.
      rewrite insert_insert_eq.
      eapply wp_append_ref; [heap_lookup|].
      eapply wp_mono.
      { apply (IH cs' (acc ++ [new_c])); [|heap_lookup].
        apply is_sets_insert; [rewrite lookup_insert_ne by loc_ne; congruence|].
        apply is_sets_insert; [congruence|done]. }
      intros [] h' (Hf & ls' & Hout' & Hs'). split.
      { apply (frame_alloc_then _ _ _ new_c (Heap.OSet (c ∖ {[ - lit ]}))); [done|].
        eapply frame_store_then; [|eapply frame_weaken; [|exact Hf]]; set_solver. }
      exists (new_c :: ls'). rewrite <- app_assoc in Hout'. split; [done|].
      constructor; [|done]. eapply (frame_lookup _ _ _ _ _ Hf); [|heap_lookup].
      apply not_elem_of_singleton. loc_ne.
    + eapply wp_append_ref; [done|].
      eapply wp_mono.
      { apply (IH cs' (acc ++ [l])); [|heap_lookup].
        apply is_sets_insert; [congruence|done]. }
      intros [] h' (Hf & ls' & Hout' & Hs').
      split; [eapply frame_store_then; [|exact Hf]; set_solver|].
      exists (l :: ls'). rewrite <- app_assoc in Hout'. split; [done|].
      constructor; [|done]. eapply (frame_lookup _ _ _ _ _ Hf); [|heap_lookup].
      apply not_elem_of_singleton. loc_ne.
Qed.

Lemma wp_simplify_after_assignment c cs lit (h : Heap.heap) :
  Heap.is_clauses h c cs →
  Heap.wp (Heap._simplify_after_assignment c lit) h (λ new h',
    h ⊆ h' ∧ Heap.is_clauses h' new (_simplify_after_assignment cs lit)).
Proof.
  intros (ls & Hc & Hs). unfold Heap._simplify_after_assignment.
  apply wp_bind, wp_alloc. intros new Hnew.
  apply wp_bind. eapply wp_load_refs; [heap_lookup|]. cbv beta.
  eapply wp_call.
  { apply (wp_simplify_loop lit ls cs new []); [|heap_lookup].
    apply is_sets_insert; [congruence|done]. }
  intros [] h' (Hf & ls' & Hout' & Hs'). apply wp_ret. split.
  - eapply frame_subseteq; [by apply insert_subseteq|exact Hf|].
    by intros l ->%elem_of_singleton.
  - by exists ls'.
Qed.

Lemma wp_build_model_loop la model vars a acc (h : Heap.heap) :
  h !! la = Some (Heap.ODict a) → h !! model = Some (Heap.OInts acc) →
  Heap.wp (Heap.build_model_loop la model vars) h (λ _ h',
    Heap.frame {[ model ]} h h' ∧
    h' !! model
    = Some (Heap.OInts (acc ++ ((λ v, lit_of v (default false (a !! v))) <$> vars)))).
Proof.
  revert acc h. induction vars as [|v rest IH]; intros acc h Hla Hm.
  - apply wp_ret. split; [apply frame_refl|]. by rewrite app_nil_r.
  - cbn [Heap.build_model_loop].
    apply wp_bind. eapply wp_load_dict; [done|]. cbv beta.
    apply wp_bind. eapply wp_append_int; [done|]. cbv beta.
    eapply wp_mono; [apply (IH (acc ++ [lit_of v (default false (a !! v))])); heap_lookup|].
    intros [] h' [Hf Hm']. split; [eapply frame_store_then; [|exact Hf]; set_solver|].
    by rewrite fmap_cons, cons_middle, app_assoc.
Qed.

Lemma wp_build_model la a num_vars (h : Heap.heap) :
  h !! la = Some (Heap.ODict a) →
  Heap.wp (Heap._build_model la num_vars) h (λ model h',
    h ⊆ h' ∧ h' !! model = Some (Heap.OInts (_build_model a num_vars))).
Proof.
  intros Hla. unfold Heap._build_model.
  apply wp_bind, wp_alloc. intros model Hmodel.
  eapply wp_call.
  { apply (wp_build_model_loop la model (range 1 (num_vars + 1)) a []); heap_lookup. }
  intros [] h' [Hf Hm]. apply wp_ret. split; [|done].
  eapply frame_subseteq; [by apply insert_subseteq|exact Hf|].
  by intros l ->%elem_of_singleton.
Qed.

Lemma wp_return_unsat (h : Heap.heap) :
  Heap.wp Heap.return_unsat h (λ r h',
    h ⊆ h' ∧ r.1 = false ∧ h' !! r.2 = Some (Heap.ODict ∅)).
Proof.
  apply wp_bind, wp_alloc. intros e He. apply wp_ret. simpl.
  split; [by apply insert_subseteq|]. split; [done|heap_lookup].
Qed.

Lemma wp_dpll_branch rec_h rec_v c la cs a var try_vals sat af (h : Heap.heap) :
  (∀ c1 la1 cs1 a1 sat1 af1 (h1 : Heap.heap),
     rec_v cs1 a1 = Some (sat1, af1) →
     Heap.is_clauses h1 c1 cs1 → h1 !! la1 = Some (Heap.ODict a1) →
     Heap.wp (rec_h c1 la1) h1 (λ r h',
       h1 ⊆ h' ∧ r.1 = sat1 ∧ h' !! r.2 = Some (Heap.ODict af1))) →
  dpll_branch rec_v cs a var try_vals = Some (sat, af) →
  Heap.is_clauses h c cs → h !! la = Some (Heap.ODict a) →
  Heap.wp (Heap.dpll_branch rec_h c la var try_vals) h (λ r h',
    h ⊆ h' ∧ r.1 = sat ∧ h' !! r.2 = Some (Heap.ODict af)).
Proof.
  intros Hrec. revert h.
  induction try_vals as [|try_val rest IH]; intros h Hpure Hc Hla.
  - injection Hpure as <- <-. apply wp_return_unsat.
  - rewrite dpll_branch_cons in Hpure. cbn [Heap.dpll_branch].
    apply wp_bind. eapply wp_dict_copy; [done|]. intros na Hna.
    apply wp_bind. eapply wp_dict_setitem; [heap_lookup|]. cbv beta.
    rewrite insert_insert_eq.
    set (h1 := <[na := Heap.ODict (<[var := try_val]> a)]> h).
    assert (h ⊆ h1) as Hsub1 by (by apply insert_subseteq).
    eapply wp_call.
    { apply (wp_simplify_after_assignment c cs (lit_of var try_val)).
      by eapply is_clauses_subseteq. }
    intros new h2 [Hsub2 Hnew].
    pose proof Hnew as (lsn & Hln & Hsn).
    apply wp_bind. eapply wp_load_refs; [done|]. cbv beta.
    eapply wp_call; [by apply wp_any_empty|].
    intros conflict h3 [-> ->].
    assert (h ⊆ h2) as Hsub by (by etrans).
    destruct (existsb is_empty_clause
                (_simplify_after_assignment cs (lit_of var try_val))).
    { eapply wp_mono.
      - apply IH; [done|by eapply is_clauses_subseteq|by eapply lookup_weaken].
      - intros r h' (Hsub' & Hr). split; [by etrans|done]. }
    destruct (rec_v _ _) as [[sat1 af1]|] eqn:Hr; [|done]. simpl in Hpure.
    eapply wp_call.
    { eapply (Hrec new na); [exact Hr|done|].
      eapply lookup_weaken; [|exact Hsub2]. unfold h1. heap_lookup. }
    intros [sat' final] h4 (Hsub4 & Hsat & Hfinal). simpl in Hsat, Hfinal. subst sat'.
    destruct sat1.
    + injection Hpure as <- <-. apply wp_ret.
      split; [by do 2 (etrans; [|done])|done].
    + eapply wp_mono.
      * apply IH; [done| |].
        -- eapply is_clauses_subseteq; [|done]. by etrans.
        -- eapply lookup_weaken; [done|]. by etrans.
      * intros r h' (Hsub' & Hr'). split; [|done].
        etrans; [exact Hsub|]. by etrans.
Qed.

(** The search on the heap returns what the search on values returns,
    and leaves every object it was given as it was. *)
Lemma wp_dpll fuel c la cs a num_vars sat af (h : Heap.heap) :
  _dpll fuel cs a num_vars = Some (sat, af) →
  Heap.is_clauses h c cs → h !! la = Some (Heap.ODict a) →
  Heap.wp (Heap._dpll fuel c la num_vars) h (λ r h',
    h ⊆ h' ∧ r.1 = sat ∧ h' !! r.2 = Some (Heap.ODict af)).
Proof.
  revert c la cs a sat af h.
  induction fuel as [|fuel IH]; intros c la cs a sat af h Hpure Hc Hla; [done|].
  rewrite _dpll_S in Hpure. cbn [Heap._dpll].
  destruct (_unit_propagate (S fuel) cs a) as [[[cs1 a1] conflict]|] eqn:Hu; [|done].
  simpl in Hpure.
  eapply wp_call; [by apply (wp_unit_propagate (S fuel) c la cs a cs1 a1 conflict)|].
  intros [[c1 la1] conflict'] h1 (Hsub1 & Hconf & Hla1 & Hc1). simpl in Hconf, Hla1, Hc1.
  subst conflict'. destruct conflict.
  { injection Hpure as <- <-. eapply wp_mono; [apply wp_return_unsat|].
    intros r h' (Hsub' & Hr). split; [by etrans|done]. }
  destruct (_pure_literal_elim (S fuel) cs1 a1) as [[cs2 a2]|] eqn:Hp; [|done].
  simpl in Hpure.
  eapply wp_call; [by apply (wp_pure_literal_elim (S fuel) c1 la1 cs1 a1 cs2 a2)|].
  intros [c2 la2] h2 (Hsub2 & Hla2 & Hc2). simpl in Hla2, Hc2.
  assert (h ⊆ h2) as Hsub by (by etrans).
  pose proof Hc2 as (ls2 & Hl2 & Hs2).
  apply wp_bind. eapply wp_load_refs; [done|]. cbv beta.
  destruct Hs2 as [|l2 x2 ls2 cs2 Hx2 Hs2].
  { injection Hpure as <- <-. by apply wp_ret. }
  eapply wp_call; [by apply wp_contains_empty_clause|].
  intros empty h3 [-> ->].
  destruct (_contains_empty_clause (x2 :: cs2)).
  { injection Hpure as <- <-. eapply wp_mono; [apply wp_return_unsat|].
    intros r h' (Hsub' & Hr). split; [by etrans|done]. }
  eapply wp_call; [by apply wp_choose_branch_var|].
  intros r h4 [Hsub4 ->].
  destruct (_choose_branch_var (x2 :: cs2) a2 num_vars) as [[var|] pref].
  - eapply wp_mono.
    + eapply (wp_dpll_branch _ (λ cs b, _dpll fuel cs b num_vars));
        [|exact Hpure|by eapply is_clauses_subseteq|by eapply lookup_weaken].
      intros c5 la5 cs5 a5 sat5 af5 h5. apply IH.
    + intros r h' (Hsub' & Hr). split; [|done].
      etrans; [exact Hsub|]. by etrans.
  - injection Hpure as <- <-. eapply wp_mono; [apply wp_return_unsat|].
    intros r h' (Hsub' & Hr). split; [|done].
    etrans; [exact Hsub|]. by etrans.
Qed.

Lemma is_input_subseteq (h h' : Heap.heap) l clauses :
  h ⊆ h' → Heap.is_input h l clauses → Heap.is_input h' l clauses.
Proof.
  intros Hsub (ls & Hl & Hin). exists ls. split; [by eapply lookup_weaken|].
  eapply Forall2_impl; [done|]. intros l' c Hl'. simpl in *. by eapply lookup_weaken.
Qed.

(** The working [solve_cnf] on the heap: it returns the result of the
    value model, in a heap that extends the one it was called in. *)
Lemma wp_solve_cnf fuel l clauses num_vars st model (h : Heap.heap) :
  solve_cnf fuel clauses num_vars = Some (st, model) →
  Heap.is_input h l clauses →
  Heap.wp (Heap.solve_cnf fuel l num_vars) h (λ r h',
    h ⊆ h' ∧ r.1 = st ∧
    match model with
    | Some m => ∃ lm, r.2 = Some lm ∧ h' !! lm = Some (Heap.OInts m)
    | None => r.2 = None
    end).
Proof.
  intros Hpure Hin. unfold solve_cnf in Hpure. unfold Heap.solve_cnf.
  destruct (_dpll fuel (_clauses_to_sets clauses) ∅ num_vars) as [[sat af]|] eqn:Hd;
    [|done]. simpl in Hpure.
  eapply wp_call; [by apply wp_clauses_to_sets|].
  intros c h1 [Hsub1 Hc].
  apply wp_bind, wp_alloc. intros e He.
  eapply wp_call.
  { apply (wp_dpll fuel c e (_clauses_to_sets clauses) ∅ num_vars sat af);
      [exact Hd| |heap_lookup].
    eapply is_clauses_subseteq; [|done]. by apply insert_subseteq. }
  intros [sat' la] h3 (Hsub3 & Hsat & Hla). simpl in Hsat, Hla. subst sat'.
  assert (h ⊆ h3) as Hsub.
  { etrans; [exact Hsub1|]. etrans; [|exact Hsub3]. by apply insert_subseteq. }
  destruct sat.
  - injection Hpure as <- <-.
    eapply wp_call; [by apply wp_build_model|].
    intros lm h4 [Hsub4 Hm]. apply wp_ret. simpl.
    split; [by etrans|]. split; [done|]. by exists lm.
  - injection Hpure as <- <-. by apply wp_ret.
Qed.

Example heap_scenario3 :
  ∃ h', Heap.solve_cnf 3 1%positive 2 Heap.scenario3_heap = Some ((SAT, Some 41%positive), h') ∧
        h' !! 41%positive = Some (Heap.OInts [1; 2]).
Proof. eexists. split; vm_compute; reflexivity. Qed.

(** C10 (the caller's input is not mutated).  Let the caller's [clauses]
    be a list object whose items refer to lists of integers.  With fuel
    above the number of clauses plus the number of variables the working
    [solve_cnf] returns, and in the heap it leaves behind every object
    that existed before the call is unchanged: the [clauses] list holds
    the same references and each inner sequence the same literals.  The
    objects the solver updates in place (the lists it builds, the dict
    copies, the set copies it removes a literal from) are all created
    during the call. *)
Theorem solve_cnf_preserves_input (h : Heap.heap) l clauses num_vars fuel :
  Heap.is_input h l clauses →
  (length clauses + Z.to_nat num_vars < fuel)%nat →
  ∃ r h', Heap.solve_cnf fuel l num_vars h = Some (r, h') ∧
    (∀ l' o, h !! l' = Some o → h' !! l' = Some o) ∧
    Heap.is_input h' l clauses ∧
    ∃ model, solve_cnf fuel clauses num_vars = Some (r.1, model) ∧
      match model with
      | Some m => ∃ lm, r.2 = Some lm ∧ h' !! lm = Some (Heap.OInts m)
      | None => r.2 = None
      end.
Proof.
  intros Hin Hfuel.
  assert (∃ st model, solve_cnf fuel clauses num_vars = Some (st, model))
    as (st & model & Hpure).
  { destruct (solve_cnf_terminates fuel clauses num_vars Hfuel) as [?|[m ?]]; eauto. }
  destruct (wp_solve_cnf fuel l clauses num_vars st model h Hpure Hin)
    as (r & h' & Hrun & Hsub & Hst & Hmodel).
  exists r, h'. split; [done|]. split; [|split].
  - intros l' o Hl'. by eapply lookup_weaken.
  - by eapply is_input_subseteq.
  - exists model. by rewrite Hst.
Qed.

Lemma solve_cnf_preserves_input_witness :
  Heap.is_input Heap.scenario3_heap 1%positive [[1; 2]; [-1; 2]; [1; -2]] ∧
  (length [[1; 2]; [-1; 2]; [1; -2]]%Z + Z.to_nat 2%Z < 6)%nat ∧
  ∃ r h', Heap.solve_cnf 6 1%positive 2 Heap.scenario3_heap = Some (r, h') ∧
    (∀ l' o, Heap.scenario3_heap !! l' = Some o → h' !! l' = Some o) ∧
    Heap.is_input h' 1%positive [[1; 2]; [-1; 2]; [1; -2]].
Proof.
  assert (Heap.is_input Heap.scenario3_heap 1%positive [[1; 2]; [-1; 2]; [1; -2]])
    as Hin.
  { exists [2; 3; 4]%positive. split; [vm_compute; reflexivity|].
    repeat constructor; vm_compute; reflexivity. }
  assert (length [[1; 2]; [-1; 2]; [1; -2]]%Z + Z.to_nat 2%Z < 6)%nat as Hfuel
    by (vm_compute; lia).
  split; [exact Hin|]. split; [exact Hfuel|].
  destruct (solve_cnf_preserves_input Heap.scenario3_heap 1%positive _ 2 6%nat
              Hin Hfuel) as (r & h' & Hrun & Hsame & Hin' & _).
  exists r, h'. split; [exact Hrun|]. split; [exact Hsame|exact Hin'].
Defined.

(** * Further properties of the functions of [solver.py] *)

(** ** The clause test *)

Lemma is_empty_clause_spec (c : clause) : is_empty_clause c = true ↔ c = ∅.
Proof.
  unfold is_empty_clause. rewrite Nat.eqb_eq. split.
  - intros H. by apply size_empty_iff, leibniz_equiv in H.
  - intros ->. apply size_empty.
Qed.

Lemma contains_empty_clause_spec clauses :
  _contains_empty_clause clauses = true ↔ ∅ ∈ clauses.
Proof.
  unfold _contains_empty_clause. rewrite existsb_exists. split.
  - intros (c & Hin%list_elem_of_In & ->%is_empty_clause_spec). done.
  - intros Hin. exists ∅.
    split; [by apply list_elem_of_In|by apply is_empty_clause_spec].
Qed.

Lemma clause_sat_empty (a : assignment) : ¬ clause_sat a ∅.
Proof. intros (lit & Hin & _). set_solver. Qed.

Lemma lit_true_neg (a : assignment) lit : lit_true a lit → ¬ lit_true a (- lit).
Proof.
  intros [Hne H] [_ H']. rewrite Z.abs_opp, H in H'. injection H' as H'.
  destruct (Z.ltb_spec 0 lit), (Z.ltb_spec 0 (- lit)); try done; lia.
Qed.

(** X1.  [_is_satisfied_clause] is monotone: a clause that passes the
    test still passes it after literals are added to the clause and
    after further variables are assigned. *)
Theorem is_satisfied_clause_mono (c c' : clause) (a a' : assignment) :
  c ⊆ c' → a ⊆ a' →
  _is_satisfied_clause c a = true → _is_satisfied_clause c' a' = true.
Proof.
  intros Hc Ha H. apply _is_satisfied_clause_spec in H.
  apply _is_satisfied_clause_spec.
  eapply clause_sat_superset; [done|]. by eapply clause_sat_weaken.
Qed.

Lemma is_satisfied_clause_mono_witness :
  ({[ -2 ]} : clause) ⊆ {[ -2; 3 ]} ∧
  ({[ 2 := false ]} : assignment) ⊆ {[ 1 := true; 2 := false ]} ∧
  _is_satisfied_clause {[ -2 ]} {[ 2 := false ]} = true ∧
  _is_satisfied_clause {[ -2; 3 ]} {[ 1 := true; 2 := false ]} = true.
Proof.
  assert (({[ -2 ]} : clause) ⊆ {[ -2; 3 ]}) as Hc by set_solver.
  assert (({[ 2 := false ]} : assignment) ⊆ {[ 1 := true; 2 := false ]}) as Ha
    by (apply insert_subseteq; vm_compute; reflexivity).
  assert (_is_satisfied_clause {[ -2 ]} {[ 2 := false ]} = true) as Hs
    by (vm_compute; reflexivity).
  split; [exact Hc|]. split; [exact Ha|]. split; [exact Hs|].
  exact (is_satisfied_clause_mono _ _ _ _ Hc Ha Hs).
Defined.

(** X2.  [_is_satisfied_clause] answers [False] when every literal of
    the clause is [0] or has an unassigned variable.  So the empty
    clause is never satisfied, nothing is satisfied under the empty
    assignment, and the literal [0] satisfies no clause, whatever value
    the assignment gives to the variable [0]. *)
Theorem is_satisfied_clause_unassigned (c : clause) (a : assignment) :
  (∀ lit, lit ∈ c → lit = 0 ∨ a !! Z.abs lit = None) →
  _is_satisfied_clause c a = false.
Proof.
  intros H. apply not_true_iff_false. rewrite _is_satisfied_clause_spec.
  intros (lit & Hin & Hne & Hl). destruct (H lit Hin); congruence.
Qed.

Lemma is_satisfied_clause_unassigned_witness :
  (∀ lit, lit ∈ ({[ 0; 3 ]} : clause) →
     lit = 0 ∨ ({[ 0 := false; 1 := true ]} : assignment) !! Z.abs lit = None) ∧
  _is_satisfied_clause {[ 0; 3 ]} {[ 0 := false; 1 := true ]} = false.
Proof.
  assert (∀ lit, lit ∈ ({[ 0; 3 ]} : clause) →
     lit = 0 ∨ ({[ 0 := false; 1 := true ]} : assignment) !! Z.abs lit = None) as H.
  { intros lit [->%elem_of_singleton| ->%elem_of_singleton]%elem_of_union;
      [by left|right; vm_compute; reflexivity]. }
  split; [exact H|]. exact (is_satisfied_clause_unassigned _ _ H).
Defined.

(** ** Simplification by one literal *)

Lemma simplify_all_sat clauses (af : assignment) lit :
  lit_true af lit →
  all_sat af clauses ↔ all_sat af (_simplify_after_assignment clauses lit).
Proof.
  intros Ht. split.
  - intros Hs c' (c & Hc & Hn & ->)%elem_of_simplify.
    destruct (Hs c Hc) as (l & Hl & Htl). exists l. split; [|done].
    apply elem_of_difference. split; [done|].
    intros ->%elem_of_singleton. exact (lit_true_neg _ _ Ht Htl).
  - intros Hs c Hc. destruct (decide (lit ∈ c)) as [Hin|Hn].
    + by exists lit.
    + eapply clause_sat_superset; [|apply Hs, elem_of_simplify; eauto]. set_solver.
Qed.

(** X3.  [_simplify_after_assignment] keeps the meaning of the clause
    list under every assignment that makes [lit] true: such an
    assignment passes [_is_satisfied_clause] on every clause of the input
    exactly when it passes it on every clause of the result. *)
Theorem simplify_after_assignment_equiv clauses (af : assignment) lit :
  lit ≠ 0 → af !! Z.abs lit = Some (0 <? lit) →
  (∀ c, c ∈ clauses → _is_satisfied_clause c af = true) ↔
  (∀ c, c ∈ _simplify_after_assignment clauses lit → _is_satisfied_clause c af = true).
Proof.
  intros Hne Hl.
  pose proof (simplify_all_sat clauses af lit (conj Hne Hl)) as [H1 H2].
  split; intros H c Hc; apply _is_satisfied_clause_spec.
  - apply H1; [|done]. intros c0 Hc0. by apply _is_satisfied_clause_spec, H.
  - apply H2; [|done]. intros c0 Hc0. by apply _is_satisfied_clause_spec, H.
Qed.

Lemma simplify_after_assignment_equiv_witness :
  (-1 ≠ 0) ∧ ({[ 1 := false; 2 := true ]} : assignment) !! Z.abs (-1) = Some (0 <? -1) ∧
  ((∀ c, c ∈ [({[ 1; 2 ]} : clause); {[ -1; 3 ]}] →
      _is_satisfied_clause c {[ 1 := false; 2 := true ]} = true) ↔
   (∀ c, c ∈ _simplify_after_assignment [{[ 1; 2 ]}; {[ -1; 3 ]}] (-1) →
      _is_satisfied_clause c {[ 1 := false; 2 := true ]} = true)).
Proof.
  assert (-1 ≠ 0) as Hne by lia.
  assert (({[ 1 := false; 2 := true ]} : assignment) !! Z.abs (-1) = Some (0 <? -1))
    as Hl by (vm_compute; reflexivity).
  split; [exact Hne|]. split; [exact Hl|].
  exact (simplify_after_assignment_equiv _ _ _ Hne Hl).
Defined.

(** X4.  No clause returned by [_simplify_after_assignment] mentions
    [lit] or [-lit], and simplifying a second time by the same literal
    changes nothing. *)
Theorem simplify_after_assignment_idempotent clauses lit :
  (∀ c, c ∈ _simplify_after_assignment clauses lit → (lit ∉ c) ∧ (- lit ∉ c)) ∧
  _simplify_after_assignment (_simplify_after_assignment clauses lit) lit
  = _simplify_after_assignment clauses lit.
Proof.
  assert (∀ c, c ∈ _simplify_after_assignment clauses lit → (lit ∉ c) ∧ (- lit ∉ c))
    as Hfree.
  { intros c' (c & Hc & Hn & ->)%elem_of_simplify. set_solver. }
  split; [done|].
  induction (_simplify_after_assignment clauses lit) as [|c rest IH]; [done|].
  destruct (Hfree c) as [H1 H2]; [left|]. simpl.
  rewrite decide_False, decide_False by done. f_equal.
  apply IH. intros c' Hc'. apply Hfree. by right.
Qed.

Lemma simplify_cons c rest lit :
  _simplify_after_assignment (c :: rest) lit
  = if decide (lit ∈ c) then _simplify_after_assignment rest lit
    else (c ∖ {[ - lit ]}) :: _simplify_after_assignment rest lit.
Proof.
  simpl. destruct (decide (lit ∈ c)); [done|].
  destruct (decide (- lit ∈ c)) as [|Hn]; [done|]. f_equal.
  apply set_eq. intros x. rewrite elem_of_difference, elem_of_singleton.
  split; [|by intros [? _]]. intros Hx. split; [done|]. by intros ->.
Qed.

(** X5.  Simplifications by two literals that are not each other's
    negation commute: the clause list does not depend on which of the two
    was assigned first. *)
Theorem simplify_after_assignment_comm clauses lit1 lit2 :
  lit1 ≠ - lit2 →
  _simplify_after_assignment (_simplify_after_assignment clauses lit1) lit2
  = _simplify_after_assignment (_simplify_after_assignment clauses lit2) lit1.
Proof.
  intros Hne. assert (lit2 ≠ - lit1) as Hne' by lia.
  induction clauses as [|c rest IH]; [done|].
  assert (∀ l l' : Z, l ≠ - l' → l ∈ c ∖ {[ - l' ]} ↔ l ∈ c) as Hin.
  { intros l l' Hl. rewrite elem_of_difference, elem_of_singleton. naive_solver. }
  assert (c ∖ {[ - lit1 ]} ∖ {[ - lit2 ]} = c ∖ {[ - lit2 ]} ∖ {[ - lit1 ]}) as Hsw.
  { apply set_eq. intros x. rewrite !elem_of_difference, !elem_of_singleton.
    naive_solver. }
  rewrite (simplify_cons c rest lit1), (simplify_cons c rest lit2).
  destruct (decide (lit1 ∈ c)) as [H1|H1], (decide (lit2 ∈ c)) as [H2|H2].
  - done.
  - rewrite simplify_cons, decide_True by (by apply Hin). done.
  - rewrite simplify_cons, decide_True by (by apply Hin). done.
  - rewrite !simplify_cons.
    rewrite decide_False by (by rewrite Hin).
    rewrite decide_False by (by rewrite Hin).
    by rewrite Hsw, IH.
Qed.

Lemma simplify_after_assignment_comm_witness :
  (1 ≠ - 2) ∧
  _simplify_after_assignment
    (_simplify_after_assignment [{[ -1; -2; 3 ]}; {[ 1; 4 ]}; {[ -2; 5 ]}] 1) 2
  = _simplify_after_assignment
      (_simplify_after_assignment [{[ -1; -2; 3 ]}; {[ 1; 4 ]}; {[ -2; 5 ]}] 2) 1.
Proof.
  assert (1 ≠ - 2) as Hne by lia.
  split; [exact Hne|]. exact (simplify_after_assignment_comm _ 1 2 Hne).
Defined.

(** ** Unit propagation and the models of the clauses *)

Lemma unit_round_models unit_lits clauses (a af : assignment) clauses' a' conflict :
  Forall (lit_true af) unit_lits → a ⊆ af → all_sat af clauses →
  unit_round unit_lits clauses a = (clauses', a', conflict) →
  conflict = false ∧ a' ⊆ af ∧ all_sat af clauses'.
Proof.
  revert clauses a.
  induction unit_lits as [|lit rest IH]; intros clauses a Hl Ha Hs Hr; simpl in Hr.
  { by injection Hr as <- <- <-. }
  apply Forall_cons in Hl as [Hlit Hl].
  destruct (a !! Z.abs lit) as [old|] eqn:Hold.
  - assert (old = (0 <? lit)) as ->.
    { eapply lookup_weaken in Hold; [|done]. destruct Hlit as [_ Hlit]. congruence. }
    rewrite Bool.eqb_reflx in Hr. simpl in Hr. by eapply IH.
  - pose proof (proj1 (simplify_all_sat clauses af lit Hlit) Hs) as Hs'.
    destruct (unit_simplify lit clauses) as [new|] eqn:Hu.
    + apply unit_simplify_Some in Hu as ->. eapply IH; [done| |done|done].
      apply insert_subseteq_l; [|done]. by destruct Hlit.
    + exfalso. apply unit_simplify_None, contains_empty_clause_spec in Hu.
      by eapply clause_sat_empty, Hs'.
Qed.

Lemma unit_propagate_models fuel clauses (a af : assignment) clauses' a' conflict :
  a ⊆ af → all_sat af clauses →
  _unit_propagate fuel clauses a = Some (clauses', a', conflict) →
  conflict = false ∧ a' ⊆ af ∧ all_sat af clauses'.
Proof.
  revert clauses a. induction fuel as [|fuel IH]; intros clauses a Ha Hs; [done|].
  rewrite _unit_propagate_S.
  destruct (find_unit_lits clauses) as [|lit rest] eqn:Hf.
  { by intros [= <- <- <-]. }
  assert (Forall (lit_true af) (lit :: rest)) as Hl.
  { apply Forall_forall. intros l Hin. rewrite <- Hf in Hin.
    apply elem_of_find_unit_lits in Hin as (c & Hc & ->).
    destruct (Hs _ Hc) as (l' & ->%elem_of_singleton & Ht). done. }
  destruct (unit_round (lit :: rest) clauses a) as [[cs1 a1] conflict1] eqn:Hr.
  destruct (unit_round_models _ _ _ _ _ _ _ Hl Ha Hs Hr) as (-> & Ha1 & Hs1).
  by apply IH.
Qed.



(** ** Unit propagation on a clean state *)

Lemma contains_empty_clause_cons c clauses :
  _contains_empty_clause (c :: clauses)
  = is_empty_clause c || _contains_empty_clause clauses.
Proof. done. Qed.

Lemma unit_simplify_no_empty lit clauses new_clauses :
  unit_simplify lit clauses = Some new_clauses →
  _contains_empty_clause clauses = false → _contains_empty_clause new_clauses = false.
Proof.
  revert new_clauses.
  induction clauses as [|c rest IH]; intros new Hu; simpl in Hu.
  { by injection Hu as <-. }
  rewrite contains_empty_clause_cons. intros [Hc Hrest]%orb_false_elim.
  destruct (decide (lit ∈ c)); [by apply IH|].
  destruct (decide (- lit ∈ c)).
  - destruct (is_empty_clause (c ∖ {[ - lit ]})) eqn:He; [done|].
    destruct (unit_simplify lit rest) as [new'|]; [|done].
    injection Hu as <-. rewrite contains_empty_clause_cons, He. simpl. by apply IH.
  - destruct (unit_simplify lit rest) as [new'|]; [|done].
    injection Hu as <-. rewrite contains_empty_clause_cons, Hc. simpl. by apply IH.
Qed.

Lemma unit_round_no_empty unit_lits clauses (a : assignment) clauses' a' :
  unit_round unit_lits clauses a = (clauses', a', false) →
  _contains_empty_clause clauses = false → _contains_empty_clause clauses' = false.
Proof.
  revert clauses a.
  induction unit_lits as [|lit rest IH]; intros clauses a Hr; simpl in Hr.
  { by injection Hr as <- <-. }
  destruct (a !! Z.abs lit) as [old|].
  - destruct (negb (Bool.eqb old (0 <? lit))); [done|]. by eapply IH.
  - destruct (unit_simplify lit clauses) as [new|] eqn:Hu; [|done].
    intros He. eapply IH; [done|]. by eapply unit_simplify_no_empty.
Qed.

Lemma unit_propagate_no_empty fuel clauses (a : assignment) clauses' a' :
  _unit_propagate fuel clauses a = Some (clauses', a', false) →
  _contains_empty_clause clauses = false → _contains_empty_clause clauses' = false.
Proof.
  revert clauses a. induction fuel as [|fuel IH]; intros clauses a; [done|].
  rewrite _unit_propagate_S.
  destruct (find_unit_lits clauses) as [|lit rest]; [by intros [= <- <-]|].
  destruct (unit_round (lit :: rest) clauses a) as [[cs1 a1] [|]] eqn:Hr; [done|].
  intros Hu He. eapply IH; [done|]. by eapply unit_round_no_empty.
Qed.

(** X7.  On a state in which no clause mentions an assigned variable (the
    states [_dpll] calls it on), [_unit_propagate] returns after at most
    [len(clauses) + 1] passes of its [while True] loop.  When it reports
    no conflict, the state it returns is again clean, holds no clause of
    exactly one literal and no more clauses than it was given, and holds
    an empty clause only if the input held one. *)
Theorem unit_propagate_clean fuel clauses (a : assignment) :
  clean clauses a → (length clauses < fuel)%nat →
  ∃ clauses' a' conflict,
    _unit_propagate fuel clauses a = Some (clauses', a', conflict) ∧
    (conflict = false →
       clean clauses' a' ∧
       (∀ c, c ∈ clauses' → size c ≠ 1%nat) ∧
       (length clauses' ≤ length clauses)%nat ∧
       (_contains_empty_clause clauses = false →
        _contains_empty_clause clauses' = false)).
Proof.
  intros Hcl Hfuel.
  destruct (unit_propagate_terminates fuel clauses a Hcl Hfuel)
    as [[[cs' a'] conflict] Hu].
  exists cs', a', conflict. split; [done|]. intros ->.
  pose proof (unit_propagate_step _ _ _ _ _ Hu) as Hstep.
  split; [by apply Hstep|]. split; [|split].
  - apply find_unit_lits_nil. by eapply unit_propagate_no_units.
  - apply Hstep.
  - by eapply unit_propagate_no_empty.
Qed.

Lemma unit_propagate_clean_witness :
  clean [{[1]}; {[-1; 2]}; {[3; 4]}] ∅ ∧
  (length [({[1]} : clause); {[-1; 2]}; {[3; 4]}]%Z < 4)%nat ∧
  ∃ clauses' a' conflict,
    _unit_propagate 4 [{[1]}; {[-1; 2]}; {[3; 4]}] ∅ = Some (clauses', a', conflict) ∧
    (conflict = false →
       clean clauses' a' ∧
       (∀ c, c ∈ clauses' → size c ≠ 1%nat) ∧
       (length clauses' ≤ length [({[1]} : clause); {[-1; 2]}; {[3; 4]}]%Z)%nat ∧
       (_contains_empty_clause [{[1]}; {[-1; 2]}; {[3; 4]}] = false →
        _contains_empty_clause clauses' = false)).
Proof.
  assert (clean [{[1]}; {[-1; 2]}; {[3; 4]}] ∅) as Hcl by apply clean_empty.
  assert (length [({[1]} : clause); {[-1; 2]}; {[3; 4]}]%Z < 4)%nat as Hlen
    by (simpl; lia).
  split; [exact Hcl|]. split; [exact Hlen|].
  exact (unit_propagate_clean 4 _ _ Hcl Hlen).
Defined.

(** ** Unit propagation on an assigned unit clause *)

Lemma unit_round_all_assigned unit_lits clauses (a : assignment) :
  Forall (λ lit, a !! Z.abs lit = Some (0 <? lit)) unit_lits →
  unit_round unit_lits clauses a = (clauses, a, false).
Proof.
  induction 1 as [|lit rest Hlit _ IH]; [done|]. simpl.
  by rewrite Hlit, Bool.eqb_reflx.
Qed.

(** X8.  [_unit_propagate] never returns when the clause list holds a
    unit clause and the variable of every unit clause is already assigned
    the value that satisfies it: each pass of [while True] finds the unit
    literals, skips every one of them with [continue] and leaves clauses
    and assignment as they were, so [if not unit_lits: break] is never
    reached. *)
Theorem unit_propagate_diverges clauses (a : assignment) :
  (∃ lit, {[ lit ]} ∈ clauses) →
  (∀ lit, {[ lit ]} ∈ clauses → a !! Z.abs lit = Some (0 <? lit)) →
  ∀ fuel, _unit_propagate fuel clauses a = None.
Proof.
  intros [lit0 Hex] Hall fuel. induction fuel as [|fuel IH]; [done|].
  rewrite _unit_propagate_S.
  destruct (find_unit_lits clauses) as [|lit rest] eqn:Hf.
  { assert (lit0 ∈ find_unit_lits clauses) as Hin
      by (apply elem_of_find_unit_lits; eauto).
    rewrite Hf in Hin. by apply elem_of_nil in Hin. }
  rewrite unit_round_all_assigned; [done|].
  apply Forall_forall. intros l Hin. rewrite <- Hf in Hin.
  apply elem_of_find_unit_lits in Hin as (c & Hc & ->). by apply Hall.
Qed.

Lemma unit_propagate_diverges_witness :
  (∃ lit, ({[ lit ]} : clause) ∈ [({[ -1 ]} : clause); {[ 2; 3 ]}]) ∧
  (∀ lit, ({[ lit ]} : clause) ∈ [({[ -1 ]} : clause); {[ 2; 3 ]}] →
     ({[ 1 := false ]} : assignment) !! Z.abs lit = Some (0 <? lit)) ∧
  ∀ fuel, _unit_propagate fuel [{[ -1 ]}; {[ 2; 3 ]}] {[ 1 := false ]} = None.
Proof.
  assert (∃ lit, ({[ lit ]} : clause) ∈ [({[ -1 ]} : clause); {[ 2; 3 ]}]) as Hex
    by (exists (-1); left).
  assert (∀ lit, ({[ lit ]} : clause) ∈ [({[ -1 ]} : clause); {[ 2; 3 ]}] →
     ({[ 1 := false ]} : assignment) !! Z.abs lit = Some (0 <? lit)) as Hall.
  { intros lit [Heq|[Heq|[]%elem_of_nil]%elem_of_cons]%elem_of_cons.
    - assert (lit ∈ ({[ -1 ]} : clause)) as ->%elem_of_singleton
        by (rewrite <- Heq; set_solver).
      vm_compute; reflexivity.
    - assert (lit ∈ ({[ 2; 3 ]} : clause)) as Hin by (rewrite <- Heq; set_solver).
      assert (size ({[ lit ]} : clause) = size ({[ 2; 3 ]} : clause)) as Hsz
        by (by rewrite Heq).
      rewrite size_singleton in Hsz. vm_compute in Hsz. done. }
  split; [exact Hex|]. split; [exact Hall|].
  exact (unit_propagate_diverges _ _ Hex Hall).
Defined.

(** ** Pure literal elimination *)




Lemma pure_round_kept pure_vars clauses (a : assignment) clauses' a' :
  NoDup pure_vars.*1 → Forall (pure_in clauses a) pure_vars → nonzero clauses →
  pure_round pure_vars clauses a = (clauses', a') →
  ∀ c, c ∈ clauses → c ∈ clauses' ∨ clause_sat a' c.
Proof.
  revert clauses a.
  induction pure_vars as [|[var val] rest IH]; intros clauses a Hnd Hall Hnz;
    cbn [pure_round].
  { intros [= <- <-] c Hc. by left. }
  rewrite fmap_cons in Hnd. apply NoDup_cons in Hnd as [Hnin Hnd].
  apply Forall_cons in Hall as [Hpv Hall]. intros Hr c Hc.
  assert (Forall (pure_in (filter (λ c, lit_of var val ∉ c) clauses) (<[var := val]> a))
            rest) as Hall'.
  { apply Forall_forall. intros pv Hin. apply (pure_in_filter _ _ pv (var, val)).
    - eapply Forall_forall in Hall; done.
    - cbn [fst]. intros Heq. apply Hnin.
      apply list_elem_of_fmap. exists pv. by rewrite Heq. }
  destruct (decide (lit_of var val ∈ c)) as [Hin|Hn].
  - right. apply (clause_sat_weaken (<[var := val]> a)).
    { by apply (pure_round_step rest _ _ _ _ Hnd Hall' Hr). }
    exists (lit_of var val). split; [done|].
    destruct Hpv as (Ha & Habs & Hsgn & Hp). cbn [fst snd] in *. split.
    + intros H0. rewrite H0 in Hin. by apply (Hnz c).
    + by rewrite Habs, Hsgn, lookup_insert_eq.
  - eapply IH; [done|done| |done|].
    + intros c0 [_ Hc0]%list_elem_of_filter. by apply Hnz.
    + by apply list_elem_of_filter.
Qed.

Lemma pure_literal_elim_kept fuel clauses (a : assignment) clauses' a' :
  nonzero clauses → _pure_literal_elim fuel clauses a = Some (clauses', a') →
  ∀ c, c ∈ clauses → c ∈ clauses' ∨ clause_sat a' c.
Proof.
  revert clauses a. induction fuel as [|fuel IH]; intros clauses a Hnz; [done|].
  rewrite _pure_literal_elim_S.
  destruct (find_pure_vars clauses a) as [|pv rest] eqn:Hf.
  { intros [= <- <-] c Hc. by left. }
  destruct (pure_round (pv :: rest) clauses a) as [cs1 a1] eqn:Hr.
  intros He c Hc. rewrite <- Hf in Hr.
  assert (nonzero cs1) as Hnz1.
  { eapply shrinks_nonzero; [|done]. by apply (find_pure_vars_step _ _ _ _ Hr). }
  destruct (pure_round_kept _ _ _ _ _ (NoDup_find_pure_vars clauses a)
              ltac:(apply Forall_forall; intros ??; by apply elem_of_find_pure_vars)
              Hnz Hr c Hc) as [Hc1|Hsat].
  - by eapply IH.
  - right. eapply clause_sat_weaken; [|done]. by apply (pure_literal_elim_step _ _ _ _ _ He).
Qed.

(** X10.  [_pure_literal_elim] drops only clauses it has satisfied.  When
    no clause holds the literal [0], every clause of the input is either
    a clause of the returned list, unchanged, or passes
    [_is_satisfied_clause] under the returned assignment. *)
Theorem pure_literal_elim_kept_or_satisfied fuel clauses (a : assignment) clauses' a' :
  nonzero clauses → _pure_literal_elim fuel clauses a = Some (clauses', a') →
  ∀ c, c ∈ clauses → c ∈ clauses' ∨ _is_satisfied_clause c a' = true.
Proof.
  intros Hnz Hp c Hc.
  destruct (pure_literal_elim_kept _ _ _ _ _ Hnz Hp c Hc) as [?|?]; [by left|right].
  by apply _is_satisfied_clause_spec.
Qed.

Lemma pure_literal_elim_kept_or_satisfied_witness :
  nonzero [{[1; 2]}; {[-2; 3]}; {[4; 5]}; {[-4; -5]}] ∧
  _pure_literal_elim 3 [{[1; 2]}; {[-2; 3]}; {[4; 5]}; {[-4; -5]}] ∅
    = Some ([{[4; 5]}; {[-4; -5]}], {[1 := true; 3 := true]}) ∧
  ∀ c, c ∈ [({[1; 2]} : clause); {[-2; 3]}; {[4; 5]}; {[-4; -5]}] →
    c ∈ [({[4; 5]} : clause); {[-4; -5]}] ∨
    _is_satisfied_clause c {[1 := true; 3 := true]} = true.
Proof.
  assert (nonzero [{[1; 2]}; {[-2; 3]}; {[4; 5]}; {[-4; -5]}]) as Hnz.
  { intros c Hc. repeat (apply elem_of_cons in Hc as [->|Hc]);
      [set_solver..|by apply elem_of_nil in Hc]. }
  assert (_pure_literal_elim 3 [{[1; 2]}; {[-2; 3]}; {[4; 5]}; {[-4; -5]}] ∅
    = Some ([{[4; 5]}; {[-4; -5]}], {[1 := true; 3 := true]})) as Hp
    by (vm_compute; reflexivity).
  split; [exact Hnz|]. split; [exact Hp|].
  exact (pure_literal_elim_kept_or_satisfied _ _ _ _ _ Hnz Hp).
Defined.

Lemma pure_round_models pure_vars clauses (a af : assignment) clauses' a' :
  NoDup pure_vars.*1 → Forall (pure_in clauses a) pure_vars →
  pure_round pure_vars clauses a = (clauses', a') →
  a ⊆ af → all_sat af clauses → ∃ af', a' ⊆ af' ∧ all_sat af' clauses'.
Proof.
  revert clauses a af.
  induction pure_vars as [|[var val] rest IH]; intros clauses a af Hnd Hall;
    cbn [pure_round].
  { intros [= <- <-] Ha Hs. eauto. }
  rewrite fmap_cons in Hnd. apply NoDup_cons in Hnd as [Hnin Hnd].
  apply Forall_cons in Hall as [Hpv Hall]. intros Hr Ha Hs.
  eapply (IH _ _ (<[var := val]> af)); [done| |done| |].
  - apply Forall_forall. intros pv Hin. apply (pure_in_filter _ _ pv (var, val)).
    + eapply Forall_forall in Hall; done.
    + cbn [fst]. intros Heq. apply Hnin.
      apply list_elem_of_fmap. exists pv. by rewrite Heq.
  - by apply insert_mono.
  - destruct Hpv as (Hvar & Habs & Hsgn & Hp). cbn [fst snd] in *.
    intros c [Hn Hc]%list_elem_of_filter.
    destruct (Hs c Hc) as (l & Hl & Hne & Hlt). exists l. split; [done|].
    split; [done|]. rewrite lookup_insert_ne; [done|].
    intros Heq. rewrite <- Habs in Heq. symmetry in Heq.
    destruct (abs_cases _ _ Heq) as [->| ->]; [done|].
    by apply (Hp c Hc Hn).
Qed.

Lemma pure_literal_elim_models fuel clauses (a af : assignment) clauses' a' :
  _pure_literal_elim fuel clauses a = Some (clauses', a') →
  a ⊆ af → all_sat af clauses → ∃ af', a' ⊆ af' ∧ all_sat af' clauses'.
Proof.
  revert clauses a af. induction fuel as [|fuel IH]; intros clauses a af; [done|].
  rewrite _pure_literal_elim_S.
  destruct (find_pure_vars clauses a) as [|pv rest] eqn:Hf.
  { intros [= <- <-] Ha Hs. eauto. }
  destruct (pure_round (pv :: rest) clauses a) as [cs1 a1] eqn:Hr.
  intros He Ha Hs. rewrite <- Hf in Hr.
  destruct (pure_round_models _ _ _ af _ _ (NoDup_find_pure_vars clauses a)
              ltac:(apply Forall_forall; intros ??; by apply elem_of_find_pure_vars)
              Hr Ha Hs) as (af1 & Ha1 & Hs1).
  by eapply IH.
Qed.

(** X11.  Pure literal elimination keeps the clauses satisfiable.  When
    no clause holds the literal [0] and some assignment extending the
    incoming one passes [_is_satisfied_clause] on every clause, then some
    assignment extending the returned one passes it on every clause of
    the input as well: the values given to the pure variables can be
    adopted by a model. *)
Theorem pure_literal_elim_keeps_satisfiable fuel clauses (a af : assignment) clauses' a' :
  nonzero clauses → _pure_literal_elim fuel clauses a = Some (clauses', a') →
  a ⊆ af → (∀ c, c ∈ clauses → _is_satisfied_clause c af = true) →
  ∃ af', a' ⊆ af' ∧ ∀ c, c ∈ clauses → _is_satisfied_clause c af' = true.
Proof.
  intros Hnz Hp Ha Hs.
  destruct (pure_literal_elim_models _ _ _ af _ _ Hp Ha) as (af' & Ha' & Hs').
  { intros c Hc. by apply _is_satisfied_clause_spec, Hs. }
  exists af'. split; [done|]. intros c Hc. apply _is_satisfied_clause_spec.
  destruct (pure_literal_elim_kept _ _ _ _ _ Hnz Hp c Hc) as [Hc'|Hsat].
  - by apply Hs'.
  - by eapply clause_sat_weaken.
Qed.

Lemma pure_literal_elim_keeps_satisfiable_witness :
  nonzero [{[1; 2]}; {[-2; 3]}] ∧
  _pure_literal_elim 3 [{[1; 2]}; {[-2; 3]}] ∅ = Some ([], {[1 := true; 3 := true]}) ∧
  (∅ : assignment) ⊆ {[1 := false; 2 := true; 3 := true]} ∧
  (∀ c, c ∈ [({[1; 2]} : clause); {[-2; 3]}] →
     _is_satisfied_clause c {[1 := false; 2 := true; 3 := true]} = true) ∧
  ∃ af', ({[1 := true; 3 := true]} : assignment) ⊆ af' ∧
    ∀ c, c ∈ [({[1; 2]} : clause); {[-2; 3]}] → _is_satisfied_clause c af' = true.
Proof.
  assert (nonzero [{[1; 2]}; {[-2; 3]}]) as Hnz.
  { intros c Hc. repeat (apply elem_of_cons in Hc as [->|Hc]);
      [set_solver..|by apply elem_of_nil in Hc]. }
  assert (_pure_literal_elim 3 [{[1; 2]}; {[-2; 3]}] ∅
    = Some ([], {[1 := true; 3 := true]})) as Hp by (vm_compute; reflexivity).
  assert ((∅ : assignment) ⊆ {[1 := false; 2 := true; 3 := true]}) as Ha
    by apply map_empty_subseteq.
  assert (∀ c, c ∈ [({[1; 2]} : clause); {[-2; 3]}] →
    _is_satisfied_clause c {[1 := false; 2 := true; 3 := true]} = true) as Hs.
  { intros c Hc. repeat (apply elem_of_cons in Hc as [->|Hc]);
      [vm_compute; reflexivity..|by apply elem_of_nil in Hc]. }
  split; [exact Hnz|]. split; [exact Hp|]. split; [exact Ha|]. split; [exact Hs|].
  exact (pure_literal_elim_keeps_satisfiable _ _ _ _ _ _ Hnz Hp Ha Hs).
Defined.

(** ** The results of the search *)

Lemma dpll_branch_false rec clauses (a : assignment) var try_vals r :
  dpll_branch rec clauses a var try_vals = Some (false, r) →
  r = ∅ ∧
  ∀ try_val, try_val ∈ try_vals →
    _contains_empty_clause
      (_simplify_after_assignment clauses (lit_of var try_val)) = true ∨
    ∃ r', rec (_simplify_after_assignment clauses (lit_of var try_val))
            (<[var := try_val]> a) = Some (false, r').
Proof.
  induction try_vals as [|tv rest IH].
  { intros [= <-]. split; [done|]. by intros ? ?%elem_of_nil. }
  rewrite dpll_branch_cons.
  destruct (existsb _ _) eqn:He.
  - intros [Hr Hrest]%IH. split; [done|].
    intros tv' [->|Hin]%elem_of_cons; [by left|by apply Hrest].
  - destruct (rec _ _) as [[[|] af]|] eqn:Hrec; simpl; [done| |done].
    intros [Hr Hrest]%IH. split; [done|].
    intros tv' [->|Hin]%elem_of_cons; [right; eauto|by apply Hrest].
Qed.

Lemma dpll_false_empty fuel clauses (a : assignment) num_vars r :
  _dpll fuel clauses a num_vars = Some (false, r) → r = ∅.
Proof.
  destruct fuel as [|fuel]; [done|]. rewrite _dpll_S.
  destruct (_unit_propagate (S fuel) clauses a) as [[[cs1 a1] [|]]|];
    simpl; [by intros [= <-]| |done].
  destruct (_pure_literal_elim (S fuel) cs1 a1) as [[cs2 a2]|]; simpl; [|done].
  destruct cs2 as [|c2 cs2]; [done|].
  destruct (_contains_empty_clause (c2 :: cs2)); [by intros [= <-]|].
  destruct (_choose_branch_var (c2 :: cs2) a2 num_vars) as [[var|] pref];
    [|by intros [= <-]].
  by intros [? _]%dpll_branch_false.
Qed.

Lemma dpll_extends fuel clauses (a : assignment) num_vars af :
  _dpll fuel clauses a num_vars = Some (true, af) → a ⊆ af.
Proof.
  revert clauses a. induction fuel as [|fuel IH]; intros clauses a Hd; [done|].
  apply dpll_true_inv in Hd as [(cs1 & a1 & Hu & Hp)|(cs' & a' & Hcall & Hd)].
  - etrans; [by eapply unit_propagate_extends|].
    by apply (pure_literal_elim_step _ _ _ _ _ Hp).
  - etrans; [by apply (dpll_calls_step _ _ _ _ _ _ Hcall)|]. by eapply IH.
Qed.

(** X12.  What [_dpll] returns as its second component: on failure the
    empty dict, whatever the incoming assignment was; on success an
    assignment that extends the incoming one, so no value the caller had
    fixed is changed or lost. *)
Theorem dpll_result_assignment fuel clauses (a : assignment) num_vars sat af :
  _dpll fuel clauses a num_vars = Some (sat, af) →
  if sat then a ⊆ af else af = ∅.
Proof.
  destruct sat; [apply dpll_extends|apply dpll_false_empty].
Qed.

Lemma dpll_result_assignment_witness :
  _dpll 3 [{[1; 2]}; {[-1; -2]}; {[3]}; {[-3]}] {[7 := true]} 3 = Some (false, ∅) ∧
  _dpll 3 [{[1; 2]}; {[-1; 2]}; {[1; -2]}] {[7 := true]} 2
    = Some (true, {[1 := true; 2 := true; 7 := true]}) ∧
  ({[7 := true]} : assignment) ⊆ {[1 := true; 2 := true; 7 := true]}.
Proof.
  assert (_dpll 3 [{[1; 2]}; {[-1; -2]}; {[3]}; {[-3]}] {[7 := true]} 3
    = Some (false, ∅)) as H1 by (vm_compute; reflexivity).
  assert (_dpll 3 [{[1; 2]}; {[-1; 2]}; {[1; -2]}] {[7 := true]} 2
    = Some (true, {[1 := true; 2 := true; 7 := true]})) as H2
    by (vm_compute; reflexivity).
  split; [exact H1|]. split; [exact H2|].
  exact (dpll_result_assignment _ _ _ _ true _ H2).
Defined.

(** X13.  A successful [_dpll] passes the module's own clause test.
    When no clause holds the literal [0] and [_dpll] returns
    [(True, final)], then [_is_satisfied_clause(c, final)] is true for
    every clause [c] it was called with, from any starting assignment and
    for any [num_vars]. *)
Theorem dpll_success_satisfies fuel clauses (a : assignment) num_vars af :
  nonzero clauses → _dpll fuel clauses a num_vars = Some (true, af) →
  ∀ c, c ∈ clauses → _is_satisfied_clause c af = true.
Proof.
  intros Hnz Hd c Hc. apply _is_satisfied_clause_spec.
  by apply (dpll_sound _ _ _ _ _ Hnz Hd).
Qed.

Lemma dpll_success_satisfies_witness :
  nonzero [{[1; 2]}; {[-1; 2]}; {[1; -2]}] ∧
  _dpll 3 [{[1; 2]}; {[-1; 2]}; {[1; -2]}] {[7 := true]} 2
    = Some (true, {[1 := true; 2 := true; 7 := true]}) ∧
  ∀ c, c ∈ [({[1; 2]} : clause); {[-1; 2]}; {[1; -2]}] →
    _is_satisfied_clause c {[1 := true; 2 := true; 7 := true]} = true.
Proof.
  assert (nonzero [{[1; 2]}; {[-1; 2]}; {[1; -2]}]) as Hnz.
  { intros c Hc. repeat (apply elem_of_cons in Hc as [->|Hc]);
      [set_solver..|by apply elem_of_nil in Hc]. }
  assert (_dpll 3 [{[1; 2]}; {[-1; 2]}; {[1; -2]}] {[7 := true]} 2
    = Some (true, {[1 := true; 2 := true; 7 := true]})) as Hd
    by (vm_compute; reflexivity).
  split; [exact Hnz|]. split; [exact Hd|].
  exact (dpll_success_satisfies _ _ _ _ _ Hnz Hd).
Defined.

(** ** A failed search refutes the clauses *)

Lemma shrinks_in_range cs cs' num_vars :
  shrinks cs cs' → lits_in_range cs num_vars → lits_in_range cs' num_vars.
Proof.
  intros Hsh Hrg c' lit Hc' Hlit. destruct (Hsh c' Hc') as (c & Hc & Hsub).
  apply (Hrg c); [done|]. by apply Hsub.
Qed.

Lemma clean_union_sat clauses (a af : assignment) :
  clean clauses a → all_sat af clauses → all_sat (a ∪ af) clauses.
Proof.
  intros Hcl Hs c Hc. destruct (Hs c Hc) as (lit & Hin & Hne & Hl).
  exists lit. split; [done|]. split; [done|].
  rewrite lookup_union_r; [done|]. by eapply Hcl.
Qed.

Lemma dpll_false_unsat fuel clauses (a : assignment) num_vars r :
  clean clauses a → lits_in_range clauses num_vars →
  _dpll fuel clauses a num_vars = Some (false, r) →
  ∀ af, ¬ all_sat af clauses.
Proof.
  revert clauses a r.
  induction fuel as [|fuel IH]; intros clauses a r Hcl Hrg; [done|].
  rewrite _dpll_S. intros Hd af Hs.
  pose proof (clean_union_sat _ _ _ Hcl Hs) as Hs0.
  pose proof (map_union_subseteq_l a af) as Ha.
  destruct (_unit_propagate (S fuel) clauses a) as [[[cs1 a1] conflict]|] eqn:Hu;
    simpl in Hd; [|done].
  destruct (unit_propagate_models _ _ _ _ _ _ _ Ha Hs0 Hu) as (-> & Ha1 & Hs1).
  apply unit_propagate_step in Hu.
  destruct (_pure_literal_elim (S fuel) cs1 a1) as [[cs2 a2]|] eqn:Hp;
    simpl in Hd; [|done].
  pose proof (pure_literal_elim_sublist _ _ _ _ _ Hp) as Hsub.
  apply pure_literal_elim_step in Hp.
  pose proof (step_ok_trans _ _ _ _ _ _ Hu Hp) as Hstep.
  assert (all_sat (a ∪ af) cs2) as Hs2.
  { intros c Hc. apply Hs1. by eapply elem_of_sublist. }
  assert (clean cs2 a2) as Hcl2 by apply Hstep, Hcl.
  assert (lits_in_range cs2 num_vars) as Hrg2
    by (eapply shrinks_in_range; [apply Hstep|done]).
  destruct cs2 as [|c2 cs2]; [done|].
  destruct (_contains_empty_clause (c2 :: cs2)) eqn:He.
  { apply contains_empty_clause_spec in He. by eapply clause_sat_empty, Hs2. }
  pose proof (choose_branch_var_spec (c2 :: cs2) a2 num_vars) as Hch.
  destruct (_choose_branch_var (c2 :: cs2) a2 num_vars) as [[var|] pref].
  2: { destruct Hch as [_ Hall]. destruct (Hs2 c2) as (l & Hl & _); [left|].
       destruct (Hall (Z.abs l)) as [? Hsome]; [by apply (Hrg2 c2); [left|]|].
       rewrite (Hcl2 c2 l) in Hsome; [done|left|done]. }
  destruct Hch as (Hrange & Ha2 & _).
  apply dpll_branch_false in Hd as [_ Hbr].
  assert (0 < var) as Hpos by lia.
  set (b := default true ((a ∪ af) !! var)).
  assert (all_sat (<[var := b]> (a ∪ af)) (c2 :: cs2)) as Hs3.
  { intros c Hc. eapply clause_sat_weaken; [|by apply Hs2].
    destruct ((a ∪ af) !! var) as [b'|] eqn:Hv.
    - subst b. simpl. by rewrite insert_id.
    - by apply insert_subseteq. }
  assert (lit_true (<[var := b]> (a ∪ af)) (lit_of var b)) as Hlit
    by (apply lit_true_lit_of; [done|by rewrite lookup_insert_eq]).
  apply (simplify_all_sat _ _ _ Hlit) in Hs3.
  pose proof (branch_step_ok (c2 :: cs2) a2 var b Hpos Ha2) as Hbs.
  destruct (Hbr b) as [Hemp|[r' Hrec]].
  - destruct b, pref; simpl; set_solver.
  - apply contains_empty_clause_spec in Hemp. by eapply clause_sat_empty, Hs3.
  - eapply IH in Hrec; [by eapply Hrec|by apply Hbs|].
    eapply shrinks_in_range; [apply Hbs|done].
Qed.

Lemma in_range_clauses_to_sets clauses num_vars :
  in_range clauses num_vars → lits_in_range (_clauses_to_sets clauses) num_vars.
Proof.
  intros Hr s lit (c & Hc & ->)%elem_of_clauses_to_sets Hlit%elem_of_list_to_set.
  by eapply Hr.
Qed.

Lemma satisfies_all_sat (a : assignment) clauses :
  satisfies a clauses ↔ all_sat a (_clauses_to_sets clauses).
Proof.
  split.
  - intros Hs s (c & Hc & ->)%elem_of_clauses_to_sets.
    by apply _is_satisfied_clause_spec, Hs.
  - intros Hs c Hc. apply _is_satisfied_clause_spec, Hs, elem_of_clauses_to_sets. eauto.
Qed.

(** X14.  A failed search is a refutation.  On a state in which no
    clause mentions an assigned variable and every literal names a
    variable of [1..num_vars], [_dpll] returns [False] only if no
    assignment at all passes [_is_satisfied_clause] on every clause. *)
Theorem dpll_failure_refutes fuel clauses (a : assignment) num_vars r :
  clean clauses a → lits_in_range clauses num_vars →
  _dpll fuel clauses a num_vars = Some (false, r) →
  ∀ af, ¬ ∀ c, c ∈ clauses → _is_satisfied_clause c af = true.
Proof.
  intros Hcl Hrg Hd af Hs. apply (dpll_false_unsat _ _ _ _ _ Hcl Hrg Hd af).
  intros c Hc. by apply _is_satisfied_clause_spec, Hs.
Qed.

Lemma dpll_failure_refutes_witness :
  clean [{[1; 2]}; {[-1; 2]}; {[1; -2]}; {[-1; -2]}] {[3 := true]} ∧
  lits_in_range [{[1; 2]}; {[-1; 2]}; {[1; -2]}; {[-1; -2]}] 3 ∧
  _dpll 3 [{[1; 2]}; {[-1; 2]}; {[1; -2]}; {[-1; -2]}] {[3 := true]} 3
    = Some (false, ∅) ∧
  ∀ af, ¬ ∀ c, c ∈ [({[1; 2]} : clause); {[-1; 2]}; {[1; -2]}; {[-1; -2]}] →
    _is_satisfied_clause c af = true.
Proof.
  assert (∀ c lit, c ∈ [({[1; 2]} : clause); {[-1; 2]}; {[1; -2]}; {[-1; -2]}] →
    lit ∈ c → 1 ≤ Z.abs lit ≤ 2) as Hlits.
  { intros c lit Hc Hlit. repeat (apply elem_of_cons in Hc as [->|Hc]);
      [..|by apply elem_of_nil in Hc];
      apply elem_of_union in Hlit as [->%elem_of_singleton| ->%elem_of_singleton];
      lia. }
  assert (clean [{[1; 2]}; {[-1; 2]}; {[1; -2]}; {[-1; -2]}] {[3 := true]}) as Hcl.
  { intros c lit Hc Hlit. apply lookup_singleton_ne.
    pose proof (Hlits c lit Hc Hlit). lia. }
  assert (lits_in_range [{[1; 2]}; {[-1; 2]}; {[1; -2]}; {[-1; -2]}] 3) as Hrg.
  { intros c lit Hc Hlit. pose proof (Hlits c lit Hc Hlit). lia. }
  assert (_dpll 3 [{[1; 2]}; {[-1; 2]}; {[1; -2]}; {[-1; -2]}] {[3 := true]} 3
    = Some (false, ∅)) as Hd by (vm_compute; reflexivity).
  split; [exact Hcl|]. split; [exact Hrg|]. split; [exact Hd|].
  exact (dpll_failure_refutes _ _ _ _ _ Hcl Hrg Hd).
Defined.

(** ** The answers of [solve_cnf] *)

(** X15.  An ["UNSAT"] answer is right.  For an input whose literals
    name variables of [1..num_vars], if the working [solve_cnf] returns
    ["UNSAT"], then no assignment of values to variables, total or
    partial, passes [_is_satisfied_clause] on every clause of the input. *)
Theorem solve_cnf_unsat_correct fuel clauses num_vars r :
  in_range clauses num_vars →
  solve_cnf fuel clauses num_vars = Some (UNSAT, r) →
  ∀ a, ¬ satisfies a clauses.
Proof.
  intros Hr (_ & af & Hd)%solve_cnf_UNSAT a Hs.
  apply (dpll_false_unsat _ _ _ _ _ (clean_empty _)
           (in_range_clauses_to_sets _ _ Hr) Hd a).
  by apply satisfies_all_sat.
Qed.

Lemma solve_cnf_unsat_correct_witness :
  in_range [[1; 2]; [-1; 2]; [1; -2]; [-1; -2]] 2 ∧
  solve_cnf 4 [[1; 2]; [-1; 2]; [1; -2]; [-1; -2]] 2 = Some (UNSAT, None) ∧
  ∀ a, ¬ satisfies a [[1; 2]; [-1; 2]; [1; -2]; [-1; -2]].
Proof.
  assert (in_range [[1; 2]; [-1; 2]; [1; -2]; [-1; -2]] 2) as Hr
    by (apply in_rangeb_spec; vm_compute; reflexivity).
  assert (solve_cnf 4 [[1; 2]; [-1; 2]; [1; -2]; [-1; -2]] 2 = Some (UNSAT, None))
    as Hs by (vm_compute; reflexivity).
  split; [exact Hr|]. split; [exact Hs|].
  exact (solve_cnf_unsat_correct _ _ _ _ Hr Hs).
Defined.

(** X16.  A satisfiable input gets a model.  For an input whose literals
    name variables of [1..num_vars]: if some assignment passes
    [_is_satisfied_clause] on every clause, then the working [solve_cnf],
    given fuel above the number of clauses plus the number of variables,
    returns ["SAT"] with a model that contains a literal of every
    clause. *)
Theorem solve_cnf_finds_model fuel clauses num_vars (a : assignment) :
  in_range clauses num_vars → satisfies a clauses →
  (length clauses + Z.to_nat num_vars < fuel)%nat →
  ∃ model, solve_cnf fuel clauses num_vars = Some (SAT, Some model) ∧
    ∀ c, c ∈ clauses → ∃ lit, lit ∈ c ∧ lit ∈ model.
Proof.
  intros Hr Hs Hfuel.
  destruct (solve_cnf_terminates fuel clauses num_vars Hfuel) as [Hu|[model Hm]].
  { exfalso. apply solve_cnf_UNSAT in Hu as (_ & af & Hd).
    apply (dpll_false_unsat _ _ _ _ _ (clean_empty _)
             (in_range_clauses_to_sets _ _ Hr) Hd a).
    by apply satisfies_all_sat. }
  exists model. split; [done|]. intros c Hc.
  apply solve_cnf_SAT in Hm as (af & Hd & ->).
  apply dpll_sound in Hd as [_ Hsat]; [|by eapply in_range_nonzero].
  destruct (Hsat (list_to_set c)) as (lit & Hin & Ht).
  { apply elem_of_clauses_to_sets. eauto. }
  apply elem_of_list_to_set in Hin. exists lit. split; [done|].
  apply lit_true_build_model; [|done]. by eapply Hr.
Qed.

Lemma solve_cnf_finds_model_witness :
  in_range [[1; 2]; [-1; -2]] 2 ∧
  satisfies {[1 := false; 2 := true]} [[1; 2]; [-1; -2]] ∧
  (length [[1; 2]; [-1; -2]]%Z + Z.to_nat 2%Z < 5)%nat ∧
  ∃ model, solve_cnf 5 [[1; 2]; [-1; -2]] 2 = Some (SAT, Some model) ∧
    ∀ c, c ∈ [[1; 2]; [-1; -2]] → ∃ lit, lit ∈ c ∧ lit ∈ model.
Proof.
  assert (in_range [[1; 2]; [-1; -2]] 2) as Hr
    by (apply in_rangeb_spec; vm_compute; reflexivity).
  assert (satisfies {[1 := false; 2 := true]} [[1; 2]; [-1; -2]]) as Hs.
  { intros c Hc. repeat (apply elem_of_cons in Hc as [->|Hc]);
      [vm_compute; reflexivity..|by apply elem_of_nil in Hc]. }
  assert (length [[1; 2]; [-1; -2]]%Z + Z.to_nat 2%Z < 5)%nat as Hfuel
    by (vm_compute; lia).
  split; [exact Hr|]. split; [exact Hs|]. split; [exact Hfuel|].
  exact (solve_cnf_finds_model 5 _ _ _ Hr Hs Hfuel).
Defined.

(** X17.  [solve_cnf] returns on every input, also one outside its
    contract (literals [0] or beyond [num_vars], a negative [num_vars]).
    The result is [("UNSAT", None)] or [("SAT", model)] with a list
    [model], never another combination, and it is reached once the fuel
    exceeds the number of clauses plus the number of variables; more fuel
    does not change it. *)
Theorem solve_cnf_total clauses num_vars :
  ∃ r, (r = (UNSAT, None) ∨ ∃ model, r = (SAT, Some model)) ∧
    ∀ fuel, (length clauses + Z.to_nat num_vars < fuel)%nat →
      solve_cnf fuel clauses num_vars = Some r.
Proof.
  set (fuel0 := S (length clauses + Z.to_nat num_vars)).
  destruct (solve_cnf_terminates fuel0 clauses num_vars) as [Hr|[model Hr]];
    [unfold fuel0; lia|..].
  - exists (UNSAT, None). split; [by left|]. intros fuel Hfuel.
    eapply solve_cnf_fuel_mono; [|done]. unfold fuel0. lia.
  - exists (SAT, Some model). split; [right; eauto|]. intros fuel Hfuel.
    eapply solve_cnf_fuel_mono; [|done]. unfold fuel0. lia.
Qed.

Lemma unit_round_keeps_empty unit_lits clauses (a : assignment) clauses' a' :
  unit_round unit_lits clauses a = (clauses', a', false) →
  ∅ ∈ clauses → ∅ ∈ clauses'.
Proof.
  revert clauses a.
  induction unit_lits as [|lit rest IH]; intros clauses a Hr; simpl in Hr.
  { by injection Hr as <- <-. }
  destruct (a !! Z.abs lit) as [old|].
  - destruct (negb (Bool.eqb old (0 <? lit))); [done|]. by eapply IH.
  - destruct (unit_simplify lit clauses) as [new|] eqn:Hu; [|done].
    apply unit_simplify_Some in Hu as ->.
    intros He. eapply IH; [done|]. apply elem_of_simplify.
    exists ∅. split; [done|]. set_solver.
Qed.

Lemma unit_propagate_keeps_empty fuel clauses (a : assignment) clauses' a' :
  _unit_propagate fuel clauses a = Some (clauses', a', false) →
  ∅ ∈ clauses → ∅ ∈ clauses'.
Proof.
  revert clauses a. induction fuel as [|fuel IH]; intros clauses a; [done|].
  rewrite _unit_propagate_S.
  destruct (find_unit_lits clauses) as [|lit rest]; [by intros [= <- <-]|].
  destruct (unit_round (lit :: rest) clauses a) as [[cs1 a1] [|]] eqn:Hr; [done|].
  intros Hu He. eapply IH; [done|]. by eapply unit_round_keeps_empty.
Qed.

Lemma pure_round_keeps_empty pure_vars clauses (a : assignment) :
  ∅ ∈ clauses → ∅ ∈ (pure_round pure_vars clauses a).1.
Proof.
  revert clauses a.
  induction pure_vars as [|[var val] rest IH]; intros clauses a He; [done|].
  cbn [pure_round]. apply IH, list_elem_of_filter. split; [set_solver|done].
Qed.

Lemma pure_literal_elim_keeps_empty fuel clauses (a : assignment) clauses' a' :
  _pure_literal_elim fuel clauses a = Some (clauses', a') →
  ∅ ∈ clauses → ∅ ∈ clauses'.
Proof.
  revert clauses a. induction fuel as [|fuel IH]; intros clauses a; [done|].
  rewrite _pure_literal_elim_S.
  destruct (find_pure_vars clauses a) as [|pv rest]; [by intros [= <- <-]|].
  pose proof (pure_round_keeps_empty (pv :: rest) clauses a) as Hk.
  destruct (pure_round (pv :: rest) clauses a) as [cs1 a1].
  intros Hp He. eapply IH; [done|]. by apply Hk.
Qed.

Lemma dpll_empty_clause_fails fuel clauses (a : assignment) num_vars af :
  ∅ ∈ clauses → _dpll fuel clauses a num_vars ≠ Some (true, af).
Proof.
  intros He. destruct fuel as [|fuel]; [done|]. rewrite _dpll_S.
  destruct (_unit_propagate (S fuel) clauses a) as [[[cs1 a1] [|]]|] eqn:Hu;
    simpl; [done| |done].
  apply unit_propagate_keeps_empty in Hu; [|done].
  destruct (_pure_literal_elim (S fuel) cs1 a1) as [[cs2 a2]|] eqn:Hp; simpl; [|done].
  apply pure_literal_elim_keeps_empty in Hp; [|done].
  destruct cs2 as [|c2 cs2]; [by apply elem_of_nil in Hp|].
  apply contains_empty_clause_spec in Hp. by rewrite Hp.
Qed.

(** X18.  An input with an empty clause is answered ["UNSAT"], whatever
    the other clauses and [num_vars] are: the empty set survives unit
    propagation and pure literal elimination and is found by
    [_contains_empty_clause] before any branching. *)
Theorem solve_cnf_empty_clause fuel clauses num_vars :
  [] ∈ clauses → (length clauses + Z.to_nat num_vars < fuel)%nat →
  solve_cnf fuel clauses num_vars = Some (UNSAT, None).
Proof.
  intros He Hfuel.
  destruct (solve_cnf_terminates fuel clauses num_vars Hfuel) as [?|[model Hm]];
    [done|].
  apply solve_cnf_SAT in Hm as (af & Hd & _).
  exfalso. eapply dpll_empty_clause_fails; [|done].
  apply elem_of_clauses_to_sets. exists []. done.
Qed.

Lemma solve_cnf_empty_clause_witness :
  [] ∈ [[1; 2]; []; [7]] ∧
  (length [[1; 2]; []; [7]]%Z + Z.to_nat 2%Z < 6)%nat ∧
  solve_cnf 6 [[1; 2]; []; [7]] 2 = Some (UNSAT, None).
Proof.
  assert ([] ∈ [[1; 2]; []; [7]]) as He by (right; left).
  assert (length [[1; 2]; []; [7]]%Z + Z.to_nat 2%Z < 6)%nat as Hfuel
    by (vm_compute; lia).
  split; [exact He|]. split; [exact Hfuel|].
  exact (solve_cnf_empty_clause 6 _ _ He Hfuel).
Defined.

(** X19.  With no clauses at all [solve_cnf] answers ["SAT"] and sets
    every variable to false: the model is [[-1, -2, ..., -num_vars]], the
    empty list when [num_vars] is zero or negative. *)
Theorem solve_cnf_no_clauses fuel num_vars :
  (0 < fuel)%nat →
  solve_cnf fuel [] num_vars
  = Some (SAT, Some ((λ v, - v) <$> range 1 (num_vars + 1))).
Proof.
  intros Hfuel. destruct fuel as [|fuel]; [lia|].
  unfold solve_cnf. rewrite _dpll_S.
  change (_clauses_to_sets []) with (@nil clause).
  rewrite _unit_propagate_S. cbn [find_unit_lits omap list_omap mbind option_bind].
  simpl. rewrite _pure_literal_elim_S.
  assert (find_pure_vars [] ∅ = []) as -> by (vm_compute; reflexivity).
  simpl. by f_equal.
Qed.

Lemma solve_cnf_no_clauses_witness :
  (0 < 1)%nat ∧ solve_cnf 1 [] 4 = Some (SAT, Some [-1; -2; -3; -4]).
Proof.
  assert (0 < 1)%nat as Hfuel by lia.
  split; [exact Hfuel|]. exact (solve_cnf_no_clauses 1 4 Hfuel).
Defined.

(** ** Variables that occur in no clause *)

Lemma shrinks_occurs cs cs' var : shrinks cs cs' → occurs cs' var → occurs cs var.
Proof.
  intros Hsh (c' & lit & Hc' & Hlit & Habs).
  destruct (Hsh c' Hc') as (c & Hc & Hsub). exists c, lit. split_and!; [done| |done].
  by apply Hsub.
Qed.

Lemma unit_round_assigns unit_lits clauses0 clauses (a : assignment) clauses' a' conflict :
  (∀ lit, lit ∈ unit_lits → occurs clauses0 (Z.abs lit)) →
  unit_round unit_lits clauses a = (clauses', a', conflict) →
  ∀ v, is_Some (a' !! v) → is_Some (a !! v) ∨ occurs clauses0 v.
Proof.
  revert clauses a.
  induction unit_lits as [|lit rest IH]; intros clauses a Hocc Hr; simpl in Hr.
  { injection Hr as <- <- <-. by left. }
  assert (∀ l, l ∈ rest → occurs clauses0 (Z.abs l)) as Hocc'
    by (intros l Hl; apply Hocc; by right).
  assert (∀ v, is_Some (<[Z.abs lit := (0 <? lit)]> a !! v) →
            is_Some (a !! v) ∨ occurs clauses0 v) as Hins.
  { intros v. destruct (decide (Z.abs lit = v)) as [<-|Hne].
    - intros _. right. apply Hocc. by left.
    - rewrite lookup_insert_ne by done. by left. }
  destruct (a !! Z.abs lit) as [old|] eqn:Hold.
  - destruct (negb (Bool.eqb old (0 <? lit))).
    + injection Hr as <- <- <-. by left.
    + by eapply IH.
  - destruct (unit_simplify lit clauses) as [new|].
    + intros v Hv. destruct (IH _ _ Hocc' Hr v Hv) as [Hv'|?]; [|by right].
      by apply Hins.
    + injection Hr as <- <- <-. done.
Qed.

Lemma unit_propagate_assigns fuel clauses (a : assignment) clauses' a' :
  _unit_propagate fuel clauses a = Some (clauses', a', false) →
  ∀ v, is_Some (a' !! v) → is_Some (a !! v) ∨ occurs clauses v.
Proof.
  revert clauses a. induction fuel as [|fuel IH]; intros clauses a; [done|].
  rewrite _unit_propagate_S.
  destruct (find_unit_lits clauses) as [|lit rest] eqn:Hf.
  { intros [= <- <-] v Hv. by left. }
  destruct (unit_round (lit :: rest) clauses a) as [[cs1 a1] [|]] eqn:Hr; [done|].
  intros Hu v Hv.
  destruct (IH _ _ Hu v Hv) as [Hv1|Hocc].
  - eapply (unit_round_assigns _ clauses); [|done|done].
    intros l Hl. rewrite <- Hf in Hl.
    apply elem_of_find_unit_lits in Hl as (c & Hc & ->).
    exists {[ l ]}, l. split_and!; [done|set_solver|done].
  - right. eapply shrinks_occurs; [|done]. by apply (unit_round_step _ _ _ _ _ Hr).
Qed.

Lemma pure_round_assigns pure_vars clauses0 clauses (a : assignment) :
  (∀ pv, pv ∈ pure_vars → occurs clauses0 pv.1) →
  ∀ v, is_Some ((pure_round pure_vars clauses a).2 !! v) →
    is_Some (a !! v) ∨ occurs clauses0 v.
Proof.
  revert clauses a.
  induction pure_vars as [|[var val] rest IH]; intros clauses a Hocc v; [by left|].
  cbn [pure_round]. intros Hv.
  destruct (IH _ _ ltac:(intros pv Hpv; apply Hocc; by right) v Hv) as [Hv'|?];
    [|by right].
  destruct (decide (var = v)) as [<-|Hne].
  - right. apply (Hocc (var, val)). by left.
  - rewrite lookup_insert_ne in Hv' by done. by left.
Qed.

Lemma pure_literal_elim_assigns fuel clauses (a : assignment) clauses' a' :
  _pure_literal_elim fuel clauses a = Some (clauses', a') →
  ∀ v, is_Some (a' !! v) → is_Some (a !! v) ∨ occurs clauses v.
Proof.
  revert clauses a. induction fuel as [|fuel IH]; intros clauses a; [done|].
  rewrite _pure_literal_elim_S.
  destruct (find_pure_vars clauses a) as [|pv rest] eqn:Hf.
  { intros [= <- <-] v Hv. by left. }
  pose proof (pure_round_assigns (pv :: rest) clauses clauses a) as Hround.
  pose proof (pure_round_sublist (pv :: rest) clauses a) as Hsub.
  destruct (pure_round (pv :: rest) clauses a) as [cs1 a1] eqn:Hr.
  intros Hp v Hv. destruct (IH _ _ Hp v Hv) as [Hv1|(c & lit & Hc & Hlit & Habs)].
  - apply Hround; [|done]. intros pv' Hpv'. rewrite <- Hf in Hpv'.
    apply elem_of_find_pure_vars in Hpv' as ((_ & Habs & _) & c & Hc & Hlit).
    by exists c, (lit_of pv'.1 pv'.2).
  - right. exists c, lit. split_and!; [|done..]. by eapply elem_of_sublist.
Qed.

Lemma choose_branch_var_occurs clauses (a : assignment) num_vars var pref :
  clean clauses a → lits_in_range clauses num_vars →
  clauses ≠ [] → _contains_empty_clause clauses = false →
  _choose_branch_var clauses a num_vars = (Some var, pref) →
  occurs clauses var.
Proof.
  intros Hcl Hrg Hne He Hch.
  pose proof (choose_branch_var_spec clauses a num_vars) as Hspec.
  rewrite Hch in Hspec. destruct Hspec as (Hrange & Ha & _ & Hmax & _).
  destruct clauses as [|c0 cs]; [done|].
  destruct (set_choose_or_empty c0) as [[lit Hlit]|Hemp].
  2: { apply leibniz_equiv in Hemp. subst c0.
       assert (_contains_empty_clause (∅ :: cs) = true) as He'
         by (apply contains_empty_clause_spec; left).
       congruence. }
  assert (c0 ∈ c0 :: cs) as Hc0 by left.
  pose proof (Hmax (Z.abs lit) (Hrg c0 lit Hc0 Hlit) (Hcl c0 lit Hc0 Hlit)) as Hle.
  assert (0 < cnt (Z.abs lit) (c0 :: cs) + cnt (- Z.abs lit) (c0 :: cs)) as Hpos.
  { pose proof (cnt_nonneg (Z.abs lit) (c0 :: cs)).
    pose proof (cnt_nonneg (- Z.abs lit) (c0 :: cs)).
    destruct (Z.abs_eq_or_opp lit) as [Heq|Heq].
    - assert (cnt (Z.abs lit) (c0 :: cs) ≠ 0); [|lia].
      intros Hz. apply (cnt_zero_elem _ _ c0 Hz Hc0). by rewrite Heq.
    - assert (cnt (- Z.abs lit) (c0 :: cs) ≠ 0); [|lia].
      intros Hz. apply (cnt_zero_elem _ _ c0 Hz Hc0).
      rewrite Heq, Z.opp_involutive. done. }
  pose proof (cnt_nonneg var (c0 :: cs)). pose proof (cnt_nonneg (- var) (c0 :: cs)).
  destruct (decide (0 < cnt var (c0 :: cs))) as [Hv|Hv].
  - apply cnt_pos_elem in Hv as (c & Hc & Hin). exists c, var.
    split_and!; [done..|]. lia.
  - assert (0 < cnt (- var) (c0 :: cs)) as Hv' by lia.
    apply cnt_pos_elem in Hv' as (c & Hc & Hin). exists c, (- var).
    split_and!; [done..|]. lia.
Qed.

Lemma dpll_assigns fuel clauses (a : assignment) num_vars af :
  clean clauses a → lits_in_range clauses num_vars →
  _dpll fuel clauses a num_vars = Some (true, af) →
  ∀ v, is_Some (af !! v) → is_Some (a !! v) ∨ occurs clauses v.
Proof.
  revert clauses a.
  induction fuel as [|fuel IH]; intros clauses a Hcl Hrg Hd v Hv; [done|].
  assert (∀ cs1 a1 cs2 a2,
    _unit_propagate (S fuel) clauses a = Some (cs1, a1, false) →
    _pure_literal_elim (S fuel) cs1 a1 = Some (cs2, a2) →
    is_Some (a2 !! v) → is_Some (a !! v) ∨ occurs clauses v) as Hpre.
  { intros cs1 a1 cs2 a2 Hu Hp Hv2.
    destruct (pure_literal_elim_assigns _ _ _ _ _ Hp v Hv2) as [Hv1|Hocc].
    - by eapply unit_propagate_assigns.
    - right. eapply shrinks_occurs; [|done].
      by apply (unit_propagate_step _ _ _ _ _ Hu). }
  apply dpll_true_inv in Hd as [(cs1 & a1 & Hu & Hp)|(cs' & a' & Hcall & Hd)].
  { by eapply Hpre. }
  pose proof (dpll_calls_step _ _ _ _ _ _ Hcall) as Hstep.
  destruct (IH cs' a' (step_clean _ _ _ _ Hstep Hcl)
              (shrinks_in_range _ _ _ (step_shrinks _ _ _ _ Hstep) Hrg) Hd v Hv)
    as [Hv'|Hocc].
  2: { right. eapply shrinks_occurs; [apply Hstep|done]. }
  inversion Hcall as [? ? cs1 a1 cs2 a2 var pref tv Hu Hp Hne He Hch Htv Hse]; subst.
  pose proof (unit_propagate_step _ _ _ _ _ Hu) as Hs1.
  pose proof (pure_literal_elim_step _ _ _ _ _ Hp) as Hs2.
  pose proof (step_ok_trans _ _ _ _ _ _ Hs1 Hs2) as Hs12.
  destruct (decide (var = v)) as [<-|Hnev].
  - right. eapply shrinks_occurs; [apply Hs12|].
    eapply choose_branch_var_occurs; [| |done|done|done].
    + by apply Hs12.
    + eapply shrinks_in_range; [apply Hs12|done].
  - rewrite lookup_insert_ne in Hv' by done. by eapply Hpre.
Qed.

(** X20.  Variables that occur in no clause come out false.  For an
    input whose literals name variables of [1..num_vars], if [solve_cnf]
    returns [("SAT", model)] and neither [var] nor [-var] is a literal of
    any clause, then the entry of [model] for [var] is [-var]: the solver
    assigns only variables that occur, and [_build_model] fills in the
    rest with [False]. *)
Theorem solve_cnf_free_variable_false fuel clauses num_vars model var :
  in_range clauses num_vars →
  solve_cnf fuel clauses num_vars = Some (SAT, Some model) →
  1 ≤ var ≤ num_vars → (∀ c, c ∈ clauses → (var ∉ c) ∧ (- var ∉ c)) →
  model !! Z.to_nat (var - 1) = Some (- var).
Proof.
  intros Hr (af & Hd & ->)%solve_cnf_SAT Hvar Hfree.
  rewrite build_model_lookup by done.
  destruct (af !! var) as [b|] eqn:Haf; [exfalso|done].
  destruct (dpll_assigns _ _ _ _ _ (clean_empty _)
              (in_range_clauses_to_sets _ _ Hr) Hd var) as [Hv|Hocc].
  - by rewrite Haf.
  - by rewrite lookup_empty in Hv; destruct Hv.
  - destruct Hocc as (s & lit & (c & Hc & ->)%elem_of_clauses_to_sets
                        & Hlit%elem_of_list_to_set & Habs).
    destruct (Hfree c Hc) as [H1 H2].
    destruct (Z.abs_eq_or_opp lit) as [Heq|Heq].
    + apply H1. by rewrite <- Habs, Heq.
    + apply H2. by rewrite <- Habs, Heq, Z.opp_involutive.
Qed.

Lemma solve_cnf_free_variable_false_witness :
  in_range [[1; 3]; [-1; 3]] 3 ∧
  solve_cnf 3 [[1; 3]; [-1; 3]] 3 = Some (SAT, Some [-1; -2; 3]) ∧
  1 ≤ 2 ≤ 3 ∧
  (∀ c, c ∈ [[1; 3]; [-1; 3]] → (2 ∉ c) ∧ (- 2 ∉ c)) ∧
  [-1; -2; 3] !! Z.to_nat (2 - 1) = Some (- 2).
Proof.
  assert (in_range [[1; 3]; [-1; 3]] 3) as Hr
    by (apply in_rangeb_spec; vm_compute; reflexivity).
  assert (solve_cnf 3 [[1; 3]; [-1; 3]] 3 = Some (SAT, Some [-1; -2; 3])) as Hs
    by (vm_compute; reflexivity).
  assert (1 ≤ 2 ≤ 3) as Hv by lia.
  assert (∀ c, c ∈ [[1; 3]; [-1; 3]] → (2 ∉ c) ∧ (- 2 ∉ c)) as Hfree.
  { intros c Hc. repeat (apply elem_of_cons in Hc as [->|Hc]);
      [..|by apply elem_of_nil in Hc]; split; set_solver. }
  split; [exact Hr|]. split; [exact Hs|]. split; [exact Hv|]. split; [exact Hfree|].
  exact (solve_cnf_free_variable_false _ _ _ _ 2 Hr Hs Hv Hfree).
Defined.

(** ** The arguments of the helpers are not mutated *)

Lemma state_heap_clauses :
  Heap.is_clauses Heap.state_heap 1%positive [{[ 1 ]}; {[ -1; 2 ]}; {[ 3; 4 ]}].
Proof.
  exists [2; 3; 4]%positive. split; [vm_compute; reflexivity|].
  repeat constructor; vm_compute; reflexivity.
Qed.



(** X22.  [_pure_literal_elim] works on copies as well: run on a clause
    list and an assignment dict on the heap, it returns and leaves every
    object that existed before the call unchanged; the list and dict it
    returns hold the values computed by the function on values. *)
Theorem pure_literal_elim_preserves_arguments fuel c la cs a cs' a' (h : Heap.heap) :
  _pure_literal_elim fuel cs a = Some (cs', a') →
  Heap.is_clauses h c cs → h !! la = Some (Heap.ODict a) →
  ∃ r h', Heap._pure_literal_elim fuel c la h = Some (r, h') ∧
    (∀ l o, h !! l = Some o → h' !! l = Some o) ∧
    Heap.is_clauses h' c cs ∧ h' !! la = Some (Heap.ODict a) ∧
    Heap.is_clauses h' r.1 cs' ∧ h' !! r.2 = Some (Heap.ODict a').
Proof.
  intros Hp Hc Hla.
  destruct (wp_pure_literal_elim fuel c la cs a cs' a' h Hp Hc Hla)
    as (r & h' & Hrun & Hsub & Ha' & Hcs').
  exists r, h'. split_and!; try done.
  - intros l o Hl. by eapply lookup_weaken.
  - by eapply is_clauses_subseteq.
  - by eapply lookup_weaken.
Qed.

Lemma pure_literal_elim_preserves_arguments_witness :
  _pure_literal_elim 3 [{[ 1 ]}; {[ -1; 2 ]}; {[ 3; 4 ]}] {[ 7 := true ]}
    = Some ([], {[ 1 := true; 2 := true; 3 := true; 4 := true; 7 := true ]}) ∧
  Heap.is_clauses Heap.state_heap 1%positive [{[ 1 ]}; {[ -1; 2 ]}; {[ 3; 4 ]}] ∧
  Heap.state_heap !! 5%positive = Some (Heap.ODict {[ 7 := true ]}) ∧
  ∃ r h', Heap._pure_literal_elim 3 1%positive 5%positive Heap.state_heap
          = Some (r, h') ∧
    (∀ l o, Heap.state_heap !! l = Some o → h' !! l = Some o) ∧
    Heap.is_clauses h' 1%positive [{[ 1 ]}; {[ -1; 2 ]}; {[ 3; 4 ]}] ∧
    h' !! 5%positive = Some (Heap.ODict {[ 7 := true ]}) ∧
    Heap.is_clauses h' r.1 [] ∧
    h' !! r.2
    = Some (Heap.ODict {[ 1 := true; 2 := true; 3 := true; 4 := true; 7 := true ]}).
Proof.
  assert (_pure_literal_elim 3 [{[ 1 ]}; {[ -1; 2 ]}; {[ 3; 4 ]}] {[ 7 := true ]}
    = Some ([], {[ 1 := true; 2 := true; 3 := true; 4 := true; 7 := true ]})) as Hp
    by (vm_compute; reflexivity).
  assert (Heap.state_heap !! 5%positive = Some (Heap.ODict {[ 7 := true ]})) as Hla
    by (vm_compute; reflexivity).
  split; [exact Hp|]. split; [exact state_heap_clauses|]. split; [exact Hla|].
  exact (pure_literal_elim_preserves_arguments _ _ _ _ _ _ _ _
           Hp state_heap_clauses Hla).
Defined.



(** X24.  [_simplify_after_assignment] removes [-lit] from a copy.  Run on
    a clause list on the heap, it returns a new list, and every object
    that existed before the call is unchanged: the sets of the caller's
    list, which the new list shares where a clause is kept as it is, still
    hold [-lit], because [remove] is applied to [set(c)] and not to [c]. *)
Theorem simplify_after_assignment_preserves_arguments c cs lit (h : Heap.heap) :
  Heap.is_clauses h c cs →
  ∃ new h', Heap._simplify_after_assignment c lit h = Some (new, h') ∧
    (∀ l o, h !! l = Some o → h' !! l = Some o) ∧
    Heap.is_clauses h' c cs ∧
    Heap.is_clauses h' new (_simplify_after_assignment cs lit).
Proof.
  intros Hc.
  destruct (wp_simplify_after_assignment c cs lit h Hc)
    as (new & h' & Hrun & Hsub & Hnew).
  exists new, h'. split_and!; try done.
  - intros l o Hl. by eapply lookup_weaken.
  - by eapply is_clauses_subseteq.
Qed.

Lemma simplify_after_assignment_preserves_arguments_witness :
  Heap.is_clauses Heap.state_heap 1%positive [{[ 1 ]}; {[ -1; 2 ]}; {[ 3; 4 ]}] ∧
  ∃ new h', Heap._simplify_after_assignment 1%positive 1 Heap.state_heap
            = Some (new, h') ∧
    (∀ l o, Heap.state_heap !! l = Some o → h' !! l = Some o) ∧
    Heap.is_clauses h' 1%positive [{[ 1 ]}; {[ -1; 2 ]}; {[ 3; 4 ]}] ∧
    Heap.is_clauses h' new
      (_simplify_after_assignment [{[ 1 ]}; {[ -1; 2 ]}; {[ 3; 4 ]}] 1).
Proof.
  split; [exact state_heap_clauses|].
  exact (simplify_after_assignment_preserves_arguments _ _ 1 _ state_heap_clauses).
Defined.

(** * Properties of [normalize] *)

Example normalize_example :
  (* "x = 1  # one\n\ty=2#\n" gives "x=1y=2" *)
  Hash.normalize [120; 32; 61; 32; 49; 32; 32; 35; 32; 111; 110; 101; 10;
                  9; 121; 61; 50; 35; 10]
  = [120; 61; 49; 121; 61; 50].
Proof. vm_compute. reflexivity. Qed.

Lemma join_split word text :
  Hash.join (Hash.split word text)
  = word ++ filter (λ ch, Hash.isspace ch = false) text.
Proof.
  revert word. induction text as [|ch rest IH]; intros word; simpl.
  - destruct word; simpl; by rewrite ?app_nil_r.
  - destruct (Hash.isspace ch) eqn:Hsp.
    + rewrite filter_cons_False by congruence.
      destruct word as [|x word]; [apply IH|].
      unfold Hash.join in *. simpl. by rewrite IH.
    + rewrite filter_cons_True by done. rewrite IH. by rewrite <- app_assoc.
Qed.

Lemma normalize_alt text :
  Hash.normalize text
  = filter (λ ch, Hash.isspace ch = false) (Hash.sub_comments false text).
Proof. unfold Hash.normalize. by rewrite join_split. Qed.

Lemma sub_comments_app in_match text1 text2 :
  Hash.sub_comments in_match (text1 ++ text2)
  = Hash.sub_comments in_match text1
    ++ Hash.sub_comments (Hash.ends_in_match in_match text1) text2.
Proof.
  revert in_match. induction text1 as [|ch rest IH]; intros in_match; simpl; [done|].
  destruct (ch =? Hash.newline); [by rewrite IH|].
  destruct in_match; [by rewrite IH|].
  destruct (ch =? Hash.hash_sign); by rewrite IH.
Qed.

Lemma sub_comments_no_hash in_match text ch :
  ch ∈ Hash.sub_comments in_match text → ch ≠ Hash.hash_sign.
Proof.
  revert in_match. induction text as [|x rest IH]; intros in_match; simpl.
  { by intros ?%elem_of_nil. }
  destruct (Z.eqb_spec x Hash.newline) as [->|Hnl].
  { intros [->|Hin]%elem_of_cons; [done|by eapply IH]. }
  destruct in_match; [by apply IH|].
  destruct (Z.eqb_spec x Hash.hash_sign) as [->|Hh]; [by apply IH|].
  intros [->|Hin]%elem_of_cons; [done|by eapply IH].
Qed.

Lemma sub_comments_id text :
  Hash.hash_sign ∉ text → Hash.sub_comments false text = text.
Proof.
  induction text as [|x rest IH]; [done|]. intros [Hx Hrest]%not_elem_of_cons. simpl.
  destruct (x =? Hash.newline); [by rewrite IH|].
  destruct (Z.eqb_spec x Hash.hash_sign) as [->|_]; [done|]. by rewrite IH.
Qed.

Lemma sub_comments_skip text1 text2 :
  Hash.newline ∉ text1 →
  Hash.sub_comments true (text1 ++ text2) = Hash.sub_comments true text2.
Proof.
  induction text1 as [|x rest IH]; [done|]. intros [Hx Hrest]%not_elem_of_cons. simpl.
  destruct (Z.eqb_spec x Hash.newline) as [->|_]; [done|]. by apply IH.
Qed.

Lemma normalize_chars text ch :
  ch ∈ Hash.normalize text → Hash.isspace ch = false ∧ ch ≠ Hash.hash_sign.
Proof.
  rewrite normalize_alt. intros [Hsp Hin]%list_elem_of_filter.
  split; [done|]. by eapply sub_comments_no_hash.
Qed.

(** X25.  The text returned by [normalize] holds no whitespace character
    and no [#]. *)
Theorem normalize_no_space_no_hash text :
  Forall (λ ch, Hash.isspace ch = false ∧ ch ≠ Hash.hash_sign) (Hash.normalize text).
Proof. apply Forall_forall. intros ch. apply normalize_chars. Qed.

(** X26.  [normalize] is idempotent: normalising a normalised text
    returns it unchanged. *)
Theorem normalize_idempotent text :
  Hash.normalize (Hash.normalize text) = Hash.normalize text.
Proof.
  rewrite (normalize_alt (Hash.normalize text)).
  rewrite sub_comments_id.
  - rewrite normalize_alt, list_filter_filter. apply list_filter_iff. naive_solver.
  - intros Hin. by apply normalize_chars in Hin as [_ ?].
Qed.

(** X27.  Layout does not change the normalised text.  A whitespace
    character can be inserted or deleted at any position, also inside a
    word, with one exception: a newline that ends a comment, since the
    characters after it would otherwise join the comment. *)
Theorem normalize_whitespace text1 text2 w :
  Hash.isspace w = true →
  (w = Hash.newline → Hash.ends_in_match false text1 = false) →
  Hash.normalize (text1 ++ w :: text2) = Hash.normalize (text1 ++ text2).
Proof.
  intros Hsp Hnl. rewrite !normalize_alt, !sub_comments_app, !filter_app.
  f_equal. simpl.
  assert ((w =? Hash.hash_sign) = false) as Hh.
  { apply Z.eqb_neq. intros ->. done. }
  destruct (Z.eqb_spec w Hash.newline) as [Heq|Hne].
  - rewrite (Hnl Heq). by rewrite filter_cons_False by congruence.
  - destruct (Hash.ends_in_match false text1); [done|].
    rewrite Hh. by rewrite filter_cons_False by congruence.
Qed.

Lemma normalize_whitespace_witness :
  Hash.isspace 10 = true ∧
  (10 = Hash.newline → Hash.ends_in_match false [120; 35; 97; 10; 121] = false) ∧
  Hash.normalize ([120; 35; 97; 10; 121] ++ 10 :: [122])
  = Hash.normalize ([120; 35; 97; 10; 121] ++ [122]).
Proof.
  assert (Hash.isspace 10 = true) as Hsp by (vm_compute; reflexivity).
  assert (10 = Hash.newline → Hash.ends_in_match false [120; 35; 97; 10; 121] = false)
    as Hnl by (intros _; vm_compute; reflexivity).
  split; [exact Hsp|]. split; [exact Hnl|].
  exact (normalize_whitespace _ _ _ Hsp Hnl).
Defined.

(** X28.  Comments do not change the normalised text.  A [#] followed by
    any characters other than a newline can be inserted before a newline,
    or at the end of the text, whatever precedes it: [normalize] drops
    everything from a [#] to the end of its line, also where Python would
    read the [#] as part of a string literal. *)
Theorem normalize_comment text1 comment text2 :
  Hash.newline ∉ comment →
  Hash.normalize (text1 ++ Hash.hash_sign :: comment ++ Hash.newline :: text2)
  = Hash.normalize (text1 ++ Hash.newline :: text2) ∧
  Hash.normalize (text1 ++ Hash.hash_sign :: comment) = Hash.normalize text1.
Proof.
  intros Hc. rewrite !normalize_alt, !sub_comments_app, !filter_app.
  assert (∀ in_match tail,
    Hash.sub_comments in_match (Hash.hash_sign :: comment ++ tail)
    = Hash.sub_comments true tail) as Hskip.
  { intros in_match tail. simpl. destruct in_match; by apply sub_comments_skip. }
  split.
  - f_equal. rewrite Hskip. done.
  - rewrite <- (app_nil_r comment), Hskip. simpl. by rewrite app_nil_r.
Qed.

Lemma normalize_comment_witness :
  (Hash.newline ∉ [32; 35; 34]) ∧
  Hash.normalize ([120; 61; 34] ++ Hash.hash_sign :: [32; 35; 34] ++ Hash.newline :: [121])
  = Hash.normalize ([120; 61; 34] ++ Hash.newline :: [121]) ∧
  Hash.normalize ([120; 61; 34] ++ Hash.hash_sign :: [32; 35; 34])
  = Hash.normalize [120; 61; 34].
Proof.
  assert (Hash.newline ∉ [32; 35; 34]) as Hc.
  { intros Hin. repeat (apply elem_of_cons in Hin as [Hin|Hin]; [done|]).
    by apply elem_of_nil in Hin. }
  split; [exact Hc|]. exact (normalize_comment [120; 61; 34] _ [121] Hc).
Defined.
